(** * Verification of the semver package (semver.go)

    A shallow embedding of the version parser, comparator, formatter and
    mutators of [semver.go], followed by the properties proved about them.

    Conventions of the embedding:
    - Go [string] is a sequence of bytes: Stdlib [string] (a list of [ascii]).
    - [uint64] and [int64] are [Z]; arithmetic that can wrap has the
      wrap-around written out ([wrap64]).
    - A Go function returning [(T, error)] returns [result T].
    - A method with a pointer receiver that mutates it returns the new
      receiver together with its [error] result.
    - [regexp] patterns are values of [regex], run by a backtracking matcher
      with leftmost-first priorities, which is the match Go's [regexp]
      package reports. *)

From Stdlib Require Import ZArith NArith List String Ascii Bool Lia.
From Stdlib Require Import DecimalString DecimalFacts DecimalN DecimalNat.
Import ListNotations.

Local Open Scope string_scope.
Local Open Scope Z_scope.

(** ** Results and errors *)

(** One constructor per place where the package builds an error.  The
    payload is the string the message is formatted with. *)
Inductive error : Type :=
| ErrVersionStringEmpty                    (* "Version string empty" *)
| ErrInvalidVersion (s : string)           (* "Invalid version: '%s'" *)
| ErrInvalidTolerantVersion (s : string)   (* "Invalid tolerant version: '%s'" *)
| ErrShortVersion       (* "Short version cannot contain PreRelease/Build meta data" *)
| ErrSyntax (s : string)                   (* strconv.ErrSyntax *)
| ErrRange (s : string)                    (* strconv.ErrRange *)
| ErrBuildMetaDataEmpty                    (* "Build meta data is empty" *)
| ErrBuildInvalidChars (s : string)
    (* "Invalid character(s) found in build meta data %q" *)
| ErrPrereleaseEmpty                       (* "Prerelease is empty" *)
| ErrLeadingZeroes (s : string)
    (* "Numeric PreRelease version must not contain leading zeroes %q" *)
| ErrPrereleaseInvalidChars (s : string)
    (* "Invalid character(s) found in prerelease %q" *)
| ErrPrereleaseCanNotBeEmpty (s : string)  (* "Prerelease can not be empty %q" *)
| ErrBuildCanNotBeEmpty (s : string)       (* "Build meta data can not be empty %q" *)
| ErrBuildversionEmpty.                    (* "Buildversion is empty" *)

Inductive result (A : Type) : Type :=
| Ok (a : A)
| Err (e : error).
Arguments Ok {A} a.
Arguments Err {A} e.

Definition bind {A B : Type} (r : result A) (f : A -> result B) : result B :=
  match r with
  | Ok a => f a
  | Err e => Err e
  end.

Notation "x <- r ;; k" := (bind r (fun x => k))
  (at level 61, r at next level, right associativity).

(** ** Constants *)

Definition numbers : string := "0123456789".
Definition alphas : string :=
  "abcdefghijklmnopqrstuvwxyzABCDEFGHIJKLMNOPQRSTUVWXYZ-".
Definition alphanum : string := alphas ++ numbers.

(** ** Machine integers *)

Definition two64 : Z := 2 ^ 64.
Definition two63 : Z := 2 ^ 63.

(** Unsigned 64-bit wrap-around, as [v.Minor++] performs it. *)
Definition wrap64 (x : Z) : Z := x mod two64.

(** Signed 64-bit wrap-around, as [v.Revision++] performs it. *)
Definition wrap_int64 (x : Z) : Z := (x + two63) mod two64 - two63.

(** ** Data model *)

(** [type PRVersion struct] *)
Record PRVersion : Type := mkPRVersion {
  VersionStr : string;
  VersionNum : Z;      (* uint64 *)
  IsNum : bool
}.

(** [type Version struct] *)
Record Version : Type := mkVersion {
  Major : Z;           (* uint64 *)
  Minor : Z;           (* uint64 *)
  Patch : Z;           (* uint64 *)
  Revision : Z;        (* int64, -1 when absent *)
  Pre : list PRVersion;
  Build : list string
}.

(** The zero value [PRVersion{}]. *)
Definition PRVersion_zero : PRVersion := mkPRVersion "" 0 false.

(** ** Helpers from the Go standard library *)

(** [len(s)] *)
Definition len (s : string) : Z := Z.of_nat (String.length s).

(** Go's [>] on strings: lexicographic order of the bytes. *)
Definition string_gtb (a b : string) : bool :=
  match String.compare a b with
  | Gt => true
  | _ => false
  end.

(** [strings.ContainsRune(set, r)] for a byte [r]. *)
Fixpoint ContainsRune (set : string) (r : ascii) : bool :=
  match set with
  | EmptyString => false
  | String c set' => Ascii.eqb c r || ContainsRune set' r
  end.

(** [containsOnly(s, set)]: no position of [s] holds a rune outside [set].
    Both sets used by the package are ASCII, and every byte of a multi-byte or
    invalid UTF-8 sequence is at least [0x80], so the test on runes is the
    test on bytes. *)
Fixpoint containsOnly (s set : string) : bool :=
  match s with
  | EmptyString => true
  | String c s' => ContainsRune set c && containsOnly s' set
  end.

(** [hasLeadingZeroes(s)] *)
Definition hasLeadingZeroes (s : string) : bool :=
  (len s >? 1) &&
  match s with
  | String c _ => Ascii.eqb c "0"
  | EmptyString => false
  end.

(** [strings.TrimLeft(s, "0")] *)
Fixpoint TrimLeft0 (s : string) : string :=
  match s with
  | String c s' => if Ascii.eqb c "0" then TrimLeft0 s' else s
  | EmptyString => EmptyString
  end.

(** [strings.Split(s, sep)] for a one-byte separator. *)
Fixpoint Split (s : string) (sep : ascii) : list string :=
  match s with
  | EmptyString => [EmptyString]
  | String c s' =>
      if Ascii.eqb c sep then EmptyString :: Split s' sep
      else match Split s' sep with
           | h :: t => String c h :: t
           | [] => [String c EmptyString]
           end
  end.

(** The value of a string of decimal digits, [None] when the string is empty
    or holds another byte. *)
Definition decimal_value (s : string) : option Z :=
  match NilZero.uint_of_string s with
  | Some d => Some (Z.of_N (N.of_uint d))
  | None => None
  end.

(** [strconv.ParseUint(s, 10, 64)] *)
Definition ParseUint (s : string) : result Z :=
  match decimal_value s with
  | None => Err (ErrSyntax s)
  | Some n => if n <? two64 then Ok n else Err (ErrRange s)
  end.

(** [strconv.ParseInt(s, 10, 64)]: an optional sign, then the digits. *)
Definition ParseInt (s : string) : result Z :=
  match s with
  | EmptyString => Err (ErrSyntax s)
  | String c s' =>
      let neg := Ascii.eqb c "-" in
      let digits := if Ascii.eqb c "+" || neg then s' else s in
      match decimal_value digits with
      | None => Err (ErrSyntax s)
      | Some un =>
          if negb neg && (un >=? two63) then Err (ErrRange s)
          else if neg && (un >? two63) then Err (ErrRange s)
          else Ok (if neg then - un else un)
      end
  end.

(** [strconv.FormatUint(n, 10)], also what [strconv.AppendUint] appends. *)
Definition FormatUint (n : Z) : string :=
  NilZero.string_of_uint (N.to_uint (Z.to_N n)).

(** [strconv.AppendInt(b, n, 10)] appends this. *)
Definition FormatInt (n : Z) : string :=
  if n <? 0 then String "-" (FormatUint (- n)) else FormatUint n.

(** ** Regular expressions

    The two patterns of the package use literals, character classes,
    concatenation, alternation, [*], [+], [?], named groups and the anchors
    [^] and [$].  [r+] is [Seq r (Star r)] and [r?] is [Alt r Eps]: both
    quantifiers are greedy, so the repetition (for [?], the presence) is
    tried first.

    Go decodes the text into runes before matching.  Every literal and class
    of the two patterns is ASCII and both patterns are anchored at the two
    ends of the text, so a text with a byte outside ASCII matches neither,
    on runes as on bytes, and on ASCII texts runes are bytes. *)

(** The named capture groups. *)
Inductive group : Type :=
| major | minor | patch | revision | prerelease | buildmetadata.

Inductive regex : Type :=
| Eps                                   (* the empty pattern *)
| Bot                                   (* ^ : beginning of text *)
| Eot                                   (* $ : end of text *)
| Chr (c : ascii)                       (* a literal byte *)
| Class (ranges : list (ascii * ascii)) (* [lo-hi...] *)
| Seq (r1 r2 : regex)
| Alt (r1 r2 : regex)
| Star (r : regex)
| Group (g : group) (r : regex).        (* (?P<g>r) *)

Definition Plus (r : regex) : regex := Seq r (Star r).
Definition Opt (r : regex) : regex := Alt r Eps.

Declare Scope regex_scope.
Delimit Scope regex_scope with regex.
Bind Scope regex_scope with regex.
Infix "+>" := Seq (at level 61, right associativity) : regex_scope.
Infix "</>" := Alt (at level 62, right associativity) : regex_scope.

(** Membership of a byte in a class. *)
Definition in_range (c : ascii) (r : ascii * ascii) : bool :=
  (N_of_ascii (fst r) <=? N_of_ascii c)%N && (N_of_ascii c <=? N_of_ascii (snd r))%N.

Definition in_class (ranges : list (ascii * ascii)) (c : ascii) : bool :=
  existsb (in_range c) ranges.

(** The strings that [FindStringSubmatch] returns for the named groups; a
    group that did not take part in the match has the empty string. *)
Record parts : Type := mkParts {
  part_major : string;
  part_minor : string;
  part_patch : string;
  part_revision : string;
  part_prerelease : string;
  part_buildmetadata : string
}.

Definition no_parts : parts := mkParts "" "" "" "" "" "".

Definition set_part (g : group) (s : string) (p : parts) : parts :=
  match g with
  | major => mkParts s (part_minor p) (part_patch p) (part_revision p)
               (part_prerelease p) (part_buildmetadata p)
  | minor => mkParts (part_major p) s (part_patch p) (part_revision p)
               (part_prerelease p) (part_buildmetadata p)
  | patch => mkParts (part_major p) (part_minor p) s (part_revision p)
               (part_prerelease p) (part_buildmetadata p)
  | revision => mkParts (part_major p) (part_minor p) (part_patch p) s
               (part_prerelease p) (part_buildmetadata p)
  | prerelease => mkParts (part_major p) (part_minor p) (part_patch p)
               (part_revision p) s (part_buildmetadata p)
  | buildmetadata => mkParts (part_major p) (part_minor p) (part_patch p)
               (part_revision p) (part_prerelease p) s
  end.

(** [parts[re.SubexpIndex(name)]] *)
Definition get_part (g : group) (p : parts) : string :=
  match g with
  | major => part_major p
  | minor => part_minor p
  | patch => part_patch p
  | revision => part_revision p
  | prerelease => part_prerelease p
  | buildmetadata => part_buildmetadata p
  end.

(** What remains to be matched: the position reached, the rest of the text
    and the groups set so far. *)
Definition cont : Type := nat -> string -> parts -> option parts.

(** The iterations of a star whose body is matched by [body], over at most
    [n] further iterations: one more iteration is tried first, and it has
    to consume input; the continuation [k] is tried when it fails. *)
Fixpoint iter_star (body : cont -> cont) (k : cont) (n : nat)
  (pos : nat) (s : string) (caps : parts) {struct n} : option parts :=
  match n with
  | O => k pos s caps
  | S n' =>
      match body
              (fun pos' s' caps' =>
                 if Nat.ltb pos pos' then iter_star body k n' pos' s' caps'
                 else None)
              pos s caps with
      | Some res => Some res
      | None => k pos s caps
      end
  end.

(** The backtracking matcher.  [exec r k pos s caps] matches [r] at the front
    of [s], which starts at offset [pos] of the text, and hands what is left
    to [k]; of the ways to match it takes the first that makes [k] succeed,
    alternatives left to right and repetitions longest first.  An iteration
    of a star consumes input, so a star over a text of [n] bytes iterates at
    most [n] times. *)
Fixpoint exec (r : regex) (k : cont) (pos : nat) (s : string) (caps : parts)
  {struct r} : option parts :=
  match r with
  | Eps => k pos s caps
  | Bot => if Nat.eqb pos 0 then k pos s caps else None
  | Eot => match s with
           | EmptyString => k pos s caps
           | String _ _ => None
           end
  | Chr c => match s with
             | String a s' => if Ascii.eqb a c then k (S pos) s' caps else None
             | EmptyString => None
             end
  | Class ranges =>
      match s with
      | String a s' => if in_class ranges a then k (S pos) s' caps else None
      | EmptyString => None
      end
  | Seq r1 r2 => exec r1 (exec r2 k) pos s caps
  | Alt r1 r2 =>
      match exec r1 k pos s caps with
      | Some res => Some res
      | None => exec r2 k pos s caps
      end
  | Star r1 => iter_star (exec r1) k (String.length s) pos s caps
  | Group g r1 =>
      exec r1
        (fun pos' s' caps' =>
           k pos' s' (set_part g (String.substring 0 (pos' - pos) s) caps'))
        pos s caps
  end.

(** The match is found: report the groups. *)
Definition accept : cont := fun _ _ caps => Some caps.

(** [re.FindStringSubmatch(s)]: the leftmost match, trying every start
    offset in turn. *)
Fixpoint find_from (re : regex) (pos : nat) (s : string) : option parts :=
  match exec re accept pos s no_parts with
  | Some res => Some res
  | None =>
      match s with
      | EmptyString => None
      | String _ s' => find_from re (S pos) s'
      end
  end.

Definition FindStringSubmatch (re : regex) (s : string) : option parts :=
  find_from re 0 s.

(** [re.MatchString(s)] *)
Definition MatchString (re : regex) (s : string) : bool :=
  match FindStringSubmatch re s with
  | Some _ => true
  | None => false
  end.

(** *** The character classes of the patterns *)

Definition digit : regex := Class [("0", "9")]%char.            (* \d *)
Definition nonzero : regex := Class [("1", "9")]%char.          (* [1-9] *)
Definition letter : regex :=                                    (* [a-zA-Z-] *)
  Class [("a", "z"); ("A", "Z"); ("-", "-")]%char.
Definition alnum : regex :=                                     (* [0-9a-zA-Z-] *)
  Class [("0", "9"); ("a", "z"); ("A", "Z"); ("-", "-")]%char.
(** [\s] is [[\t\n\f\r ]]. *)
Definition space : regex :=
  Class [("009", "009"); ("010", "010"); ("012", "012"); ("013", "013");
         (" ", " ")]%char.

(** *** [kongVersionRegexFormat] *)

(** [0|[1-9]\d*] *)
Definition numeric : regex := (Chr "0" </> nonzero +> Star digit)%regex.

(** [0|[1-9]\d*|\d*[a-zA-Z-][0-9a-zA-Z-]*] *)
Definition identifier : regex :=
  (Chr "0" </> (nonzero +> Star digit) </> (Star digit +> letter +> Star alnum))%regex.

(** [[0-9a-zA-Z-]+(?:\.[0-9a-zA-Z-]+)*] *)
Definition build_ids : regex :=
  (Plus alnum +> Star (Chr "." +> Plus alnum))%regex.

Definition kongVersionRegexFormat : regex :=
  (Bot +> Group major numeric +> Chr "." +>
   Group minor numeric +> Chr "." +>
   Group patch numeric +>
   Opt (Chr "." +> Group revision numeric) +>
   Opt (Chr "-" +> Group prerelease (identifier +> Star (Chr "." +> identifier))) +>
   Opt (Chr "+" +> Group buildmetadata build_ids) +>
   Eot)%regex.

(** *** [kongTolerantVersionRegexFormat] *)

(** [\d+|\d*[a-zA-Z-][0-9a-zA-Z-]*] *)
Definition tolerant_identifier : regex :=
  (Plus digit </> (Star digit +> letter +> Star alnum))%regex.

Definition kongTolerantVersionRegexFormat : regex :=
  (Bot +> Opt (Chr "v" </> Star space) +>
   Opt (Group major (Plus digit)) +>
   Opt (Chr ".") +> Opt (Group minor (Plus digit)) +>
   Opt (Chr ".") +> Opt (Group patch (Plus digit)) +>
   Opt (Chr "." +> Group revision (Plus digit)) +>
   Opt (Chr "-" +>
        Group prerelease
          (tolerant_identifier +> Star (Chr "." +> tolerant_identifier))) +>
   Opt (Chr "+" +> Group buildmetadata build_ids) +>
   Star space +> Eot)%regex.

Definition KongVersionRegex : regex := kongVersionRegexFormat.
Definition KongTolerantVersionRegex : regex := kongTolerantVersionRegexFormat.

(** ** Pre-release identifiers *)

(** [func NewPRVersion(s string) (PRVersion, error)] *)
Definition NewPRVersion (s : string) : result PRVersion :=
  if len s =? 0 then Err ErrPrereleaseEmpty
  else if containsOnly s numbers then
    if hasLeadingZeroes s then Err (ErrLeadingZeroes s)
    else
      num <- ParseUint s ;;
      Ok (mkPRVersion "" num true)
  else if containsOnly s alphanum then
    Ok (mkPRVersion s 0 false)
  else Err (ErrPrereleaseInvalidChars s).

(** [func (v PRVersion) IsNumeric() bool] *)
Definition PRVersion_IsNumeric (v : PRVersion) : bool := IsNum v.

(** [func (v PRVersion) Compare(o PRVersion) int] *)
Definition PRVersion_Compare (v o : PRVersion) : Z :=
  if IsNum v && negb (IsNum o) then -1
  else if negb (IsNum v) && IsNum o then 1
  else if IsNum v && IsNum o then
    if VersionNum v =? VersionNum o then 0
    else if VersionNum v >? VersionNum o then 1
    else -1
  else (* both are Alphas *)
    if (VersionStr v =? VersionStr o)%string then 0
    else if string_gtb (VersionStr v) (VersionStr o) then 1
    else -1.

(** [func (v PRVersion) String() string] *)
Definition PRVersion_String (v : PRVersion) : string :=
  if IsNum v then FormatUint (VersionNum v) else VersionStr v.

(** ** Versions *)

(** The loops [for _, pre := range v.Pre[1:]] and
    [for _, build := range v.Build[1:]] of [String], appending to [b]. *)
Fixpoint append_dotted (b : string) (l : list string) : string :=
  match l with
  | [] => b
  | x :: l' => append_dotted (b ++ "." ++ x) l'
  end.

(** [func (v Version) FinalizeVersion() string] *)
Definition Version_FinalizeVersion (v : Version) : string :=
  let b := FormatUint (Major v) in
  let b := b ++ "." in
  let b := b ++ FormatUint (Minor v) in
  let b := b ++ "." in
  let b := b ++ FormatUint (Patch v) in
  if Revision v >=? 0 then (b ++ ".") ++ FormatInt (Revision v) else b.

(** [func (v Version) String() string] *)
Definition Version_String (v : Version) : string :=
  let b := FormatUint (Major v) in
  let b := b ++ "." in
  let b := b ++ FormatUint (Minor v) in
  let b := b ++ "." in
  let b := b ++ FormatUint (Patch v) in
  let b := if Revision v >=? 0 then (b ++ ".") ++ FormatInt (Revision v) else b in
  let b := match Pre v with
           | [] => b
           | pre0 :: rest =>
               append_dotted ((b ++ "-") ++ PRVersion_String pre0)
                 (map PRVersion_String rest)
           end in
  let b := match Build v with
           | [] => b
           | build0 :: rest => append_dotted ((b ++ "+") ++ build0) rest
           end in
  b.

(** The loop of [Compare] over the common indices of the two pre-release
    lists, entered at index [i] with the elements from [i] on: [inl c] when
    the loop returns [c], [inr i] when it ends with that index. *)
Fixpoint compare_loop (vpre opre : list PRVersion) (i : nat) : Z + nat :=
  match vpre, opre with
  | x :: vpre', y :: opre' =>
      let comp := PRVersion_Compare x y in
      if comp =? 0 then compare_loop vpre' opre' (S i)
      else if comp =? 1 then inl 1
      else inl (-1)
  | _, _ => inr i
  end.

(** [func (v Version) Compare(o Version) int] *)
Definition Version_Compare (v o : Version) : Z :=
  if negb (Major v =? Major o) then
    if Major v >? Major o then 1 else -1
  else if negb (Minor v =? Minor o) then
    if Minor v >? Minor o then 1 else -1
  else if negb (Patch v =? Patch o) then
    if Patch v >? Patch o then 1 else -1
  else if negb (Revision v =? Revision o) && negb (Revision v =? -1)
          && negb (Revision o =? -1) then
    if Revision v >? Revision o then 1 else -1
  else
    let lv := List.length (Pre v) in
    let lo := List.length (Pre o) in
    if Nat.eqb lv 0 && Nat.eqb lo 0 then 0
    else if Nat.eqb lv 0 && Nat.ltb 0 lo then 1
    else if Nat.ltb 0 lv && Nat.eqb lo 0 then -1
    else
      match compare_loop (Pre v) (Pre o) 0 with
      | inl c => c
      | inr i =>
          if Nat.eqb i lv && Nat.eqb i lo then 0
          else if Nat.eqb i lv && Nat.ltb i lo then -1
          else 1
      end.

Definition Version_Equals (v o : Version) : bool := Version_Compare v o =? 0.
Definition Version_EQ (v o : Version) : bool := Version_Compare v o =? 0.
Definition Version_NE (v o : Version) : bool := negb (Version_Compare v o =? 0).
Definition Version_GT (v o : Version) : bool := Version_Compare v o =? 1.
Definition Version_GTE (v o : Version) : bool := Version_Compare v o >=? 0.
Definition Version_GE (v o : Version) : bool := Version_Compare v o >=? 0.
Definition Version_LT (v o : Version) : bool := Version_Compare v o =? -1.
Definition Version_LTE (v o : Version) : bool := Version_Compare v o <=? 0.
Definition Version_LE (v o : Version) : bool := Version_Compare v o <=? 0.

(** The mutators have a pointer receiver: they return the updated receiver
    and their [error], which is always [nil]. *)

(** [func (v *Version) IncrementRevision() error] *)
Definition Version_IncrementRevision (v : Version) : Version * option error :=
  let v := if Revision v >=? 0
           then mkVersion (Major v) (Minor v) (Patch v)
                  (wrap_int64 (Revision v + 1)) (Pre v) (Build v)
           else v in
  (v, None).

(** [func (v *Version) IncrementPatch() error] *)
Definition Version_IncrementPatch (v : Version) : Version * option error :=
  let v := mkVersion (Major v) (Minor v) (wrap64 (Patch v + 1)) (Revision v)
             (Pre v) (Build v) in
  let v := if Revision v >=? 0
           then mkVersion (Major v) (Minor v) (Patch v) 0 (Pre v) (Build v)
           else v in
  (v, None).

(** [func (v *Version) IncrementMinor() error] *)
Definition Version_IncrementMinor (v : Version) : Version * option error :=
  let v := mkVersion (Major v) (wrap64 (Minor v + 1)) (Patch v) (Revision v)
             (Pre v) (Build v) in
  let v := mkVersion (Major v) (Minor v) 0 (Revision v) (Pre v) (Build v) in
  let v := if Revision v >=? 0
           then mkVersion (Major v) (Minor v) (Patch v) 0 (Pre v) (Build v)
           else v in
  (v, None).

(** [func (v *Version) IncrementMajor() error] *)
Definition Version_IncrementMajor (v : Version) : Version * option error :=
  let v := mkVersion (wrap64 (Major v + 1)) (Minor v) (Patch v) (Revision v)
             (Pre v) (Build v) in
  let v := mkVersion (Major v) 0 (Patch v) (Revision v) (Pre v) (Build v) in
  let v := mkVersion (Major v) (Minor v) 0 (Revision v) (Pre v) (Build v) in
  let v := if Revision v >=? 0
           then mkVersion (Major v) (Minor v) (Patch v) 0 (Pre v) (Build v)
           else v in
  (v, None).

(** The first loop of [Validate]. *)
Fixpoint validate_pre (l : list PRVersion) : option error :=
  match l with
  | [] => None
  | pre :: l' =>
      if negb (IsNum pre) then
        if len (VersionStr pre) =? 0
        then Some (ErrPrereleaseCanNotBeEmpty (VersionStr pre))
        else if negb (containsOnly (VersionStr pre) alphanum)
        then Some (ErrPrereleaseInvalidChars (VersionStr pre))
        else validate_pre l'
      else validate_pre l'
  end.

(** The second loop of [Validate]. *)
Fixpoint validate_build (l : list string) : option error :=
  match l with
  | [] => None
  | build :: l' =>
      if len build =? 0 then Some (ErrBuildCanNotBeEmpty build)
      else if negb (containsOnly build alphanum)
      then Some (ErrBuildInvalidChars build)
      else validate_build l'
  end.

(** [func (v Version) Validate() error] *)
Definition Version_Validate (v : Version) : option error :=
  match validate_pre (Pre v) with
  | Some e => Some e
  | None => validate_build (Build v)
  end.

(** ** Parsing *)

(** The loop of [Parse] over the pre-release segments; [pre] is [v.Pre]. *)
Fixpoint parse_prerelease (prerelease : list string) (pre : list PRVersion)
  : result (list PRVersion) :=
  match prerelease with
  | [] => Ok pre
  | prstr :: rest =>
      parsedPR <- NewPRVersion prstr ;;
      parse_prerelease rest (pre ++ [parsedPR])
  end.

(** The loop of [Parse] over the build segments; [acc] is [v.Build]. *)
Fixpoint parse_build (build : list string) (acc : list string)
  : result (list string) :=
  match build with
  | [] => Ok acc
  | str :: rest =>
      if len str =? 0 then Err ErrBuildMetaDataEmpty
      else if negb (containsOnly str alphanum) then Err (ErrBuildInvalidChars str)
      else parse_build rest (acc ++ [str])
  end.

(** [func Parse(s string) (Version, error)].  [MatchString] holds exactly when
    [FindStringSubmatch] returns the groups, so the two calls are one
    [match]. *)
Definition Parse (s : string) : result Version :=
  if len s =? 0 then Err ErrVersionStringEmpty
  else
    match FindStringSubmatch KongVersionRegex s with
    | None => Err (ErrInvalidVersion s)
    | Some parts =>
        major <- ParseUint (get_part major parts) ;;
        minor <- ParseUint (get_part minor parts) ;;
        patch <- ParseUint (get_part patch parts) ;;
        let revisionStr := get_part revision parts in
        let prereleaseStr := get_part prerelease parts in
        let buildStr := get_part buildmetadata parts in
        revision <- (if len revisionStr >? 0 then ParseInt revisionStr
                     else Ok (-1)) ;;
        let build := if len buildStr >? 0 then Split buildStr "." else [] in
        let prerelease :=
          if len prereleaseStr >? 0 then Split prereleaseStr "." else [] in
        pre <- parse_prerelease prerelease [] ;;
        build <- parse_build build [] ;;
        Ok (mkVersion major minor patch revision pre build)
    end.

(** [func Make(s string) (Version, error)] *)
Definition Make (s : string) : result Version := Parse s.

(** The normalisation that [ParseTolerant] applies to each numeric group:
    [if len(x) > 1 { x = strings.TrimLeft(x, "0"); if len(x) == 0 { x = "0" } }] *)
Definition strip_zeroes (x : string) : string :=
  if len x >? 1 then
    let x := TrimLeft0 x in
    if len x =? 0 then "0" else x
  else x.

(** [if len(x) == 0 { x = "0" }] *)
Definition fill_zero (x : string) : string :=
  if len x =? 0 then "0" else x.

(** The end of [ParseTolerant]: "Generate version to properly parse". *)
Definition generate_version
  (majorStr minorStr patchStr revisionStr prereleaseStr buildStr : string)
  : string :=
  let s := majorStr ++ "." ++ minorStr ++ "." ++ patchStr in
  let s := if len revisionStr >? 0 then s ++ "." ++ revisionStr else s in
  let s := if len prereleaseStr >? 0 then s ++ "-" ++ prereleaseStr else s in
  let s := if len buildStr >? 0 then s ++ "+" ++ buildStr else s in
  s.

(** [func ParseTolerant(s string) (Version, error)] *)
Definition ParseTolerant (s : string) : result Version :=
  match FindStringSubmatch KongTolerantVersionRegex s with
  | None => Err (ErrInvalidTolerantVersion s)
  | Some parts =>
      let majorStr := strip_zeroes (get_part major parts) in
      let minorStr := strip_zeroes (get_part minor parts) in
      let patchStr := strip_zeroes (get_part patch parts) in
      let revisionStr := strip_zeroes (get_part revision parts) in
      let prereleaseStr := get_part prerelease parts in
      let buildStr := get_part buildmetadata parts in
      let patchLen := len patchStr in
      let minorLen := len minorStr in
      let majorLen := len majorStr in
      if (patchLen =? 0) || (minorLen =? 0) || (majorLen =? 0) then
        if (len prereleaseStr >? 0) || (len buildStr >? 0)
        then Err ErrShortVersion
        else
          let patchStr := fill_zero patchStr in
          let minorStr := fill_zero minorStr in
          let majorStr := fill_zero majorStr in
          Parse (generate_version majorStr minorStr patchStr revisionStr
                   prereleaseStr buildStr)
      else
        Parse (generate_version majorStr minorStr patchStr revisionStr
                 prereleaseStr buildStr)
  end.

(** [func NewBuildVersion(s string) (string, error)] *)
Definition NewBuildVersion (s : string) : result string :=
  if len s =? 0 then Err ErrBuildversionEmpty
  else if negb (containsOnly s alphanum) then Err (ErrBuildInvalidChars s)
  else Ok s.

(** [func FinalizeVersion(s string) (string, error)]: the parsed version
    with [Pre] and [Build] set to [nil], as a string. *)
Definition FinalizeVersion (s : string) : result string :=
  v <- Parse s ;;
  let v := mkVersion (Major v) (Minor v) (Patch v) (Revision v) [] (Build v) in
  let v := mkVersion (Major v) (Minor v) (Patch v) (Revision v) (Pre v) [] in
  let finalVer := Version_String v in
  Ok finalVer.

(** ** Specification-level notions

    The definitions below are not taken from the code: they say in the
    words of the specification what the code is compared with. *)

(** A version is in 4-component mode when its revision is present. *)
Definition revision_present (v : Version) : Prop := Revision v >= 0.
(** It is in 3-component mode when the revision is the sentinel [-1]. *)
Definition revision_absent (v : Version) : Prop := Revision v = -1.

(** The three results of a comparison as the integers the package returns. *)
Definition int_of_comparison (c : comparison) : Z :=
  match c with
  | Lt => -1
  | Eq => 0
  | Gt => 1
  end.

(** Specification of the identifier comparator (section 4.5): a numeric
    identifier is below an alphanumeric one, two numeric ones compare by
    value, two alphanumeric ones by the lexicographic order of their bytes. *)
Definition identifier_order (x y : PRVersion) : comparison :=
  match IsNum x, IsNum y with
  | true, false => Lt
  | false, true => Gt
  | true, true => Z.compare (VersionNum x) (VersionNum y)
  | false, false => String.compare (VersionStr x) (VersionStr y)
  end.

(** Specification of step 4 of the comparator: element-wise comparison in
    list order, the first difference decides, a strict prefix is less. *)
Fixpoint lex_compare (xs ys : list PRVersion) : Z :=
  match xs, ys with
  | [], [] => 0
  | [], _ :: _ => -1
  | _ :: _, [] => 1
  | x :: xs', y :: ys' =>
      match identifier_order x y with
      | Eq => lex_compare xs' ys'
      | Lt => -1
      | Gt => 1
      end
  end.

(** Specification of step 3 and 4 together: a release is above every
    pre-release of it. *)
Definition pre_order (xs ys : list PRVersion) : Z :=
  match xs, ys with
  | [], [] => 0
  | [], _ :: _ => 1
  | _ :: _, [] => -1
  | _, _ => lex_compare xs ys
  end.

(** Comparison of two integers with the result as an [int]. *)
Definition zcmp (x y : Z) : Z := int_of_comparison (Z.compare x y).

(** The revision rule (step 2): it decides only between two present
    revisions that differ. *)
Definition revision_order (x y : Z) : Z :=
  if (x =? -1) || (y =? -1) then 0 else zcmp x y.

(** The first comparison that is not a tie decides. *)
Definition lexc (c1 c2 : Z) : Z := if c1 =? 0 then c2 else c1.

(** A three-valued comparison that is a total preorder on the values that
    satisfy [D]. *)
Record preorder_cmp {A : Type} (D : A -> Prop) (cmp : A -> A -> Z) : Prop := {
  cmp_range : forall x y, cmp x y = -1 \/ cmp x y = 0 \/ cmp x y = 1;
  cmp_refl : forall x, cmp x x = 0;
  cmp_antisym : forall x y, cmp y x = - cmp x y;
  cmp_eq_l : forall x y z, D x -> D y -> D z ->
               cmp x y = 0 -> cmp x z = cmp y z;
  cmp_lt_trans : forall x y z, D x -> D y -> D z ->
               cmp x y = -1 -> cmp y z = -1 -> cmp x z = -1
}.

(** Every field but [Build] agrees. *)
Definition same_but_build (a b : Version) : Prop :=
  Major a = Major b /\ Minor a = Minor b /\ Patch a = Patch b /\
  Revision a = Revision b /\ Pre a = Pre b.

(** A version that [Parse] returns for some text. *)
Definition parsed (v : Version) : Prop := exists s, Parse s = Ok v.


(** The three versions are all in 4-component mode or all in 3-component
    mode. *)
Definition same_mode (a b c : Version) : Prop :=
  (revision_present a /\ revision_present b /\ revision_present c) \/
  (revision_absent a /\ revision_absent b /\ revision_absent c).

(** Two identifiers that the comparator does not tell apart. *)
Definition identifier_tie (x y : PRVersion) : Prop := PRVersion_Compare x y = 0.

(** What the patterns mean.  [Lang r pos d rest c c'] holds when [r] matches
    the text [d] at offset [pos], with [rest] following it, and the match
    changes the groups from [c] to [c']. *)
Inductive Lang : regex -> nat -> string -> string -> parts -> parts -> Prop :=
| Lang_Eps pos rest c : Lang Eps pos "" rest c c
| Lang_Bot rest c : Lang Bot 0 "" rest c c
| Lang_Eot pos c : Lang Eot pos "" "" c c
| Lang_Chr pos a rest c : Lang (Chr a) pos (String a "") rest c c
| Lang_Class pos ranges a rest c :
    in_class ranges a = true ->
    Lang (Class ranges) pos (String a "") rest c c
| Lang_Seq r1 r2 pos d1 d2 rest c c1 c2 :
    Lang r1 pos d1 (d2 ++ rest) c c1 ->
    Lang r2 (pos + String.length d1) d2 rest c1 c2 ->
    Lang (Seq r1 r2) pos (d1 ++ d2) rest c c2
| Lang_Alt_l r1 r2 pos d rest c c1 :
    Lang r1 pos d rest c c1 -> Lang (Alt r1 r2) pos d rest c c1
| Lang_Alt_r r1 r2 pos d rest c c2 :
    Lang r2 pos d rest c c2 -> Lang (Alt r1 r2) pos d rest c c2
| Lang_Star_nil r pos rest c : Lang (Star r) pos "" rest c c
| Lang_Star_cons r pos d1 d2 rest c c1 c2 :
    Lang r pos d1 (d2 ++ rest) c c1 ->
    Lang (Star r) (pos + String.length d1) d2 rest c1 c2 ->
    Lang (Star r) pos (d1 ++ d2) rest c c2
| Lang_Group g r pos d rest c c1 :
    Lang r pos d rest c c1 ->
    Lang (Group g r) pos d rest c (set_part g d c1).

(** Every byte of the string is in the class. *)
Fixpoint all_in (ranges : list (ascii * ascii)) (s : string) : bool :=
  match s with
  | EmptyString => true
  | String a s' => in_class ranges a && all_in ranges s'
  end.

Definition digits : list (ascii * ascii) := [("0", "9")]%char.

(** A numeral as the strict grammar writes it: "0", or digits that do not
    start with "0". *)
Definition canonical (s : string) : Prop :=
  s = "0" \/
  exists a s', s = String a s' /\ in_class [("1", "9")]%char a = true /\
               all_in digits s' = true.

(** [sep ++ x] when the optional group holding [x] took part in the match. *)
Definition opt_part (sep x : string) : string :=
  match x with
  | EmptyString => ""
  | _ => sep ++ x
  end.

(** The text that the loops of [String] append for the elements after the
    first: each one preceded by a dot. *)
Fixpoint dotted (l : list string) : string :=
  match l with
  | [] => ""
  | x :: l' => "." ++ x ++ dotted l'
  end.

(** The pattern holds no group, so a match of it leaves the groups as they
    are. *)
Fixpoint groupless (r : regex) : bool :=
  match r with
  | Group _ _ => false
  | Seq r1 r2 | Alt r1 r2 => groupless r1 && groupless r2
  | Star r1 => groupless r1
  | _ => true
  end.

(** Every match of the pattern takes at least one byte. *)
Fixpoint consuming (r : regex) : bool :=
  match r with
  | Chr _ | Class _ => true
  | Seq r1 r2 => consuming r1 || consuming r2
  | Alt r1 r2 => consuming r1 && consuming r2
  | Group _ r1 => consuming r1
  | _ => false
  end.

(** A successful run of the matcher [body] splits the text into what the
    pattern [r] matched and what the continuation received. *)
Definition sound_for (body : cont -> cont) (r : regex) : Prop :=
  forall k pos s caps res,
    body k pos s caps = Some res ->
    exists d rest c',
      s = d ++ rest /\ Lang r pos d rest caps c' /\
      k (pos + String.length d)%nat rest c' = Some res.

(** A pre-release or build segment as the grammar wants it: not empty and
    made of bytes of [0-9A-Za-z-]. *)
Definition valid_segment (s : string) : Prop :=
  s <> "" /\ containsOnly s alphanum = true.

(** The text does not start with a byte of the class. *)
Definition not_first (ranges : list (ascii * ascii)) (s : string) : Prop :=
  match s with
  | EmptyString => True
  | String a _ => in_class ranges a = false
  end.

(** Equality test on classes. *)
Fixpoint ranges_eqb (r1 r2 : list (ascii * ascii)) : bool :=
  match r1, r2 with
  | [], [] => true
  | (a1, b1) :: r1', (a2, b2) :: r2' =>
      Ascii.eqb a1 a2 && Ascii.eqb b1 b2 && ranges_eqb r1' r2'
  | _, _ => false
  end.

(** The pattern is a non-empty run of digits, written [\d+]. *)
Definition is_digit_run (r : regex) : bool :=
  match r with
  | Seq (Class c1) (Star (Class c2)) => ranges_eqb c1 digits && ranges_eqb c2 digits
  | _ => false
  end.

(** Every group for a numeric field holds [\d+], and the other groups hold
    no group. *)
Fixpoint digit_groups (r : regex) : bool :=
  match r with
  | Group g r1 =>
      match g with
      | major | minor | patch | revision => is_digit_run r1
      | prerelease | buildmetadata => groupless r1
      end
  | Seq r1 r2 | Alt r1 r2 => digit_groups r1 && digit_groups r2
  | Star r1 => digit_groups r1
  | _ => true
  end.

(** The numeric groups hold digits only (or nothing). *)
Definition digit_parts (p : parts) : Prop :=
  all_in digits (part_major p) = true /\
  all_in digits (part_minor p) = true /\
  all_in digits (part_patch p) = true /\
  all_in digits (part_revision p) = true.

(** The value of a numeric group, 0 when the group is absent. *)
Definition numeric_field (x : string) : Z :=
  match decimal_value x with
  | Some n => n
  | None => 0
  end.

(** The revision that a revision group stands for. *)
Definition revision_field (x : string) : Z :=
  match x with
  | EmptyString => -1
  | _ => numeric_field x
  end.

(** The numeric groups fit the integer types of the fields. *)
Definition fields_fit (p : parts) : Prop :=
  numeric_field (part_major p) < two64 /\
  numeric_field (part_minor p) < two64 /\
  numeric_field (part_patch p) < two64 /\
  revision_field (part_revision p) < two63.

(** One of major, minor and patch is absent from the text. *)
Definition short_form (p : parts) : Prop :=
  part_major p = "" \/ part_minor p = "" \/ part_patch p = "".

(** A pre-release or build suffix is present in the text. *)
Definition has_suffix (p : parts) : Prop :=
  part_prerelease p <> "" \/ part_buildmetadata p <> "".

(** The strict-form text that [ParseTolerant] builds for a short form
    without suffix: leading zeroes stripped, absent fields filled with "0". *)
Definition short_form_text (p : parts) : string :=
  fill_zero (strip_zeroes (part_major p)) ++ "." ++
  fill_zero (strip_zeroes (part_minor p)) ++ "." ++
  fill_zero (strip_zeroes (part_patch p)) ++
  opt_part "." (strip_zeroes (part_revision p)).

Definition letters : list (ascii * ascii) :=
  [("a", "z"); ("A", "Z"); ("-", "-")]%char.
Definition alnums : list (ascii * ascii) :=
  [("0", "9"); ("a", "z"); ("A", "Z"); ("-", "-")]%char.
Definition spaces : list (ascii * ascii) :=
  [("009", "009"); ("010", "010"); ("012", "012"); ("013", "013");
   (" ", " ")]%char.

(** A pre-release identifier of the strict grammar: a numeral, or digits,
    then a letter or hyphen, then letters, digits and hyphens. *)
Definition strict_identifier (x : string) : Prop :=
  canonical x \/
  exists ds l t, x = ds ++ String l t /\ all_in digits ds = true /\
                 in_class letters l = true /\ all_in alnums t = true.

(** A build segment: a non-empty run of letters, digits and hyphens. *)
Definition build_segment (x : string) : Prop :=
  x <> "" /\ all_in alnums x = true.

(** A dot-separated list of segments that satisfy [P]. *)
Definition dot_list (P : string -> Prop) (x : string) : Prop :=
  exists id ids, P id /\ Forall P ids /\ x = id ++ dotted ids.

(** The text does not start with the byte. *)
Definition not_first_char (c : ascii) (s : string) : Prop :=
  match s with
  | EmptyString => True
  | String a _ => Ascii.eqb a c = false
  end.

(** The continuation rejects every text that starts with a byte of the
    class. *)
Definition fails_on_first (ranges : list (ascii * ascii)) (k : cont) : Prop :=
  forall pos a s caps, in_class ranges a = true -> k pos (String a s) caps = None.

(** What may follow the pre-release or the build list in a text that the
    tolerant pattern accepts: the end, whitespace, or a ["+"]. *)
Definition ends_list (s : string) : Prop :=
  not_first alnums s /\ not_first_char "." s.

(** The pattern [elem] takes a whole segment that satisfies [P] when what
    follows the segment cannot extend it and the continuation accepts. *)
Definition elem_complete (P : string -> Prop) (elem : regex) : Prop :=
  forall (k : cont) id rest pos caps res,
    P id -> not_first alnums rest -> fails_on_first alnums k ->
    k (pos + String.length id)%nat rest caps = Some res ->
    exec elem k pos (id ++ rest) caps = Some res.

(** Setting a group that may be absent. *)
Definition set_opt (g : group) (x : string) (c : parts) : parts :=
  match x with
  | EmptyString => c
  | _ => set_part g x c
  end.

(** The parts of the tolerant pattern, from its end. *)
Definition tolerant_end : regex := (Star space +> Eot)%regex.
Definition tolerant_build : regex :=
  (Opt (Chr "+" +> Group buildmetadata build_ids) +> tolerant_end)%regex.
Definition tolerant_pre : regex :=
  (Opt (Chr "-" +>
        Group prerelease
          (tolerant_identifier +> Star (Chr "." +> tolerant_identifier))) +>
   tolerant_build)%regex.
Definition tolerant_rev : regex :=
  (Opt (Chr "." +> Group revision (Plus digit)) +> tolerant_pre)%regex.
Definition tolerant_fields : regex :=
  (Opt (Group major (Plus digit)) +>
   Opt (Chr ".") +> Opt (Group minor (Plus digit)) +>
   Opt (Chr ".") +> Opt (Group patch (Plus digit)) +> tolerant_rev)%regex.

(** The text that the strict grammar writes for the parts. *)
Definition strict_text (p : parts) : string :=
  part_major p ++ "." ++ part_minor p ++ "." ++ part_patch p ++
  opt_part "." (part_revision p) ++ opt_part "-" (part_prerelease p) ++
  opt_part "+" (part_buildmetadata p).

(** The parts are those of a text of the strict grammar. *)
Definition strict_parts (p : parts) : Prop :=
  canonical (part_major p) /\ canonical (part_minor p) /\
  canonical (part_patch p) /\
  (part_revision p = "" \/ canonical (part_revision p)) /\
  (part_prerelease p = "" \/ dot_list strict_identifier (part_prerelease p)) /\
  (part_buildmetadata p = "" \/ dot_list build_segment (part_buildmetadata p)).

(** A pre-release identifier that [Validate] accepts. *)
Definition valid_identifier (p : PRVersion) : Prop :=
  IsNum p = true \/ valid_segment (VersionStr p).

(** The shape of the identifiers that [NewPRVersion] builds: a numeric one
    has no text and a value of a [uint64]; an alphanumeric one has the value
    0 and a valid text that is not made of digits only. *)
Definition built_identifier (p : PRVersion) : Prop :=
  (IsNum p = true /\ VersionStr p = "" /\ 0 <= VersionNum p < two64) \/
  (IsNum p = false /\ VersionNum p = 0 /\ valid_segment (VersionStr p) /\
   containsOnly (VersionStr p) numbers = false).

(** The fields of a version are within the integer types of the Go struct,
    with [-1] as the only negative revision. *)
Definition fields_in_range (v : Version) : Prop :=
  0 <= Major v < two64 /\ 0 <= Minor v < two64 /\ 0 <= Patch v < two64 /\
  (Revision v = -1 \/ 0 <= Revision v < two63).

(** The two versions agree on everything that [Compare] looks at: major,
    minor, patch, the pre-release list, and the revision unless one of the
    two has none. *)
Definition compare_equal (a b : Version) : Prop :=
  Major a = Major b /\ Minor a = Minor b /\ Patch a = Patch b /\
  (Revision a = Revision b \/ Revision a = -1 \/ Revision b = -1) /\
  Pre a = Pre b.

(** The version without its pre-release identifiers and build segments. *)
Definition release_of (v : Version) : Version :=
  mkVersion (Major v) (Minor v) (Patch v) (Revision v) [] [].

(** A numeric field as the tolerant grammar writes it: digits, at least
    one, leading zeroes allowed. *)
Definition digit_field (x : string) : Prop :=
  all_in digits x = true /\ x <> "".

(** The parts of a full-form text of the tolerant grammar: major, minor and
    patch present, an optional revision, and suffixes as in the strict
    grammar. *)
Definition padded_parts (p : parts) : Prop :=
  digit_field (part_major p) /\ digit_field (part_minor p) /\
  digit_field (part_patch p) /\
  (part_revision p = "" \/ digit_field (part_revision p)) /\
  (part_prerelease p = "" \/ dot_list strict_identifier (part_prerelease p)) /\
  (part_buildmetadata p = "" \/ dot_list build_segment (part_buildmetadata p)).

(** The parts with the leading zeroes of the numeric fields stripped. *)
Definition strip_parts (p : parts) : parts :=
  mkParts (strip_zeroes (part_major p)) (strip_zeroes (part_minor p))
    (strip_zeroes (part_patch p)) (strip_zeroes (part_revision p))
    (part_prerelease p) (part_buildmetadata p).

(** The parts of the strict pattern, from its end. *)
Definition strict_build : regex :=
  (Opt (Chr "+" +> Group buildmetadata build_ids) +> Eot)%regex.
Definition strict_pre : regex :=
  (Opt (Chr "-" +>
        Group prerelease (identifier +> Star (Chr "." +> identifier))) +>
   strict_build)%regex.
Definition strict_rev : regex :=
  (Opt (Chr "." +> Group revision numeric) +> strict_pre)%regex.

(** The segments joined by dots. *)
Definition joined (l : list string) : string :=
  match l with
  | [] => ""
  | x :: l' => x ++ dotted l'
  end.

(** The groups that the strict pattern finds in the string form of a
    version. *)
Definition version_parts (v : Version) : parts :=
  mkParts (FormatUint (Major v)) (FormatUint (Minor v)) (FormatUint (Patch v))
    (if Revision v >=? 0 then FormatInt (Revision v) else "")
    (joined (map PRVersion_String (Pre v))) (joined (Build v)).

(** A version as [Parse] builds them: the numbers within their types, the
    pre-release identifiers of the shape that [NewPRVersion] gives, the build
    segments non-empty and of bytes of [alphanum]. *)
Definition well_formed (v : Version) : Prop :=
  fields_in_range v /\ Forall built_identifier (Pre v) /\
  Forall valid_segment (Build v).

(** * Properties *)

(** ** Orders *)

Section PreorderCmp.
Context {A : Type} (D : A -> Prop).

Lemma preorder_cmp_eq_r (cmp : A -> A -> Z) :
  preorder_cmp D cmp ->
  forall x y z, D x -> D y -> D z -> cmp y z = 0 -> cmp x y = cmp x z.
Proof.
  intros H x y z Dx Dy Dz Hyz.
  assert (Hzy : cmp z y = 0) by (rewrite (cmp_antisym D cmp H y z); lia).
  pose proof (cmp_eq_l D cmp H z y x Dz Dy Dx Hzy) as E.
  rewrite (cmp_antisym D cmp H x z), (cmp_antisym D cmp H x y) in E. lia.
Qed.

Lemma preorder_cmp_le_trans (cmp : A -> A -> Z) :
  preorder_cmp D cmp ->
  forall x y z, D x -> D y -> D z ->
    cmp x y <= 0 -> cmp y z <= 0 -> cmp x z <= 0.
Proof.
  intros H x y z Dx Dy Dz Hxy Hyz.
  destruct (cmp_range D cmp H x y) as [E1 | [E1 | E1]]; try lia.
  - destruct (cmp_range D cmp H y z) as [E2 | [E2 | E2]]; try lia.
    + rewrite (cmp_lt_trans D cmp H x y z); auto; lia.
    + rewrite <- (preorder_cmp_eq_r cmp H x y z); auto; lia.
  - rewrite (cmp_eq_l D cmp H x y z); auto.
Qed.

Lemma preorder_cmp_eq_trans (cmp : A -> A -> Z) :
  preorder_cmp D cmp ->
  forall x y z, D x -> D y -> D z ->
    cmp x y = 0 -> cmp y z = 0 -> cmp x z = 0.
Proof.
  intros H x y z Dx Dy Dz Hxy Hyz.
  rewrite (cmp_eq_l D cmp H x y z); auto.
Qed.

Lemma lexc_preorder (c1 c2 : A -> A -> Z) :
  preorder_cmp D c1 -> preorder_cmp D c2 ->
  preorder_cmp D (fun x y => lexc (c1 x y) (c2 x y)).
Proof.
  intros H1 H2. unfold lexc. split.
  - intros x y. destruct (Z.eqb_spec (c1 x y) 0).
    + apply (cmp_range D c2 H2).
    + apply (cmp_range D c1 H1).
  - intros x. rewrite (cmp_refl D c1 H1). simpl. apply (cmp_refl D c2 H2).
  - intros x y. rewrite (cmp_antisym D c1 H1 x y), (cmp_antisym D c2 H2 x y).
    destruct (Z.eqb_spec (c1 x y) 0), (Z.eqb_spec (- c1 x y) 0); lia.
  - intros x y z Dx Dy Dz.
    destruct (Z.eqb_spec (c1 x y) 0) as [E | E]; intros E'.
    + rewrite (cmp_eq_l D c1 H1 x y z), (cmp_eq_l D c2 H2 x y z); auto.
    + contradiction.
  - intros x y z Dx Dy Dz.
    destruct (Z.eqb_spec (c1 x y) 0) as [E1 | E1];
      destruct (Z.eqb_spec (c1 y z) 0) as [E2 | E2]; intros Hxy Hyz.
    + rewrite (cmp_eq_l D c1 H1 x y z), E2; auto. simpl.
      apply (cmp_lt_trans D c2 H2 x y z); auto.
    + rewrite (cmp_eq_l D c1 H1 x y z), Hyz; auto.
    + rewrite <- (preorder_cmp_eq_r c1 H1 x y z), Hxy; auto.
    + rewrite (cmp_lt_trans D c1 H1 x y z); auto.
Qed.
End PreorderCmp.

Lemma pullback_preorder {A B : Type} (f : A -> B) (D : B -> Prop)
  (cmp : B -> B -> Z) :
  preorder_cmp D cmp ->
  preorder_cmp (fun x => D (f x)) (fun x y => cmp (f x) (f y)).
Proof.
  intros H. split; intros.
  - apply (cmp_range D cmp H).
  - apply (cmp_refl D cmp H).
  - apply (cmp_antisym D cmp H).
  - apply (cmp_eq_l D cmp H); auto.
  - apply (cmp_lt_trans D cmp H (f x) (f y) (f z)); auto.
Qed.

Lemma preorder_cmp_weaken {A : Type} (D D' : A -> Prop) (cmp : A -> A -> Z) :
  (forall x, D' x -> D x) -> preorder_cmp D cmp -> preorder_cmp D' cmp.
Proof.
  intros HD H. split; intros.
  - apply (cmp_range D cmp H).
  - apply (cmp_refl D cmp H).
  - apply (cmp_antisym D cmp H).
  - apply (cmp_eq_l D cmp H); auto.
  - apply (cmp_lt_trans D cmp H x y z); auto.
Qed.

Lemma preorder_cmp_ext {A : Type} (D : A -> Prop) (c1 c2 : A -> A -> Z) :
  (forall x y, c1 x y = c2 x y) -> preorder_cmp D c1 -> preorder_cmp D c2.
Proof.
  intros E H. split; intros; rewrite <- ?E.
  - apply (cmp_range D c1 H).
  - apply (cmp_refl D c1 H).
  - apply (cmp_antisym D c1 H).
  - apply (cmp_eq_l D c1 H); auto. rewrite E; auto.
  - apply (cmp_lt_trans D c1 H x y z); auto; rewrite E; auto.
Qed.

(** *** Integers and strings *)

Lemma zcmp_preorder : preorder_cmp (fun _ : Z => True) zcmp.
Proof.
  unfold zcmp. split.
  - intros x y. destruct (x ?= y); simpl; auto.
  - intros x. rewrite Z.compare_refl. reflexivity.
  - intros x y. rewrite (Z.compare_antisym x y). destruct (x ?= y); reflexivity.
  - intros x y z _ _ _ H. destruct (Z.compare_spec x y); simpl in H; try lia.
    subst. reflexivity.
  - intros x y z _ _ _ H1 H2.
    destruct (Z.compare_spec x y); simpl in H1; try lia.
    destruct (Z.compare_spec y z); simpl in H2; try lia.
    destruct (Z.compare_spec x z); simpl; lia.
Qed.

Lemma ascii_compare_refl (a : ascii) : Ascii.compare a a = Eq.
Proof. unfold Ascii.compare. apply N.compare_refl. Qed.

Lemma string_compare_refl (s : string) : String.compare s s = Eq.
Proof.
  induction s as [| a s IH]; simpl.
  - reflexivity.
  - rewrite ascii_compare_refl. exact IH.
Qed.

Lemma string_compare_eq (s1 s2 : string) :
  String.compare s1 s2 = Eq <-> s1 = s2.
Proof.
  split.
  - apply String.compare_eq_iff.
  - intros ->. apply string_compare_refl.
Qed.

Lemma string_compare_lt_trans (s1 s2 s3 : string) :
  String.compare s1 s2 = Lt -> String.compare s2 s3 = Lt ->
  String.compare s1 s3 = Lt.
Proof.
  revert s2 s3.
  induction s1 as [| a s1 IH]; intros [| b s2] [| c s3]; simpl;
    try discriminate; auto.
  unfold Ascii.compare.
  destruct (N.compare_spec (N_of_ascii a) (N_of_ascii b)) as [E1 | L1 | G1];
    try discriminate;
    destruct (N.compare_spec (N_of_ascii b) (N_of_ascii c)) as [E2 | L2 | G2];
    try discriminate; intros H1 H2.
  - rewrite E1, E2, N.compare_refl. eapply IH; eauto.
  - rewrite E1. apply N.compare_lt_iff in L2. rewrite L2. reflexivity.
  - rewrite <- E2. apply N.compare_lt_iff in L1. rewrite L1. reflexivity.
  - assert (L : (N_of_ascii a < N_of_ascii c)%N) by lia.
    apply N.compare_lt_iff in L. rewrite L. reflexivity.
Qed.

Lemma string_order_preorder :
  preorder_cmp (fun _ : string => True)
    (fun a b => int_of_comparison (String.compare a b)).
Proof.
  split.
  - intros x y. destruct (String.compare x y); simpl; auto.
  - intros x. rewrite string_compare_refl. reflexivity.
  - intros x y. rewrite (String.compare_antisym y x).
    destruct (String.compare x y); reflexivity.
  - intros x y z _ _ _ H.
    destruct (String.compare x y) eqn:E; simpl in H; try lia.
    apply string_compare_eq in E. subst. reflexivity.
  - intros x y z _ _ _ H1 H2.
    destruct (String.compare x y) eqn:E1; simpl in H1; try lia.
    destruct (String.compare y z) eqn:E2; simpl in H2; try lia.
    rewrite (string_compare_lt_trans x y z E1 E2). reflexivity.
Qed.

(** *** Pre-release identifiers *)

Lemma identifier_order_preorder :
  preorder_cmp (fun _ : PRVersion => True)
    (fun x y => int_of_comparison (identifier_order x y)).
Proof.
  pose proof zcmp_preorder as HZ. pose proof string_order_preorder as HS.
  unfold zcmp in HZ. unfold identifier_order. split.
  - intros x y. destruct (IsNum x), (IsNum y); simpl; auto.
    + apply (cmp_range _ _ HZ).
    + apply (cmp_range _ _ HS).
  - intros x. destruct (IsNum x).
    + apply (cmp_refl _ _ HZ).
    + apply (cmp_refl _ _ HS).
  - intros x y. destruct (IsNum x), (IsNum y); simpl; auto.
    + apply (cmp_antisym _ _ HZ).
    + apply (cmp_antisym _ _ HS).
  - intros x y z _ _ _. destruct (IsNum x), (IsNum y), (IsNum z); simpl;
      try lia; intros H.
    + apply (cmp_eq_l _ _ HZ); auto.
    + apply (cmp_eq_l _ _ HS); auto.
  - intros x y z _ _ _. destruct (IsNum x), (IsNum y), (IsNum z); simpl;
      try lia; intros H1 H2.
    + apply (cmp_lt_trans _ _ HZ _ (VersionNum y)); auto.
    + apply (cmp_lt_trans _ _ HS _ (VersionStr y)); auto.
Qed.

Lemma PRVersion_Compare_spec (v o : PRVersion) :
  PRVersion_Compare v o = int_of_comparison (identifier_order v o).
Proof.
  unfold PRVersion_Compare, identifier_order.
  destruct (IsNum v), (IsNum o); simpl; try reflexivity.
  - destruct (Z.eqb_spec (VersionNum v) (VersionNum o)) as [E | E].
    + rewrite E, Z.compare_refl. reflexivity.
    + unfold Z.gtb. destruct (Z.compare_spec (VersionNum v) (VersionNum o));
        simpl; try reflexivity. contradiction.
  - unfold string_gtb.
    destruct (String.eqb_spec (VersionStr v) (VersionStr o)) as [E | E].
    + rewrite E, string_compare_refl. reflexivity.
    + destruct (String.compare (VersionStr v) (VersionStr o)) eqn:C;
        simpl; try reflexivity.
      apply string_compare_eq in C. contradiction.
Qed.

Lemma PRVersion_Compare_preorder :
  preorder_cmp (fun _ : PRVersion => True) PRVersion_Compare.
Proof.
  apply (preorder_cmp_ext _ (fun x y => int_of_comparison (identifier_order x y))).
  - intros x y. symmetry. apply PRVersion_Compare_spec.
  - apply identifier_order_preorder.
Qed.

Lemma identifier_order_refl (x : PRVersion) : identifier_order x x = Eq.
Proof.
  unfold identifier_order. destruct (IsNum x).
  - apply Z.compare_refl.
  - apply string_compare_refl.
Qed.

Lemma int_of_comparison_inj (c1 c2 : comparison) :
  int_of_comparison c1 = int_of_comparison c2 -> c1 = c2.
Proof. destruct c1, c2; simpl; intros H; try reflexivity; lia. Qed.

Lemma identifier_order_antisym (x y : PRVersion) :
  identifier_order y x = CompOpp (identifier_order x y).
Proof.
  apply int_of_comparison_inj.
  rewrite (cmp_antisym _ _ identifier_order_preorder x y).
  destruct (identifier_order x y); reflexivity.
Qed.

Lemma identifier_order_eq_l (x y z : PRVersion) :
  identifier_order x y = Eq -> identifier_order x z = identifier_order y z.
Proof.
  intros H. apply int_of_comparison_inj.
  apply (cmp_eq_l _ _ identifier_order_preorder); auto. rewrite H. reflexivity.
Qed.

Lemma identifier_order_eq_r (x y z : PRVersion) :
  identifier_order y z = Eq -> identifier_order x y = identifier_order x z.
Proof.
  intros H. apply int_of_comparison_inj.
  apply (preorder_cmp_eq_r _ _ identifier_order_preorder); auto.
  rewrite H. reflexivity.
Qed.

Lemma identifier_order_lt_trans (x y z : PRVersion) :
  identifier_order x y = Lt -> identifier_order y z = Lt ->
  identifier_order x z = Lt.
Proof.
  intros H1 H2. apply int_of_comparison_inj.
  apply (cmp_lt_trans _ _ identifier_order_preorder x y z); auto.
  - rewrite H1. reflexivity.
  - rewrite H2. reflexivity.
Qed.

(** *** Pre-release lists *)

Lemma lex_compare_range (xs ys : list PRVersion) :
  lex_compare xs ys = -1 \/ lex_compare xs ys = 0 \/ lex_compare xs ys = 1.
Proof.
  revert ys. induction xs as [| x xs IH]; intros [| y ys]; simpl; auto.
  destruct (identifier_order x y); auto.
Qed.

Lemma lex_compare_refl (xs : list PRVersion) : lex_compare xs xs = 0.
Proof.
  induction xs as [| x xs IH]; simpl; auto.
  rewrite identifier_order_refl. exact IH.
Qed.

Lemma lex_compare_antisym (xs ys : list PRVersion) :
  lex_compare ys xs = - lex_compare xs ys.
Proof.
  revert ys. induction xs as [| x xs IH]; intros [| y ys]; simpl; auto.
  rewrite (identifier_order_antisym x y).
  destruct (identifier_order x y); simpl; auto.
Qed.

Lemma lex_compare_eq_l (xs ys zs : list PRVersion) :
  lex_compare xs ys = 0 -> lex_compare xs zs = lex_compare ys zs.
Proof.
  revert ys zs.
  induction xs as [| x xs IH]; intros [| y ys] [| z zs]; simpl; intros H;
    try discriminate H; auto.
  destruct (identifier_order x y) eqn:E; try discriminate H.
  rewrite (identifier_order_eq_l x y z E).
  destruct (identifier_order y z); auto.
Qed.

Lemma lex_compare_lt_trans (xs ys zs : list PRVersion) :
  lex_compare xs ys = -1 -> lex_compare ys zs = -1 -> lex_compare xs zs = -1.
Proof.
  revert ys zs.
  induction xs as [| x xs IH]; intros [| y ys] [| z zs]; simpl; intros H1 H2;
    try discriminate H1; try discriminate H2; auto.
  destruct (identifier_order x y) eqn:E1; try discriminate H1;
    destruct (identifier_order y z) eqn:E2; try discriminate H2.
  - rewrite (identifier_order_eq_l x y z E1), E2. eauto.
  - rewrite (identifier_order_eq_l x y z E1), E2. reflexivity.
  - rewrite <- (identifier_order_eq_r x y z E2), E1. reflexivity.
  - rewrite (identifier_order_lt_trans x y z E1 E2). reflexivity.
Qed.


Lemma pre_order_preorder :
  preorder_cmp (fun _ : list PRVersion => True) pre_order.
Proof.
  split.
  - intros [| x xs] [| y ys]; simpl; auto.
    exact (lex_compare_range (x :: xs) (y :: ys)).
  - intros [| x xs]; simpl; auto. exact (lex_compare_refl (x :: xs)).
  - intros [| x xs] [| y ys]; simpl; auto.
    exact (lex_compare_antisym (x :: xs) (y :: ys)).
  - intros [| x xs] [| y ys] [| z zs] _ _ _; simpl; intros H;
      try discriminate H; auto.
    exact (lex_compare_eq_l (x :: xs) (y :: ys) (z :: zs) H).
  - intros [| x xs] [| y ys] [| z zs] _ _ _; simpl; intros H1 H2;
      try discriminate H1; try discriminate H2; auto.
    exact (lex_compare_lt_trans (x :: xs) (y :: ys) (z :: zs) H1 H2).
Qed.

(** The loop of [Compare] and the test after it compute [lex_compare]. *)
Lemma compare_loop_spec (xs ys : list PRVersion) (i : nat) :
  match compare_loop xs ys i with
  | inl c => c
  | inr j =>
      if Nat.eqb j (i + List.length xs) && Nat.eqb j (i + List.length ys) then 0
      else if Nat.eqb j (i + List.length xs) && Nat.ltb j (i + List.length ys)
           then -1
           else 1
  end = lex_compare xs ys.
Proof.
  revert ys i. induction xs as [| x xs IH]; intros [| y ys] i; simpl.
  - rewrite Nat.add_0_r, Nat.eqb_refl. reflexivity.
  - rewrite Nat.add_0_r, Nat.eqb_refl. simpl.
    replace (Nat.eqb i (i + S (List.length ys))) with false
      by (symmetry; apply Nat.eqb_neq; lia).
    replace (Nat.ltb i (i + S (List.length ys))) with true
      by (symmetry; apply Nat.ltb_lt; lia).
    reflexivity.
  - rewrite Nat.add_0_r.
    replace (Nat.eqb i (i + S (List.length xs))) with false
      by (symmetry; apply Nat.eqb_neq; lia).
    reflexivity.
  - rewrite PRVersion_Compare_spec.
    destruct (identifier_order x y); simpl; try reflexivity.
    rewrite <- (IH ys (S i)).
    replace (i + S (List.length xs))%nat with (S i + List.length xs)%nat by lia.
    replace (i + S (List.length ys))%nat with (S i + List.length ys)%nat by lia.
    reflexivity.
Qed.

(** Steps 3 and 4 of [Compare]. *)
Lemma compare_pre_spec (xs ys : list PRVersion) :
  (if Nat.eqb (List.length xs) 0 && Nat.eqb (List.length ys) 0 then 0
   else if Nat.eqb (List.length xs) 0 && Nat.ltb 0 (List.length ys) then 1
   else if Nat.ltb 0 (List.length xs) && Nat.eqb (List.length ys) 0 then -1
   else match compare_loop xs ys 0 with
        | inl c => c
        | inr i =>
            if Nat.eqb i (List.length xs) && Nat.eqb i (List.length ys) then 0
            else if Nat.eqb i (List.length xs) && Nat.ltb i (List.length ys)
                 then -1
                 else 1
        end) = pre_order xs ys.
Proof.
  pose proof (compare_loop_spec xs ys 0) as L. simpl in L.
  destruct xs as [| x xs], ys as [| y ys]; try reflexivity.
  exact L.
Qed.

(** [Compare] is the lexicographic combination of its five steps. *)
Lemma Version_Compare_spec (v o : Version) :
  Version_Compare v o =
  lexc (zcmp (Major v) (Major o))
    (lexc (zcmp (Minor v) (Minor o))
       (lexc (zcmp (Patch v) (Patch o))
          (lexc (revision_order (Revision v) (Revision o))
             (pre_order (Pre v) (Pre o))))).
Proof.
  unfold Version_Compare. cbv zeta. rewrite compare_pre_spec.
  unfold lexc, zcmp, revision_order, zcmp, Z.gtb.
  destruct (Z.eqb_spec (Major v) (Major o)) as [E1 | E1];
    [| destruct (Z.compare_spec (Major v) (Major o)); simpl; try reflexivity;
       contradiction].
  rewrite E1, Z.compare_refl. simpl.
  destruct (Z.eqb_spec (Minor v) (Minor o)) as [E2 | E2];
    [| destruct (Z.compare_spec (Minor v) (Minor o)); simpl; try reflexivity;
       contradiction].
  rewrite E2, Z.compare_refl. simpl.
  destruct (Z.eqb_spec (Patch v) (Patch o)) as [E3 | E3];
    [| destruct (Z.compare_spec (Patch v) (Patch o)); simpl; try reflexivity;
       contradiction].
  rewrite E3, Z.compare_refl. simpl.
  destruct (Z.eqb_spec (Revision v) (Revision o)) as [E4 | E4]; simpl.
  - rewrite E4, Z.compare_refl. simpl.
    destruct (Revision o =? -1); reflexivity.
  - destruct (Z.eqb_spec (Revision v) (-1)); simpl; try reflexivity.
    destruct (Z.eqb_spec (Revision o) (-1)); simpl; try reflexivity.
    destruct (Z.compare_spec (Revision v) (Revision o)); simpl; try reflexivity.
    contradiction.
Qed.

(** *** Versions *)

Lemma revision_order_range (x y : Z) :
  revision_order x y = -1 \/ revision_order x y = 0 \/ revision_order x y = 1.
Proof.
  unfold revision_order. destruct ((x =? -1) || (y =? -1)); auto.
  apply (cmp_range _ _ zcmp_preorder).
Qed.

Lemma revision_order_refl (x : Z) : revision_order x x = 0.
Proof.
  unfold revision_order. destruct ((x =? -1) || (x =? -1)); auto.
  apply (cmp_refl _ _ zcmp_preorder).
Qed.

Lemma revision_order_antisym (x y : Z) :
  revision_order y x = - revision_order x y.
Proof.
  unfold revision_order. rewrite (orb_comm (y =? -1)).
  destruct ((x =? -1) || (y =? -1)); auto.
  apply (cmp_antisym _ _ zcmp_preorder).
Qed.

Lemma revision_order_preorder_present :
  preorder_cmp (fun r => r >= 0) revision_order.
Proof.
  assert (E : forall x y, x >= 0 -> y >= 0 -> revision_order x y = zcmp x y).
  { intros x y Hx Hy. unfold revision_order.
    destruct (Z.eqb_spec x (-1)); try lia.
    destruct (Z.eqb_spec y (-1)); try lia. reflexivity. }
  split.
  - apply revision_order_range.
  - apply revision_order_refl.
  - apply revision_order_antisym.
  - intros x y z Hx Hy Hz. rewrite !E by assumption.
    apply (cmp_eq_l _ _ zcmp_preorder); auto.
  - intros x y z Hx Hy Hz. rewrite !E by assumption.
    apply (cmp_lt_trans _ _ zcmp_preorder); auto.
Qed.

Lemma revision_order_preorder_absent :
  preorder_cmp (fun r => r = -1) revision_order.
Proof.
  split.
  - apply revision_order_range.
  - apply revision_order_refl.
  - apply revision_order_antisym.
  - intros x y z -> -> -> _. reflexivity.
  - intros x y z -> -> -> H _. exact H.
Qed.

(** On versions whose revisions satisfy a condition [D] under which the
    revision rule is a preorder, [Compare] is a total preorder. *)
Lemma Version_Compare_preorder (D : Z -> Prop) :
  preorder_cmp D revision_order ->
  preorder_cmp (fun v => D (Revision v)) Version_Compare.
Proof.
  intros HD.
  pose (DV := fun v : Version => D (Revision v)).
  assert (HZ : forall f : Version -> Z,
             preorder_cmp DV (fun x y => zcmp (f x) (f y))).
  { intros f. apply (preorder_cmp_weaken (fun _ => True)); auto.
    apply (pullback_preorder f _ zcmp zcmp_preorder). }
  assert (HP : preorder_cmp DV (fun x y => pre_order (Pre x) (Pre y))).
  { apply (preorder_cmp_weaken (fun _ => True)); auto.
    apply (pullback_preorder Pre _ pre_order pre_order_preorder). }
  assert (HR : preorder_cmp DV
                 (fun x y => revision_order (Revision x) (Revision y))).
  { apply (pullback_preorder Revision D revision_order HD). }
  eapply preorder_cmp_ext.
  - intros x y. symmetry. apply Version_Compare_spec.
  - apply lexc_preorder; [apply HZ |].
    apply lexc_preorder; [apply HZ |].
    apply lexc_preorder; [apply HZ |].
    apply lexc_preorder; [apply HR | apply HP].
Qed.

Lemma Version_Compare_range (a b : Version) :
  Version_Compare a b = -1 \/ Version_Compare a b = 0 \/ Version_Compare a b = 1.
Proof.
  apply (cmp_range _ _ (Version_Compare_preorder _ revision_order_preorder_absent)).
Qed.

Lemma Version_Compare_refl (a : Version) : Version_Compare a a = 0.
Proof.
  apply (cmp_refl _ _ (Version_Compare_preorder _ revision_order_preorder_absent)).
Qed.

Lemma Version_Compare_antisym (a b : Version) :
  Version_Compare b a = - Version_Compare a b.
Proof.
  apply (cmp_antisym _ _
           (Version_Compare_preorder _ revision_order_preorder_absent)).
Qed.

(** When major, minor and patch agree, the revision rule and then the
    pre-release lists decide. *)
Lemma Version_Compare_tail (a b : Version) :
  Major a = Major b -> Minor a = Minor b -> Patch a = Patch b ->
  Version_Compare a b =
  lexc (revision_order (Revision a) (Revision b)) (pre_order (Pre a) (Pre b)).
Proof.
  intros E1 E2 E3. rewrite Version_Compare_spec, E1, E2, E3.
  rewrite !(cmp_refl _ _ zcmp_preorder). reflexivity.
Qed.

Lemma lex_compare_tie (xs ys : list PRVersion) :
  Forall2 identifier_tie xs ys -> lex_compare xs ys = 0.
Proof.
  induction 1 as [| x y xs ys H _ IH]; simpl; auto.
  unfold identifier_tie in H. rewrite PRVersion_Compare_spec in H.
  destruct (identifier_order x y); simpl in H; lia.
Qed.

Lemma lex_compare_prefix (xs p ext : list PRVersion) :
  Forall2 identifier_tie xs p -> ext <> [] -> lex_compare xs (p ++ ext) = -1.
Proof.
  intros H Hext. induction H as [| x y xs ys H _ IH]; simpl.
  - destruct ext; [contradiction | reflexivity].
  - unfold identifier_tie in H. rewrite PRVersion_Compare_spec in H.
    destruct (identifier_order x y); simpl in H; lia.
Qed.

(** ** The comparator *)

(** C1.  [Compare] returns one of -1, 0 and 1, is reflexive, and
    [Compare(a,b) == 1] implies [Compare(b,a) == -1], on all versions.  It is
    transitive (both the ties and the relation [<= 0]) on any three versions
    that are all in 4-component mode or all in 3-component mode.  Across the
    two modes it is not an order: the guard of the revision step skips the
    step when either revision is [-1], so a version without revision ties
    with every version of the same major, minor, patch and pre-release
    identifiers whatever its revision, where the comment above the guard
    says that 1.2.3 is less than 1.2.3.4. *)
Theorem Compare_total_preorder_same_mode (a b c : Version) :
  (Version_Compare a b = -1 \/ Version_Compare a b = 0 \/ Version_Compare a b = 1) /\
  Version_Compare a a = 0 /\
  (Version_Compare a b = 1 -> Version_Compare b a = -1) /\
  (same_mode a b c ->
   (Version_Compare a b = 0 -> Version_Compare b c = 0 ->
    Version_Compare a c = 0) /\
   (Version_Compare a b <= 0 -> Version_Compare b c <= 0 ->
    Version_Compare a c <= 0)) /\
  (Major a = Major b -> Minor a = Minor b -> Patch a = Patch b ->
   Pre a = Pre b -> Revision a = -1 \/ Revision b = -1 ->
   Version_Compare a b = 0).
Proof.
  split; [apply Version_Compare_range |].
  split; [apply Version_Compare_refl |].
  split; [intros H; rewrite Version_Compare_antisym, H; reflexivity |].
  split.
  - intros [(Ha & Hb & Hc) | (Ha & Hb & Hc)].
    + pose proof (Version_Compare_preorder _ revision_order_preorder_present)
        as P.
      split.
      * apply (preorder_cmp_eq_trans _ _ P); assumption.
      * apply (preorder_cmp_le_trans _ _ P); assumption.
    + pose proof (Version_Compare_preorder _ revision_order_preorder_absent)
        as P.
      split.
      * apply (preorder_cmp_eq_trans _ _ P); assumption.
      * apply (preorder_cmp_le_trans _ _ P); assumption.
  - intros E1 E2 E3 E4 R. rewrite Version_Compare_spec, E1, E2, E3, E4.
    unfold lexc, zcmp. rewrite !Z.compare_refl. cbn [int_of_comparison Z.eqb].
    rewrite (cmp_refl _ _ pre_order_preorder).
    unfold revision_order.
    destruct R as [-> | ->]; [reflexivity |]. rewrite orb_true_r. reflexivity.
Qed.

Lemma Compare_total_preorder_same_mode_witness :
  let a := mkVersion 1 2 3 0 [] [] in
  let b := mkVersion 1 2 3 1 [] [] in
  let c := mkVersion 1 2 3 2 [] [] in
  same_mode a b c /\ Version_Compare a c <= 0.
Proof.
  intros a b c.
  assert (M : same_mode a b c).
  { left. unfold revision_present. simpl. repeat split; lia. }
  split; [exact M |].
  apply (proj2 (proj1 (proj2 (proj2 (proj2
           (Compare_total_preorder_same_mode a b c)))) M)).
  - vm_compute. discriminate.
  - vm_compute. discriminate.
Defined.

(** C1, the failing input: 1.2.3.2, 1.2.3 and 1.2.3.1 are parsed versions,
    the first ties with the second and the second with the third, but the
    first is greater than the third.  So [Compare] is not transitive on
    parsed versions. *)
Lemma Compare_not_transitive :
  ~ (forall a b c : Version, parsed a -> parsed b -> parsed c ->
       (Version_Compare a b = 0 -> Version_Compare b c = 0 ->
        Version_Compare a c = 0) /\
       (Version_Compare a b <= 0 -> Version_Compare b c <= 0 ->
        Version_Compare a c <= 0)).
Proof.
  intros H.
  destruct (H (mkVersion 1 2 3 2 [] []) (mkVersion 1 2 3 (-1) [] [])
              (mkVersion 1 2 3 1 [] [])) as [H0 _].
  - exists "1.2.3.2". vm_compute. reflexivity.
  - exists "1.2.3". vm_compute. reflexivity.
  - exists "1.2.3.1". vm_compute. reflexivity.
  - assert (E : Version_Compare (mkVersion 1 2 3 2 [] [])
                  (mkVersion 1 2 3 1 [] []) = 0).
    { apply H0; vm_compute; reflexivity. }
    vm_compute in E. discriminate E.
Qed.



(** C6.  Two versions that differ at most in their build lists compare as
    equal, and [Equals] holds of them. *)
Theorem Compare_ignores_build (a b : Version) :
  same_but_build a b ->
  Version_Compare a b = 0 /\ Version_Equals a b = true.
Proof.
  intros (E1 & E2 & E3 & E4 & E5).
  assert (H : Version_Compare a b = 0).
  { rewrite Version_Compare_spec, E1, E2, E3, E4, E5.
    rewrite !(cmp_refl _ _ zcmp_preorder), revision_order_refl.
    rewrite (cmp_refl _ _ pre_order_preorder). reflexivity. }
  split; [exact H |]. unfold Version_Equals. rewrite H. reflexivity.
Qed.

Lemma Compare_ignores_build_witness :
  let a := mkVersion 1 2 3 4 [mkPRVersion "rc" 0 false] ["build"; "7"] in
  let b := mkVersion 1 2 3 4 [mkPRVersion "rc" 0 false] ["x"] in
  Build a <> Build b /\ Version_Compare a b = 0 /\ Version_Equals a b = true.
Proof.
  intros a b. split; [discriminate |].
  apply (Compare_ignores_build a b).
  unfold same_but_build. simpl. repeat split; reflexivity.
Defined.

(** C7.  For versions with the same major, minor, patch and revision: one
    with no pre-release identifiers is greater than one with some; when both
    have some, [Compare] is the element-wise comparison in list order, which
    gives 0 on lists of the same length whose elements tie pairwise and makes
    a list less than any proper extension of it.  The identifier comparator
    puts a numeric identifier below an alphanumeric one, orders numeric ones
    by value and alphanumeric ones by the lexicographic order of their
    bytes. *)
Theorem Compare_prerelease_precedence (a b : Version) :
  Major a = Major b -> Minor a = Minor b -> Patch a = Patch b ->
  Revision a = Revision b ->
  (Pre a = [] -> Pre b <> [] ->
   Version_Compare a b = 1 /\ Version_Compare b a = -1) /\
  (Pre a <> [] -> Pre b <> [] ->
   Version_Compare a b = lex_compare (Pre a) (Pre b)) /\
  (Pre a <> [] -> Forall2 identifier_tie (Pre a) (Pre b) ->
   Version_Compare a b = 0) /\
  (forall p ext, Pre a <> [] -> Forall2 identifier_tie (Pre a) p ->
   ext <> [] -> Pre b = (p ++ ext)%list -> Version_Compare a b = -1) /\
  (forall x y : PRVersion,
     PRVersion_Compare x y = int_of_comparison (identifier_order x y)) /\
  (forall x y : PRVersion, IsNum x = true -> IsNum y = false ->
     PRVersion_Compare x y = -1 /\ PRVersion_Compare y x = 1) /\
  (forall x y : PRVersion, IsNum x = true -> IsNum y = true ->
     PRVersion_Compare x y =
     int_of_comparison (Z.compare (VersionNum x) (VersionNum y))) /\
  (forall x y : PRVersion, IsNum x = false -> IsNum y = false ->
     PRVersion_Compare x y =
     int_of_comparison (String.compare (VersionStr x) (VersionStr y))).
Proof.
  intros E1 E2 E3 E4.
  assert (T : forall u w, Major u = Major w -> Minor u = Minor w ->
                Patch u = Patch w -> Revision u = Revision w ->
                Version_Compare u w = pre_order (Pre u) (Pre w)).
  { intros u w F1 F2 F3 F4. rewrite (Version_Compare_tail u w F1 F2 F3), F4.
    rewrite revision_order_refl. reflexivity. }
  rewrite (T a b E1 E2 E3 E4).
  rewrite (T b a (eq_sym E1) (eq_sym E2) (eq_sym E3) (eq_sym E4)).
  split.
  { intros Ha Hb. rewrite Ha. destruct (Pre b); [contradiction |].
    split; reflexivity. }
  split.
  { intros Ha Hb. destruct (Pre a), (Pre b); try reflexivity; contradiction. }
  split.
  { intros Ha H. destruct H as [| x y xs ys H1 H2]; [contradiction |].
    apply (lex_compare_tie (x :: xs) (y :: ys)). constructor; assumption. }
  split.
  { intros p ext Ha H Hext ->. destruct H as [| x y xs ys H1 H2];
      [contradiction |].
    apply (lex_compare_prefix (x :: xs) (y :: ys) ext); auto. }
  split; [apply PRVersion_Compare_spec |].
  split; [| split]; intros x y Hx Hy; rewrite !PRVersion_Compare_spec;
    unfold identifier_order; rewrite Hx, Hy; auto.
Qed.

Lemma Compare_prerelease_precedence_witness :
  let alpha := mkPRVersion "alpha" 0 false in
  let one := mkPRVersion "" 1 true in
  let a := mkVersion 1 0 0 (-1) [alpha] [] in
  let b := mkVersion 1 0 0 (-1) [alpha; one] [] in
  let r := mkVersion 1 0 0 (-1) [] [] in
  Version_Compare r a = 1 /\ Version_Compare a b = -1.
Proof.
  intros alpha one a b r. split.
  - apply (proj1 (Compare_prerelease_precedence r a
                    eq_refl eq_refl eq_refl eq_refl)).
    + reflexivity.
    + discriminate.
  - apply (proj1 (proj2 (proj2 (proj2 (Compare_prerelease_precedence a b
                    eq_refl eq_refl eq_refl eq_refl)))) [alpha] [one]).
    + discriminate.
    + constructor; [| constructor]. vm_compute. reflexivity.
    + discriminate.
    + reflexivity.
Defined.

(** ** The mutators *)

(** C9.  [IncrementMinor] returns no error; it adds 1 to minor (the [uint64]
    addition, which is the integer successor below the largest value),
    sets patch to 0, sets a present revision to 0 and leaves any other
    revision, in particular the absent one, as it is; major, pre and build
    are unchanged.  After it the version parsed from "1.2.3.4" is the one
    parsed from "1.3.0.0". *)
Theorem IncrementMinor_effect (v : Version) :
  snd (Version_IncrementMinor v) = None /\
  Minor (fst (Version_IncrementMinor v)) = wrap64 (Minor v + 1) /\
  (0 <= Minor v < two64 - 1 ->
   Minor (fst (Version_IncrementMinor v)) = Minor v + 1) /\
  Patch (fst (Version_IncrementMinor v)) = 0 /\
  (Revision v >= 0 -> Revision (fst (Version_IncrementMinor v)) = 0) /\
  (~ Revision v >= 0 ->
   Revision (fst (Version_IncrementMinor v)) = Revision v) /\
  (Revision v = -1 -> Revision (fst (Version_IncrementMinor v)) = -1) /\
  Major (fst (Version_IncrementMinor v)) = Major v /\
  Pre (fst (Version_IncrementMinor v)) = Pre v /\
  Build (fst (Version_IncrementMinor v)) = Build v /\
  (forall w, Parse "1.2.3.4" = Ok w ->
     Ok (fst (Version_IncrementMinor w)) = Parse "1.3.0.0").
Proof.
  unfold Version_IncrementMinor. cbn [fst snd Minor Major Patch Revision Pre Build].
  split; [reflexivity |].
  split; [destruct (Revision v >=? 0); reflexivity |].
  split.
  { intros H. destruct (Revision v >=? 0); cbn [Minor]; unfold wrap64;
      apply Z.mod_small; lia. }
  split; [destruct (Revision v >=? 0); reflexivity |].
  split.
  { intros H. destruct (Z.geb_spec (Revision v) 0); [reflexivity | lia]. }
  split.
  { intros H. destruct (Z.geb_spec (Revision v) 0); [lia | reflexivity]. }
  split.
  { intros H. rewrite H. reflexivity. }
  split; [destruct (Revision v >=? 0); reflexivity |].
  split; [destruct (Revision v >=? 0); reflexivity |].
  split; [destruct (Revision v >=? 0); reflexivity |].
  intros w H. vm_compute in H. injection H as <-. vm_compute. reflexivity.
Qed.

Lemma IncrementMinor_effect_witness :
  let v := mkVersion 1 2 3 4 [mkPRVersion "rc" 0 false] ["b"] in
  let w := mkVersion 1 2 3 (-1) [] [] in
  Minor (fst (Version_IncrementMinor v)) = 3 /\
  Revision (fst (Version_IncrementMinor v)) = 0 /\
  Revision (fst (Version_IncrementMinor w)) = -1 /\
  Ok (fst (Version_IncrementMinor (mkVersion 1 2 3 4 [] []))) = Parse "1.3.0.0".
Proof.
  intros v w.
  pose proof (IncrementMinor_effect v) as (_ & _ & H1 & _ & H2 & _).
  pose proof (IncrementMinor_effect w) as (_ & _ & _ & _ & _ & _ & H3 & _).
  pose proof (IncrementMinor_effect v)
    as (_ & _ & _ & _ & _ & _ & _ & _ & _ & _ & H4).
  split; [| split; [| split]].
  - apply H1. unfold two64. simpl. lia.
  - apply H2. simpl. lia.
  - apply H3. reflexivity.
  - apply H4. vm_compute. reflexivity.
Defined.

(** ** Parsing of particular texts *)

(** C2, as amended.  [Parse] rejects the empty string with the error for
    empty input.  [ParseTolerant] accepts it: every group of the tolerant
    pattern is optional, so the pattern matches, major, minor and patch are
    filled with "0", and the result is the version that "0.0.0" parses to. *)
Theorem Parse_empty_string :
  Parse "" = Err ErrVersionStringEmpty /\
  MatchString KongVersionRegex "" = false /\
  MatchString KongTolerantVersionRegex "" = true /\
  ParseTolerant "" = Ok (mkVersion 0 0 0 (-1) [] []) /\
  ParseTolerant "" = Parse "0.0.0".
Proof. repeat split; vm_compute; reflexivity. Qed.

(** C2 as stated fails: [ParseTolerant] does not fail on the empty string. *)
Lemma ParseTolerant_accepts_empty :
  ~ (exists e1 e2, Parse "" = Err e1 /\ ParseTolerant "" = Err e2).
Proof.
  intros (e1 & e2 & _ & H). vm_compute in H. discriminate H.
Qed.


(** ** The matcher is sound for the meaning of the patterns *)

Lemma append_nil_r (s : string) : s ++ "" = s.
Proof. induction s as [| a s IH]; simpl; [| rewrite IH]; reflexivity. Qed.

Lemma append_assoc (s1 s2 s3 : string) : (s1 ++ s2) ++ s3 = s1 ++ (s2 ++ s3).
Proof. induction s1 as [| a s1 IH]; simpl; [| rewrite IH]; reflexivity. Qed.

Lemma length_append (s1 s2 : string) :
  String.length (s1 ++ s2) = (String.length s1 + String.length s2)%nat.
Proof. induction s1 as [| a s1 IH]; simpl; [| rewrite IH]; reflexivity. Qed.

Lemma substring_prefix (d rest : string) :
  String.substring 0 (String.length d) (d ++ rest) = d.
Proof.
  induction d as [| a d IH]; simpl.
  - destruct rest; reflexivity.
  - rewrite IH. reflexivity.
Qed.

Lemma iter_star_sound (body : cont -> cont) (r : regex) :
  sound_for body r ->
  forall k n pos s caps res,
    iter_star body k n pos s caps = Some res ->
    exists d rest c',
      s = d ++ rest /\ Lang (Star r) pos d rest caps c' /\
      k (pos + String.length d)%nat rest c' = Some res.
Proof.
  intros Hbody k n.
  assert (Hnil : forall pos s caps res, k pos s caps = Some res ->
            exists d rest c',
              s = d ++ rest /\ Lang (Star r) pos d rest caps c' /\
              k (pos + String.length d)%nat rest c' = Some res).
  { intros pos s caps res H. exists "", s, caps. simpl.
    rewrite Nat.add_0_r. repeat split; [constructor | exact H]. }
  induction n as [| n IH]; intros pos s caps res H; simpl in H.
  - apply Hnil. exact H.
  - destruct (body _ pos s caps) as [res' |] eqn:E.
    + injection H as ->.
      apply Hbody in E. destruct E as (d1 & rest1 & c1 & -> & L1 & K).
      destruct (Nat.ltb pos (pos + String.length d1)); [| discriminate K].
      apply IH in K. destruct K as (d2 & rest & c2 & -> & L2 & K).
      exists (d1 ++ d2), rest, c2. split; [| split].
      * symmetry. apply append_assoc.
      * econstructor; eassumption.
      * rewrite length_append, Nat.add_assoc. exact K.
    + apply Hnil. exact H.
Qed.

Lemma exec_sound (r : regex) : sound_for (exec r) r.
Proof.
  induction r as [| | | c | ranges | r1 IH1 r2 IH2 | r1 IH1 r2 IH2 | r1 IH1
                 | g r1 IH1];
    intros k pos s caps res H; simpl in H.
  - exists "", s, caps. simpl. rewrite Nat.add_0_r.
    repeat split; [constructor | exact H].
  - destruct (Nat.eqb_spec pos 0) as [-> | Hne]; [| discriminate H].
    exists "", s, caps. simpl. repeat split; [constructor | exact H].
  - destruct s; [| discriminate H].
    exists "", "", caps. simpl. rewrite Nat.add_0_r.
    repeat split; [constructor | exact H].
  - destruct s as [| a s]; [discriminate H |].
    destruct (Ascii.eqb_spec a c) as [-> | Hne]; [| discriminate H].
    exists (String c ""), s, caps. simpl. rewrite Nat.add_1_r.
    repeat split; [constructor | exact H].
  - destruct s as [| a s]; [discriminate H |].
    destruct (in_class ranges a) eqn:E; [| discriminate H].
    exists (String a ""), s, caps. simpl. rewrite Nat.add_1_r.
    repeat split; [constructor; exact E | exact H].
  - apply IH1 in H. destruct H as (d1 & rest1 & c1 & -> & L1 & H).
    apply IH2 in H. destruct H as (d2 & rest & c2 & -> & L2 & H).
    exists (d1 ++ d2), rest, c2. split; [| split].
    + symmetry. apply append_assoc.
    + econstructor; eassumption.
    + rewrite length_append, Nat.add_assoc. exact H.
  - destruct (exec r1 k pos s caps) as [res' |] eqn:E.
    + injection H as ->. apply IH1 in E.
      destruct E as (d & rest & c' & -> & L & K).
      exists d, rest, c'. repeat split; [apply Lang_Alt_l; exact L | exact K].
    + apply IH2 in H. destruct H as (d & rest & c' & -> & L & K).
      exists d, rest, c'. repeat split; [apply Lang_Alt_r; exact L | exact K].
  - apply (iter_star_sound (exec r1) r1 IH1) in H. exact H.
  - apply IH1 in H. destruct H as (d & rest & c' & -> & L & K).
    exists d, rest, (set_part g d c'). split; [reflexivity |].
    split; [constructor; exact L |].
    replace (pos + String.length d - pos)%nat with (String.length d) in K by lia.
    rewrite substring_prefix in K. exact K.
Qed.

(** A match of a pattern that starts with [^] starts at offset 0. *)
Lemma find_from_sound (re : regex) (pos : nat) (s : string) (res : parts) :
  find_from re pos s = Some res ->
  exists pos' pre d rest,
    (pos' = pos + String.length pre)%nat /\
    s = pre ++ d ++ rest /\ Lang re pos' d rest no_parts res.
Proof.
  revert pos. induction s as [| a s IH]; intros pos H; simpl in H.
  - destruct (exec re accept pos "" no_parts) eqn:E; [| discriminate H].
    injection H as ->. apply exec_sound in E.
    destruct E as (d & rest & c' & E1 & L & K). injection K as ->.
    exists pos, "", d, rest. simpl. rewrite Nat.add_0_r. auto.
  - destruct (exec re accept pos (String a s) no_parts) eqn:E.
    + injection H as ->. apply exec_sound in E.
      destruct E as (d & rest & c' & E1 & L & K). injection K as ->.
      exists pos, "", d, rest. simpl. rewrite Nat.add_0_r. auto.
    + apply IH in H. destruct H as (pos' & pre & d & rest & -> & -> & L).
      exists (S pos + String.length pre)%nat, (String a pre), d, rest.
      simpl. repeat split; [lia | exact L].
Qed.

(** *** Inversion of the meaning of the patterns *)

Lemma Lang_Seq_inv r1 r2 pos d rest c c' :
  Lang (Seq r1 r2) pos d rest c c' ->
  exists d1 d2 c1,
    d = d1 ++ d2 /\ Lang r1 pos d1 (d2 ++ rest) c c1 /\
    Lang r2 (pos + String.length d1) d2 rest c1 c'.
Proof. intros H. inversion H; subst. eauto 8. Qed.

Lemma Lang_Alt_inv r1 r2 pos d rest c c' :
  Lang (Alt r1 r2) pos d rest c c' ->
  Lang r1 pos d rest c c' \/ Lang r2 pos d rest c c'.
Proof. intros H. inversion H; subst; auto. Qed.

Lemma Lang_Eps_inv pos d rest c c' :
  Lang Eps pos d rest c c' -> d = "" /\ c' = c.
Proof. intros H. inversion H; subst; auto. Qed.

Lemma Lang_Opt_inv r pos d rest c c' :
  Lang (Opt r) pos d rest c c' ->
  Lang r pos d rest c c' \/ (d = "" /\ c' = c).
Proof.
  intros H. apply Lang_Alt_inv in H. destruct H as [H | H]; auto.
  right. apply Lang_Eps_inv in H. exact H.
Qed.

Lemma Lang_Bot_inv pos d rest c c' :
  Lang Bot pos d rest c c' -> pos = 0%nat /\ d = "" /\ c' = c.
Proof. intros H. inversion H; subst; auto. Qed.

Lemma Lang_Eot_inv pos d rest c c' :
  Lang Eot pos d rest c c' -> d = "" /\ rest = "" /\ c' = c.
Proof. intros H. inversion H; subst; auto. Qed.

Lemma Lang_Chr_inv a pos d rest c c' :
  Lang (Chr a) pos d rest c c' -> d = String a "" /\ c' = c.
Proof. intros H. inversion H; subst; auto. Qed.

Lemma Lang_Class_inv ranges pos d rest c c' :
  Lang (Class ranges) pos d rest c c' ->
  exists a, d = String a "" /\ in_class ranges a = true /\ c' = c.
Proof. intros H. inversion H; subst; eauto. Qed.

Lemma Lang_Group_inv g r pos d rest c c' :
  Lang (Group g r) pos d rest c c' ->
  exists c1, Lang r pos d rest c c1 /\ c' = set_part g d c1.
Proof. intros H. inversion H; subst; eauto. Qed.

Lemma all_in_append ranges (s1 s2 : string) :
  all_in ranges (s1 ++ s2) = all_in ranges s1 && all_in ranges s2.
Proof.
  induction s1 as [| a s1 IH]; simpl; [reflexivity |].
  rewrite IH, andb_assoc. reflexivity.
Qed.

Lemma Lang_Star_Class_inv ranges pos d rest c c' :
  Lang (Star (Class ranges)) pos d rest c c' ->
  all_in ranges d = true /\ c' = c.
Proof.
  intros H. remember (Star (Class ranges)) as r eqn:Er.
  induction H; try discriminate Er.
  - auto.
  - injection Er as ->. apply Lang_Class_inv in H.
    destruct H as (a & -> & Ha & ->).
    destruct (IHLang2 eq_refl) as [Hd ->].
    split; [| reflexivity]. simpl. rewrite Ha, Hd. reflexivity.
Qed.

Lemma Lang_Plus_Class_inv ranges pos d rest c c' :
  Lang (Plus (Class ranges)) pos d rest c c' ->
  all_in ranges d = true /\ d <> "" /\ c' = c.
Proof.
  intros H. apply Lang_Seq_inv in H.
  destruct H as (d1 & d2 & c1 & -> & H1 & H2).
  apply Lang_Class_inv in H1. destruct H1 as (a & -> & Ha & ->).
  apply Lang_Star_Class_inv in H2. destruct H2 as [Hd ->].
  simpl. rewrite Ha, Hd. repeat split. discriminate.
Qed.

Lemma Lang_numeric_inv pos d rest c c' :
  Lang numeric pos d rest c c' -> canonical d /\ c' = c.
Proof.
  intros H. apply Lang_Alt_inv in H. destruct H as [H | H].
  - apply Lang_Chr_inv in H. destruct H as [-> ->]. split; [left |]; reflexivity.
  - apply Lang_Seq_inv in H. destruct H as (d1 & d2 & c1 & -> & H1 & H2).
    apply Lang_Class_inv in H1. destruct H1 as (a & -> & Ha & ->).
    apply Lang_Star_Class_inv in H2. destruct H2 as [Hd ->].
    split; [| reflexivity]. right. exists a, d2. auto.
Qed.

Lemma Lang_groupless r pos d rest c c' :
  Lang r pos d rest c c' -> groupless r = true -> c' = c.
Proof.
  induction 1; simpl; intros G; try reflexivity; try discriminate G.
  - apply andb_prop in G. destruct G as [G1 G2].
    rewrite (IHLang2 G2). apply IHLang1. exact G1.
  - apply andb_prop in G. destruct G as [G1 G2]. apply IHLang. exact G1.
  - apply andb_prop in G. destruct G as [G1 G2]. apply IHLang. exact G2.
  - rewrite (IHLang2 G). apply IHLang1. exact G.
Qed.

Lemma append_eq_nil (s1 s2 : string) : s1 ++ s2 = "" -> s1 = "" /\ s2 = "".
Proof. destruct s1; simpl; [auto | discriminate]. Qed.

Lemma Lang_consuming r pos d rest c c' :
  Lang r pos d rest c c' -> consuming r = true -> d <> "".
Proof.
  induction 1; simpl; intros G; try discriminate G; try discriminate.
  - intros E. apply append_eq_nil in E. destruct E as [E1 E2].
    apply orb_prop in G. destruct G as [G | G].
    + exact (IHLang1 G E1).
    + exact (IHLang2 G E2).
  - apply andb_prop in G. destruct G as [G1 G2]. exact (IHLang G1).
  - apply andb_prop in G. destruct G as [G1 G2]. exact (IHLang G2).
  - exact (IHLang G).
Qed.

Lemma canonical_nonempty (s : string) :
  canonical s -> exists a s', s = String a s'.
Proof.
  intros [-> | (a & s' & -> & _)]; eauto.
Qed.

Lemma nonempty_cons (s : string) : s <> "" -> exists a s', s = String a s'.
Proof. destruct s; [contradiction | eauto]. Qed.

Lemma Lang_identifier_inv pos d rest c c' :
  Lang identifier pos d rest c c' -> strict_identifier d.
Proof.
  intros H. apply Lang_Alt_inv in H. destruct H as [H | H].
  - left. apply (Lang_Alt_l _ (Seq nonzero (Star digit))) in H.
    apply (Lang_numeric_inv _ _ _ _ _ H).
  - apply Lang_Alt_inv in H. destruct H as [H | H].
    + left. apply (Lang_Alt_r (Chr "0")) in H.
      apply (Lang_numeric_inv _ _ _ _ _ H).
    + right. apply Lang_Seq_inv in H.
      destruct H as (ds & d2 & c1 & -> & H1 & H).
      apply Lang_Star_Class_inv in H1. destruct H1 as [Hds ->].
      apply Lang_Seq_inv in H. destruct H as (dl & t & c2 & -> & H2 & H3).
      apply Lang_Class_inv in H2. destruct H2 as (l & -> & Hl & ->).
      apply Lang_Star_Class_inv in H3. destruct H3 as [Ht ->].
      exists ds, l, t. auto.
Qed.

Lemma Lang_Star_dotted (P : string -> Prop) (r : regex) :
  (forall pos d rest c c', Lang r pos d rest c c' -> P d) ->
  forall pos d rest c c',
    Lang (Star (Seq (Chr ".") r)) pos d rest c c' ->
    exists ids, Forall P ids /\ d = dotted ids.
Proof.
  intros HP pos d rest c c' H.
  remember (Star (Seq (Chr ".") r)) as sr eqn:Er.
  induction H; try discriminate Er.
  - exists []. auto.
  - injection Er as ->. destruct (IHLang2 eq_refl) as (ids & Hids & ->).
    apply Lang_Seq_inv in H. destruct H as (dot & id & c3 & -> & H1 & H2).
    apply Lang_Chr_inv in H1. destruct H1 as [-> ->].
    exists (id :: ids). split.
    + constructor; [exact (HP _ _ _ _ _ H2) | exact Hids].
    + reflexivity.
Qed.

Lemma Lang_identifiers_inv pos d rest c c' :
  Lang (Seq identifier (Star (Seq (Chr ".") identifier))) pos d rest c c' ->
  dot_list strict_identifier d.
Proof.
  intros H. apply Lang_Seq_inv in H. destruct H as (id & d2 & c1 & -> & H1 & H2).
  apply (Lang_Star_dotted strict_identifier identifier Lang_identifier_inv) in H2.
  destruct H2 as (ids & Hids & ->).
  exists id, ids. split; [exact (Lang_identifier_inv _ _ _ _ _ H1) | auto].
Qed.

Lemma Lang_build_segment_inv pos d rest c c' :
  Lang (Plus alnum) pos d rest c c' -> build_segment d.
Proof.
  intros H. apply Lang_Plus_Class_inv in H. destruct H as (H1 & H2 & _).
  split; assumption.
Qed.

Lemma Lang_build_ids_inv pos d rest c c' :
  Lang build_ids pos d rest c c' -> dot_list build_segment d.
Proof.
  intros H. apply Lang_Seq_inv in H. destruct H as (id & d2 & c1 & -> & H1 & H2).
  apply (Lang_Star_dotted build_segment (Plus alnum) Lang_build_segment_inv) in H2.
  destruct H2 as (ids & Hids & ->).
  exists id, ids. split; [exact (Lang_build_segment_inv _ _ _ _ _ H1) | auto].
Qed.

(** *** The shape of a text that matches the strict pattern *)

Tactic Notation "lang_seq" hyp(L) ident(d1) ident(d2) ident(c1) ident(L1) :=
  apply Lang_Seq_inv in L; destruct L as (d1 & d2 & c1 & -> & L1 & L).

Tactic Notation "lang_numeric_group" hyp(L1) ident(Hc) :=
  apply Lang_Group_inv in L1; destruct L1 as (? & L1 & ->);
  apply Lang_numeric_inv in L1; destruct L1 as [Hc ->].

Tactic Notation "lang_chr" hyp(L1) :=
  apply Lang_Chr_inv in L1; destruct L1 as [-> ->].

Lemma length_zero_nil (s : string) : String.length s = 0%nat -> s = "".
Proof. destruct s; [reflexivity | discriminate]. Qed.

Lemma strict_shape (s : string) (p : parts) :
  FindStringSubmatch KongVersionRegex s = Some p ->
  canonical (part_major p) /\ canonical (part_minor p) /\
  canonical (part_patch p) /\
  (part_revision p = "" \/ canonical (part_revision p)) /\
  s = part_major p ++ "." ++ part_minor p ++ "." ++ part_patch p ++
      opt_part "." (part_revision p) ++ opt_part "-" (part_prerelease p) ++
      opt_part "+" (part_buildmetadata p) /\
  (part_prerelease p = "" \/ dot_list strict_identifier (part_prerelease p)) /\
  (part_buildmetadata p = "" \/ dot_list build_segment (part_buildmetadata p)).
Proof.
  unfold FindStringSubmatch. intros H. apply find_from_sound in H.
  destruct H as (pos' & pre & d & rest & Epos & -> & L).
  unfold KongVersionRegex, kongVersionRegexFormat in L.
  lang_seq L d0 d0' c0 L0.
  apply Lang_Bot_inv in L0. destruct L0 as (Hpos & -> & ->).
  assert (pre = "") as -> by (apply length_zero_nil; lia).
  lang_seq L dM d1 c1 LM. lang_numeric_group LM HM.
  lang_seq L dot1 d2 c2 L1. lang_chr L1.
  lang_seq L dm d3 c3 Lm. lang_numeric_group Lm Hm.
  lang_seq L dot2 d4 c4 L2. lang_chr L2.
  lang_seq L dp d5 c5 Lp. lang_numeric_group Lp Hp.
  lang_seq L dR d6 c6 LR.
  lang_seq L dP d7 c7 LP.
  lang_seq L dB d8 c8 LB.
  apply Lang_Eot_inv in L. destruct L as (-> & -> & ->).
  assert (HR : (dR = "" /\ c6 = set_part patch dp (set_part minor dm (set_part major dM no_parts))) \/
               (exists r, dR = "." ++ r /\ canonical r /\
                  c6 = set_part revision r (set_part patch dp (set_part minor dm (set_part major dM no_parts))))).
  { apply Lang_Opt_inv in LR. destruct LR as [LR | [-> ->]]; [right | left; auto].
    lang_seq LR dot3 r c9 L3. lang_chr L3. lang_numeric_group LR Hr.
    exists r. auto. }
  clear LR.
  assert (HP : (dP = "" /\ c7 = c6) \/
               (exists x, dP = "-" ++ x /\ x <> "" /\
                  dot_list strict_identifier x /\
                  c7 = set_part prerelease x c6)).
  { apply Lang_Opt_inv in LP. destruct LP as [LP | [-> ->]]; [right | left; auto].
    lang_seq LP dash x c9 L3. lang_chr L3.
    apply Lang_Group_inv in LP. destruct LP as (c10 & LP & ->).
    exists x. split; [reflexivity |]. split; [| split].
    - apply (Lang_consuming _ _ _ _ _ _ LP). reflexivity.
    - apply (Lang_identifiers_inv _ _ _ _ _ LP).
    - f_equal. apply (Lang_groupless _ _ _ _ _ _ LP). reflexivity. }
  clear LP.
  assert (HB : (dB = "" /\ c8 = c7) \/
               (exists x, dB = "+" ++ x /\ x <> "" /\
                  dot_list build_segment x /\
                  c8 = set_part buildmetadata x c7)).
  { apply Lang_Opt_inv in LB. destruct LB as [LB | [-> ->]]; [right | left; auto].
    lang_seq LB plus x c9 L3. lang_chr L3.
    apply Lang_Group_inv in LB. destruct LB as (c10 & LB & ->).
    exists x. split; [reflexivity |]. split; [| split].
    - apply (Lang_consuming _ _ _ _ _ _ LB). reflexivity.
    - apply (Lang_build_ids_inv _ _ _ _ _ LB).
    - f_equal. apply (Lang_groupless _ _ _ _ _ _ LB). reflexivity. }
  clear LB.
  destruct HR as [[-> ->] | (r & -> & Hr & ->)];
    destruct HP as [[-> ->] | (x & -> & Hx & Dx & ->)];
    destruct HB as [[-> ->] | (y & -> & Hy & Dy & ->)];
    try (destruct (canonical_nonempty r Hr) as (ra & rs & Er));
    try (destruct (nonempty_cons x Hx) as (xa & xs & Ex));
    try (destruct (nonempty_cons y Hy) as (ya & ys & Ey));
    simpl; repeat split; auto;
    rewrite ?Er, ?Ex, ?Ey; simpl; rewrite ?append_nil_r, ?append_assoc; simpl;
    rewrite ?append_nil_r; reflexivity.
Qed.

(** ** Numbers and their decimal text *)

Lemma nonzero_not_zero (a : ascii) :
  in_class [("1", "9")]%char a = true -> Ascii.eqb a "0" = false.
Proof.
  intros H. destruct (Ascii.eqb_spec a "0") as [-> | _]; [| reflexivity].
  vm_compute in H. discriminate H.
Qed.

Lemma canonical_no_leading_zeroes (s : string) :
  canonical s -> hasLeadingZeroes s = false.
Proof.
  intros [-> | (a & s' & -> & Ha & _)].
  - reflexivity.
  - unfold hasLeadingZeroes. rewrite (nonzero_not_zero a Ha).
    apply andb_false_r.
Qed.

Lemma len_nonneg (s : string) : 0 <= len s.
Proof. unfold len. lia. Qed.

Lemma len_zero (s : string) : len s = 0 <-> s = "".
Proof.
  unfold len. destruct s; simpl; split; intros H; try reflexivity;
    try discriminate H; lia.
Qed.

Lemma len_cons (a : ascii) (s : string) : len (String a s) = 1 + len s.
Proof. unfold len. simpl String.length. lia. Qed.

(** Printing the value of a numeral without leading zeroes gives the
    numeral back. *)
Lemma FormatUint_decimal_value (s : string) (n : Z) :
  decimal_value s = Some n -> hasLeadingZeroes s = false ->
  FormatUint n = s /\ 0 <= n.
Proof.
  unfold decimal_value, FormatUint. intros H Hz.
  destruct (NilZero.uint_of_string s) as [d |] eqn:E; [| discriminate H].
  injection H as <-. split; [| lia].
  rewrite N2Z.id, DecimalN.Unsigned.to_of.
  assert (U : Decimal.unorm d = d).
  { destruct s as [| a s']; [discriminate E |].
    simpl in E. destruct (NilEmpty.uint_of_string s') as [d' |] eqn:E';
      [| destruct a as [[|] [|] [|] [|] [|] [|] [|] [|]]; discriminate E].
    apply uint_of_char_spec in E.
    destruct E as [[-> ->] | E].
    - assert (s' = "") as ->.
      { unfold hasLeadingZeroes in Hz.
        destruct (Z.gtb_spec (len (String "0" s')) 1) as [G | G].
        - vm_compute in Hz. discriminate Hz.
        - rewrite len_cons in G. pose proof (len_nonneg s').
          apply len_zero. lia. }
      simpl in E'. injection E' as <-. reflexivity.
    - repeat (destruct E as [[_ ->] | E]; [reflexivity |]).
      destruct E as [_ ->]. reflexivity. }
  rewrite U. apply NilZero.sus. exact E.
Qed.

Lemma FormatUint_ParseUint (s : string) (n : Z) :
  ParseUint s = Ok n -> hasLeadingZeroes s = false -> FormatUint n = s.
Proof.
  unfold ParseUint. intros H Hz.
  destruct (decimal_value s) as [m |] eqn:E; [| discriminate H].
  destruct (m <? two64); [| discriminate H]. injection H as <-.
  apply (FormatUint_decimal_value s m E Hz).
Qed.

Lemma FormatInt_ParseInt (s : string) (n : Z) :
  ParseInt s = Ok n -> canonical s -> FormatInt n = s /\ n >= 0.
Proof.
  intros H Hc. pose proof (canonical_no_leading_zeroes s Hc) as Hz.
  assert (Hd : exists a s', s = String a s' /\ Ascii.eqb a "-" = false /\
                            Ascii.eqb a "+" = false).
  { destruct Hc as [-> | (a & s' & -> & Ha & _)].
    - exists "0"%char, "". auto.
    - exists a, s'. split; [reflexivity |].
      split.
      + destruct (Ascii.eqb_spec a "-") as [-> | _]; [| reflexivity].
        vm_compute in Ha. discriminate Ha.
      + destruct (Ascii.eqb_spec a "+") as [-> | _]; [| reflexivity].
        vm_compute in Ha. discriminate Ha. }
  destruct Hd as (a & s' & -> & Hm & Hp).
  unfold ParseInt in H. rewrite Hm, Hp in H. simpl in H.
  destruct (decimal_value (String a s')) as [un |] eqn:E; [| discriminate H].
  destruct (un >=? two63); [discriminate H |]. injection H as <-.
  destruct (FormatUint_decimal_value _ un E Hz) as [F G].
  unfold FormatInt. destruct (Z.ltb_spec un 0); [lia |]. split; [exact F | lia].
Qed.

(** ** Splitting and joining *)

Lemma append_dotted_spec (l : list string) (b : string) :
  append_dotted b l = b ++ dotted l.
Proof.
  revert b. induction l as [| x l IH]; intros b; simpl.
  - symmetry. apply append_nil_r.
  - rewrite IH. rewrite !append_assoc. reflexivity.
Qed.

Lemma Split_dotted (s : string) :
  exists h t, Split s "." = h :: t /\ h ++ dotted t = s.
Proof.
  induction s as [| c s IH]; simpl.
  - exists "", []. auto.
  - destruct IH as (h & t & E & J). rewrite E.
    destruct (Ascii.eqb_spec c ".") as [-> | _].
    + exists "", (h :: t). split; [reflexivity |]. simpl. rewrite J. reflexivity.
    + exists (String c h), t. split; [reflexivity |]. simpl. rewrite J.
      reflexivity.
Qed.

(** ** The loops of [Parse] *)

Lemma NewPRVersion_String (s : string) (p : PRVersion) :
  NewPRVersion s = Ok p -> PRVersion_String p = s.
Proof.
  unfold NewPRVersion. intros H.
  destruct (len s =? 0); [discriminate H |].
  destruct (containsOnly s numbers).
  - destruct (hasLeadingZeroes s) eqn:Hz; [discriminate H |].
    destruct (ParseUint s) as [num | e] eqn:E; [| discriminate H].
    simpl in H. injection H as <-. unfold PRVersion_String. simpl.
    apply (FormatUint_ParseUint s num E Hz).
  - destruct (containsOnly s alphanum); [| discriminate H].
    injection H as <-. reflexivity.
Qed.

Lemma parse_prerelease_strings (segs : list string) (acc prs : list PRVersion) :
  parse_prerelease segs acc = Ok prs ->
  map PRVersion_String prs = (map PRVersion_String acc ++ segs)%list.
Proof.
  revert acc. induction segs as [| s segs IH]; intros acc H; simpl in H.
  - injection H as <-. rewrite List.app_nil_r. reflexivity.
  - destruct (NewPRVersion s) as [p | e] eqn:E; [| discriminate H].
    simpl in H. apply IH in H. rewrite H, List.map_app. simpl.
    rewrite (NewPRVersion_String s p E), <- List.app_assoc. reflexivity.
Qed.

Lemma parse_build_spec (segs acc bs : list string) :
  parse_build segs acc = Ok bs -> bs = (acc ++ segs)%list.
Proof.
  revert acc. induction segs as [| s segs IH]; intros acc H; simpl in H.
  - injection H as <-. rewrite List.app_nil_r. reflexivity.
  - destruct (len s =? 0); [discriminate H |].
    destruct (containsOnly s alphanum); [| discriminate H].
    simpl in H. apply IH in H. rewrite H, <- List.app_assoc. reflexivity.
Qed.

(** What a successful [Parse] went through. *)
Lemma Parse_inv (s : string) (v : Version) :
  Parse s = Ok v ->
  exists p rev pre build,
    s <> "" /\
    FindStringSubmatch KongVersionRegex s = Some p /\
    ParseUint (part_major p) = Ok (Major v) /\
    ParseUint (part_minor p) = Ok (Minor v) /\
    ParseUint (part_patch p) = Ok (Patch v) /\
    (if len (part_revision p) >? 0 then ParseInt (part_revision p)
     else Ok (-1)) = Ok rev /\
    parse_prerelease
      (if len (part_prerelease p) >? 0 then Split (part_prerelease p) "."
       else []) [] = Ok pre /\
    parse_build
      (if len (part_buildmetadata p) >? 0
       then Split (part_buildmetadata p) "." else []) [] = Ok build /\
    v = mkVersion (Major v) (Minor v) (Patch v) rev pre build.
Proof.
  unfold Parse. intros H.
  destruct (Z.eqb_spec (len s) 0) as [E0 | E0]; [discriminate H |].
  destruct (FindStringSubmatch KongVersionRegex s) as [p |]; [| discriminate H].
  unfold get_part in H.
  destruct (ParseUint (part_major p)) as [ma | e] eqn:E1; [| discriminate H].
  destruct (ParseUint (part_minor p)) as [mi | e] eqn:E2; [| discriminate H].
  destruct (ParseUint (part_patch p)) as [pa | e] eqn:E3; [| discriminate H].
  simpl in H.
  destruct (if len (part_revision p) >? 0 then ParseInt (part_revision p)
            else Ok (-1)) as [rev | e] eqn:E4; [| discriminate H].
  simpl in H.
  destruct (parse_prerelease _ []) as [pre | e] eqn:E5; [| discriminate H].
  simpl in H.
  destruct (parse_build _ []) as [build | e] eqn:E6; [| discriminate H].
  simpl in H. injection H as <-. simpl.
  exists p, rev, pre, build.
  split; [intros ->; apply E0; reflexivity |].
  repeat (split; [first [reflexivity | assumption] |]). reflexivity.
Qed.

(** ** [String] gives back the text that [Parse] accepted *)

Lemma len_cons_pos (a : ascii) (s : string) :
  (len (String a s) >? 0) = true.
Proof.
  rewrite len_cons. pose proof (len_nonneg s).
  destruct (Z.gtb_spec (1 + len s) 0); [reflexivity | lia].
Qed.

Lemma String_revision (b r : string) (rev : Z) :
  (if len r >? 0 then ParseInt r else Ok (-1)) = Ok rev ->
  r = "" \/ canonical r ->
  (if rev >=? 0 then (b ++ ".") ++ FormatInt rev else b) = b ++ opt_part "." r.
Proof.
  intros H [-> | Hc].
  - simpl in H. injection H as <-. simpl. symmetry. apply append_nil_r.
  - destruct (canonical_nonempty r Hc) as (a & r' & Er).
    rewrite Er, len_cons_pos, <- Er in H.
    destruct (FormatInt_ParseInt r rev H Hc) as [F G].
    destruct (Z.geb_spec rev 0); [| lia].
    rewrite F, Er. simpl opt_part. rewrite append_assoc. reflexivity.
Qed.

Lemma String_pre (b x : string) (pre : list PRVersion) :
  parse_prerelease (if len x >? 0 then Split x "." else []) [] = Ok pre ->
  match pre with
  | [] => b
  | pre0 :: rest =>
      append_dotted ((b ++ "-") ++ PRVersion_String pre0)
        (map PRVersion_String rest)
  end = b ++ opt_part "-" x.
Proof.
  intros H. destruct x as [| a x'].
  - simpl in H. injection H as <-. simpl. symmetry. apply append_nil_r.
  - rewrite len_cons_pos in H.
    destruct (Split_dotted (String a x')) as (h & t & E & J).
    rewrite E in H. apply parse_prerelease_strings in H. simpl in H.
    destruct pre as [| pre0 rest]; [discriminate H |].
    simpl in H. injection H as H0 Hrest.
    rewrite H0, Hrest, append_dotted_spec. simpl opt_part.
    rewrite <- J, !append_assoc. reflexivity.
Qed.

Lemma String_build (b x : string) (build : list string) :
  parse_build (if len x >? 0 then Split x "." else []) [] = Ok build ->
  match build with
  | [] => b
  | build0 :: rest => append_dotted ((b ++ "+") ++ build0) rest
  end = b ++ opt_part "+" x.
Proof.
  intros H. destruct x as [| a x'].
  - simpl in H. injection H as <-. simpl. symmetry. apply append_nil_r.
  - rewrite len_cons_pos in H.
    destruct (Split_dotted (String a x')) as (h & t & E & J).
    rewrite E in H. apply parse_build_spec in H. simpl in H. subst build.
    rewrite append_dotted_spec. simpl opt_part.
    rewrite <- J, !append_assoc. reflexivity.
Qed.

Lemma Version_String_Parse (s : string) (v : Version) :
  Parse s = Ok v -> Version_String v = s.
Proof.
  intros H.
  destruct (Parse_inv s v H)
    as (p & rev & pre & build & Hne & F & E1 & E2 & E3 & E4 & E5 & E6 & Ev).
  destruct (strict_shape s p F) as (C1 & C2 & C3 & C4 & Es & _).
  rewrite Ev. unfold Version_String.
  cbn [Major Minor Patch Revision Pre Build].
  rewrite (FormatUint_ParseUint _ _ E1 (canonical_no_leading_zeroes _ C1)).
  rewrite (FormatUint_ParseUint _ _ E2 (canonical_no_leading_zeroes _ C2)).
  rewrite (FormatUint_ParseUint _ _ E3 (canonical_no_leading_zeroes _ C3)).
  rewrite (String_revision _ _ _ E4 C4).
  rewrite (String_pre _ _ _ E5).
  rewrite (String_build _ _ _ E6).
  rewrite Es. rewrite !append_assoc. reflexivity.
Qed.

(** ** The round trip *)

(** C5.  When [Parse] accepts a text and returns [v], [v.String()] is that
    text, so [Parse(v.String())] succeeds and returns [v], the same in every
    field. *)
Theorem Parse_String_round_trip (s : string) (v : Version) :
  Parse s = Ok v ->
  Version_String v = s /\ Parse (Version_String v) = Ok v.
Proof.
  intros H. pose proof (Version_String_Parse s v H) as E.
  split; [exact E |]. rewrite E. exact H.
Qed.

Lemma Parse_String_round_trip_witness :
  let v := mkVersion 1 2 3 4
             [mkPRVersion "alpha" 0 false; mkPRVersion "" 1 true]
             ["b"; "01"] in
  Version_String v = "1.2.3.4-alpha.1+b.01" /\
  Parse (Version_String v) = Ok v.
Proof.
  intros v. apply (Parse_String_round_trip "1.2.3.4-alpha.1+b.01" v).
  vm_compute. reflexivity.
Defined.

(** ** What [Parse] returns passes [Validate] *)

Lemma numbers_in_alphanum (c : ascii) :
  ContainsRune numbers c = true -> ContainsRune alphanum c = true.
Proof.
  destruct c as [[|] [|] [|] [|] [|] [|] [|] [|]]; vm_compute;
    intros H; first [reflexivity | discriminate H].
Qed.

Lemma containsOnly_numbers_alphanum (s : string) :
  containsOnly s numbers = true -> containsOnly s alphanum = true.
Proof.
  induction s as [| c s IH]; cbn [containsOnly]; [reflexivity |].
  intros H. apply andb_prop in H. destruct H as [H1 H2].
  rewrite (numbers_in_alphanum c H1), (IH H2). reflexivity.
Qed.

Lemma NewPRVersion_valid (s : string) (p : PRVersion) :
  NewPRVersion s = Ok p ->
  valid_segment s /\
  (IsNum p = true \/ valid_segment (VersionStr p)).
Proof.
  unfold NewPRVersion, valid_segment. intros H.
  destruct (Z.eqb_spec (len s) 0) as [E0 | E0]; [discriminate H |].
  assert (Hne : s <> "") by (intros ->; apply E0; reflexivity).
  destruct (containsOnly s numbers) eqn:Hn.
  - destruct (hasLeadingZeroes s); [discriminate H |].
    destruct (ParseUint s) as [num | e]; [| discriminate H].
    simpl in H. injection H as <-. simpl.
    split; [| left; reflexivity].
    split; [exact Hne | apply containsOnly_numbers_alphanum; exact Hn].
  - destruct (containsOnly s alphanum) eqn:Ha; [| discriminate H].
    injection H as <-. simpl. auto.
Qed.

Lemma validate_pre_app (l1 l2 : list PRVersion) :
  validate_pre l1 = None -> validate_pre l2 = None ->
  validate_pre (l1 ++ l2) = None.
Proof.
  intros H1 H2. induction l1 as [| p l1 IH]; simpl in *; [exact H2 |].
  destruct (negb (IsNum p)); [| auto].
  destruct (len (VersionStr p) =? 0); [discriminate H1 |].
  destruct (negb (containsOnly (VersionStr p) alphanum)); [discriminate H1 |].
  auto.
Qed.

Lemma validate_build_app (l1 l2 : list string) :
  validate_build l1 = None -> validate_build l2 = None ->
  validate_build (l1 ++ l2) = None.
Proof.
  intros H1 H2. induction l1 as [| b l1 IH]; simpl in *; [exact H2 |].
  destruct (len b =? 0); [discriminate H1 |].
  destruct (negb (containsOnly b alphanum)); [discriminate H1 |].
  auto.
Qed.

Lemma valid_segment_len (s : string) :
  valid_segment s -> (len s =? 0) = false /\ containsOnly s alphanum = true.
Proof.
  intros [Hne Hc]. split; [| exact Hc].
  apply Z.eqb_neq. intros E. apply len_zero in E. contradiction.
Qed.

Lemma parse_prerelease_valid (segs : list string) (acc prs : list PRVersion) :
  parse_prerelease segs acc = Ok prs ->
  validate_pre acc = None -> validate_pre prs = None.
Proof.
  revert acc. induction segs as [| s segs IH]; intros acc H Hacc; simpl in H.
  - injection H as <-. exact Hacc.
  - destruct (NewPRVersion s) as [p | e] eqn:E; [| discriminate H].
    simpl in H. apply (IH _ H). apply validate_pre_app; [exact Hacc |].
    destruct (NewPRVersion_valid s p E) as [_ [Hn | Hv]]; simpl.
    + rewrite Hn. reflexivity.
    + destruct (valid_segment_len _ Hv) as [H1 H2]. rewrite H1, H2.
      destruct (IsNum p); reflexivity.
Qed.

Lemma parse_build_valid (segs acc bs : list string) :
  parse_build segs acc = Ok bs ->
  validate_build acc = None -> validate_build bs = None.
Proof.
  revert acc. induction segs as [| s segs IH]; intros acc H Hacc; simpl in H.
  - injection H as <-. exact Hacc.
  - destruct (len s =? 0) eqn:H1; [discriminate H |].
    destruct (containsOnly s alphanum) eqn:H2; [| discriminate H].
    simpl in H. apply (IH _ H). apply validate_build_app; [exact Hacc |].
    simpl. rewrite H1, H2. reflexivity.
Qed.

Lemma parse_prerelease_segments (segs : list string) (acc prs : list PRVersion) :
  parse_prerelease segs acc = Ok prs -> Forall valid_segment segs.
Proof.
  revert acc. induction segs as [| s segs IH]; intros acc H; simpl in H.
  - constructor.
  - destruct (NewPRVersion s) as [p | e] eqn:E; [| discriminate H].
    simpl in H. constructor; [| exact (IH _ H)].
    apply (NewPRVersion_valid s p E).
Qed.

Lemma parse_build_segments (segs acc bs : list string) :
  parse_build segs acc = Ok bs -> Forall valid_segment segs.
Proof.
  revert acc. induction segs as [| s segs IH]; intros acc H; simpl in H.
  - constructor.
  - destruct (Z.eqb_spec (len s) 0) as [H1 | H1]; [discriminate H |].
    destruct (containsOnly s alphanum) eqn:H2; [| discriminate H].
    simpl in H. constructor; [| exact (IH _ H)].
    split; [| exact H2]. intros ->. apply H1. reflexivity.
Qed.

(** C10.  A version returned by [Parse] passes [Validate]: the text of every
    pre-release identifier and every build segment is non-empty and made of
    bytes of [0-9A-Za-z-]. *)
Theorem Parse_Validate (s : string) (v : Version) :
  Parse s = Ok v ->
  Version_Validate v = None /\
  Forall valid_segment (map PRVersion_String (Pre v)) /\
  Forall valid_segment (Build v).
Proof.
  intros H.
  destruct (Parse_inv s v H)
    as (p & rev & pre & build & Hne & F & E1 & E2 & E3 & E4 & E5 & E6 & Ev).
  rewrite Ev. unfold Version_Validate. cbn [Pre Build].
  rewrite (parse_prerelease_valid _ _ _ E5 eq_refl).
  rewrite (parse_build_valid _ _ _ E6 eq_refl).
  split; [reflexivity |]. split.
  - rewrite (parse_prerelease_strings _ _ _ E5). simpl.
    apply (parse_prerelease_segments _ _ _ E5).
  - rewrite (parse_build_spec _ _ _ E6). simpl.
    apply (parse_build_segments _ _ _ E6).
Qed.

Lemma Parse_Validate_witness :
  let v := mkVersion 1 2 3 (-1)
             [mkPRVersion "rc" 0 false; mkPRVersion "" 7 true] ["build"; "01"] in
  Version_Validate v = None /\
  Forall valid_segment (map PRVersion_String (Pre v)) /\
  Forall valid_segment (Build v).
Proof.
  intros v. apply (Parse_Validate "1.2.3-rc.7+build.01" v).
  vm_compute. reflexivity.
Defined.

(** ** The strict pattern accepts the numerals it describes *)

Lemma find_from_first (re : regex) (pos : nat) (s : string) (res : parts) :
  exec re accept pos s no_parts = Some res -> find_from re pos s = Some res.
Proof. intros H. destruct s; simpl; rewrite H; reflexivity. Qed.

Lemma exec_Class_cons ranges (k : cont) pos a s caps :
  exec (Class ranges) k pos (String a s) caps =
  if in_class ranges a then k (S pos) s caps else None.
Proof. reflexivity. Qed.

(** A star over a class takes all the bytes of the class when the
    continuation accepts what follows them. *)
Lemma iter_star_class_greedy ranges (k : cont) (l rest : string) :
  all_in ranges l = true -> not_first ranges rest ->
  forall n pos caps res,
    (String.length l <= n)%nat ->
    k (pos + String.length l)%nat rest caps = Some res ->
    iter_star (exec (Class ranges)) k n pos (l ++ rest) caps = Some res.
Proof.
  intros Hl Hrest. induction l as [| a l IH]; intros n pos caps res Hn Hk.
  - simpl in Hk. rewrite Nat.add_0_r in Hk. cbn [append].
    destruct n as [| n]; cbn [iter_star]; [exact Hk |].
    destruct rest as [| b rest]; [exact Hk |].
    simpl in Hrest. rewrite exec_Class_cons, Hrest. exact Hk.
  - simpl in Hl. apply andb_prop in Hl. destruct Hl as [Ha Hl].
    destruct n as [| n]; [simpl in Hn; lia |].
    cbn [iter_star append]. rewrite exec_Class_cons, Ha.
    replace (Nat.ltb pos (S pos)) with true
      by (symmetry; apply Nat.ltb_lt; lia).
    rewrite (IH Hl n (S pos) caps res); [reflexivity | simpl in Hn; lia |].
    simpl in Hk. rewrite Nat.add_succ_r in Hk. exact Hk.
Qed.

Lemma exec_star_class_greedy ranges (k : cont) (l rest : string) pos caps res :
  all_in ranges l = true -> not_first ranges rest ->
  k (pos + String.length l)%nat rest caps = Some res ->
  exec (Star (Class ranges)) k pos (l ++ rest) caps = Some res.
Proof.
  intros Hl Hrest Hk. simpl.
  apply iter_star_class_greedy; auto. rewrite length_append. lia.
Qed.

Lemma exec_numeric_complete (k : cont) (d rest : string) pos caps res :
  canonical d -> not_first digits rest ->
  k (pos + String.length d)%nat rest caps = Some res ->
  exec numeric k pos (d ++ rest) caps = Some res.
Proof.
  intros [-> | (a & d' & -> & Ha & Hd)] Hrest Hk.
  - simpl in Hk. rewrite Nat.add_1_r in Hk.
    unfold numeric. cbn [exec append]. simpl Ascii.eqb. cbv iota. rewrite Hk.
    reflexivity.
  - unfold numeric. cbn [exec append]. rewrite (nonzero_not_zero a Ha).
    unfold nonzero. rewrite exec_Class_cons, Ha. unfold digit.
    apply (iter_star_class_greedy digits); auto.
    + rewrite length_append. lia.
    + simpl in Hk. rewrite Nat.add_succ_r in Hk. exact Hk.
Qed.

Lemma exec_numeric_group_complete g (k : cont) (d rest : string) pos caps res :
  canonical d -> not_first digits rest ->
  k (pos + String.length d)%nat rest (set_part g d caps) = Some res ->
  exec (Group g numeric) k pos (d ++ rest) caps = Some res.
Proof.
  intros Hd Hrest Hk. cbn [exec].
  apply exec_numeric_complete; auto.
  replace (pos + String.length d - pos)%nat with (String.length d) by lia.
  rewrite substring_prefix. exact Hk.
Qed.

Lemma exec_seq_numeric_group g r (k : cont) (d rest : string) pos caps res :
  canonical d -> not_first digits rest ->
  exec r k (pos + String.length d)%nat rest (set_part g d caps) = Some res ->
  exec (Seq (Group g numeric) r) k pos (d ++ rest) caps = Some res.
Proof.
  intros Hd Hrest Hk.
  exact (exec_numeric_group_complete g (exec r k) d rest pos caps res Hd Hrest Hk).
Qed.

Lemma exec_seq_chr c r (k : cont) (rest : string) pos caps :
  exec (Seq (Chr c) r) k pos (String c rest) caps = exec r k (S pos) rest caps.
Proof. cbn [exec]. rewrite Ascii.eqb_refl. reflexivity. Qed.

(** The groups of the strict pattern on [M.m.p] and [M.m.p.r]. *)
Lemma strict_complete (M m p r : string) :
  canonical M -> canonical m -> canonical p -> r = "" \/ canonical r ->
  FindStringSubmatch KongVersionRegex
    (M ++ "." ++ m ++ "." ++ p ++ opt_part "." r) = Some (mkParts M m p r "" "").
Proof.
  intros HM Hm Hp Hr. unfold FindStringSubmatch. apply find_from_first.
  unfold KongVersionRegex, kongVersionRegexFormat.
  cbn [exec Nat.eqb].
  change (exec (Group major numeric)
            (exec (Chr "." +> Group minor numeric +> Chr "." +>
                   Group patch numeric +>
                   Opt (Chr "." +> Group revision numeric) +>
                   Opt (Chr "-" +> Group prerelease
                          (identifier +> Star (Chr "." +> identifier))) +>
                   Opt (Chr "+" +> Group buildmetadata build_ids) +> Eot)
               accept) 0
            (M ++ String "." (m ++ String "." (p ++ opt_part "." r)))
            no_parts = Some (mkParts M m p r "" "")).
  apply exec_numeric_group_complete; [exact HM | reflexivity |].
  rewrite exec_seq_chr.
  apply exec_seq_numeric_group; [exact Hm | reflexivity |].
  rewrite exec_seq_chr.
  destruct Hr as [-> | Hr].
  - simpl opt_part.
    apply exec_seq_numeric_group; [exact Hp | exact I |].
    reflexivity.
  - destruct (canonical_nonempty r Hr) as (a & r' & Er).
    replace (opt_part "." r) with (String "." (r ++ ""))
      by (rewrite append_nil_r, Er; reflexivity).
    apply exec_seq_numeric_group; [exact Hp | reflexivity |].
    cbn [exec Opt]. rewrite Ascii.eqb_refl.
    fold numeric.
    match goal with
    | |- match ?e with _ => _ end = _ =>
        assert (E : e = Some (mkParts M m p r "" ""))
    end.
    { apply exec_numeric_complete; [exact Hr | exact I |].
      match goal with
      | |- context [(?x + ?y - ?x)%nat] =>
          replace (x + y - x)%nat with y by lia
      end.
      rewrite substring_prefix. reflexivity. }
    rewrite E. reflexivity.
Qed.

(** ** The numeric groups of the tolerant pattern *)

Lemma ranges_eqb_eq (r1 r2 : list (ascii * ascii)) :
  ranges_eqb r1 r2 = true -> r1 = r2.
Proof.
  revert r2. induction r1 as [| [a1 b1] r1 IH]; intros [| [a2 b2] r2] H;
    simpl in H; try discriminate H; [reflexivity |].
  apply andb_prop in H. destruct H as [H H3].
  apply andb_prop in H. destruct H as [H1 H2].
  apply Ascii.eqb_eq in H1, H2. subst. rewrite (IH r2 H3). reflexivity.
Qed.

Lemma is_digit_run_eq (r : regex) : is_digit_run r = true -> r = Plus digit.
Proof.
  destruct r as [| | | | | r1 r2 | | |]; try discriminate.
  destruct r1; try discriminate. destruct r2; try discriminate.
  destruct r2; try discriminate. simpl. intros H.
  apply andb_prop in H. destruct H as [H1 H2].
  apply ranges_eqb_eq in H1, H2. subst. reflexivity.
Qed.

Lemma digit_parts_set (g : group) (x : string) (c : parts) :
  digit_parts c ->
  match g with
  | major | minor | patch | revision => all_in digits x = true
  | prerelease | buildmetadata => True
  end ->
  digit_parts (set_part g x c).
Proof.
  unfold digit_parts. intros (H1 & H2 & H3 & H4) H.
  destruct g; simpl; auto.
Qed.

Lemma Lang_digit_groups r pos d rest c c' :
  Lang r pos d rest c c' -> digit_groups r = true ->
  digit_parts c -> digit_parts c'.
Proof.
  induction 1; simpl; intros G Hc; auto.
  - apply andb_prop in G. destruct G as [G1 G2]. auto.
  - apply andb_prop in G. destruct G as [G1 G2]. auto.
  - apply andb_prop in G. destruct G as [G1 G2]. auto.
  - assert (N : is_digit_run r = true ->
                digit_parts c1 /\ all_in digits d = true).
    { intros R. apply is_digit_run_eq in R. subst r.
      apply Lang_Plus_Class_inv in H. destruct H as (Hd & _ & ->). auto. }
    assert (P : groupless r = true -> digit_parts c1).
    { intros R. rewrite (Lang_groupless _ _ _ _ _ _ H R). exact Hc. }
    destruct g;
      first [destruct (N G) as [N1 N2] | pose proof (P G) as N1];
      apply digit_parts_set; auto.
Qed.

Lemma tolerant_shape (s : string) (p : parts) :
  FindStringSubmatch KongTolerantVersionRegex s = Some p -> digit_parts p.
Proof.
  unfold FindStringSubmatch. intros H. apply find_from_sound in H.
  destruct H as (pos' & pre & d & rest & _ & _ & L).
  apply (Lang_digit_groups _ _ _ _ _ _ L); [reflexivity |].
  repeat split.
Qed.

(** ** Stripping leading zeroes *)

Lemma digit_cases (a : ascii) :
  in_class digits a = true ->
  a = "0"%char \/ in_class [("1", "9")]%char a = true.
Proof.
  destruct a as [[|] [|] [|] [|] [|] [|] [|] [|]]; vm_compute; intros H;
    first [discriminate H | left; reflexivity | right; reflexivity].
Qed.

Lemma TrimLeft0_digits (x : string) :
  all_in digits x = true ->
  TrimLeft0 x = "" \/
  exists a x', TrimLeft0 x = String a x' /\
               in_class [("1", "9")]%char a = true /\ all_in digits x' = true.
Proof.
  induction x as [| a x IH]; simpl; [auto |].
  intros H. apply andb_prop in H. destruct H as [Ha Hx].
  destruct (digit_cases a Ha) as [-> | Hnz].
  - simpl. exact (IH Hx).
  - rewrite (nonzero_not_zero a Hnz). right. exists a, x. auto.
Qed.

Lemma strip_zeroes_empty (x : string) : strip_zeroes x = "" <-> x = "".
Proof.
  unfold strip_zeroes. split.
  - destruct (len x >? 1) eqn:E.
    + destruct (Z.eqb_spec (len (TrimLeft0 x)) 0) as [E0 | E0];
        [discriminate |]. intros T. rewrite T in E0. contradiction E0.
      reflexivity.
    + auto.
  - intros ->. reflexivity.
Qed.

Lemma strip_zeroes_canonical (x : string) :
  all_in digits x = true -> x <> "" -> canonical (strip_zeroes x).
Proof.
  intros Hx Hne. unfold strip_zeroes.
  destruct (Z.gtb_spec (len x) 1) as [G | G].
  - destruct (TrimLeft0_digits x Hx) as [T | (a & x' & T & Ha & Hx')];
      rewrite T.
    + left. reflexivity.
    + rewrite len_cons. pose proof (len_nonneg x').
      destruct (Z.eqb_spec (1 + len x') 0); [lia |].
      right. exists a, x'. auto.
  - destruct x as [| a x']; [contradiction |].
    rewrite len_cons in G. pose proof (len_nonneg x').
    assert (x' = "") as -> by (apply len_zero; lia).
    simpl in Hx. rewrite andb_true_r in Hx.
    destruct (digit_cases a Hx) as [-> | Hnz].
    + left. reflexivity.
    + right. exists a, "". auto.
Qed.

Lemma decimal_value_zero_cons (x : string) :
  x <> "" -> decimal_value (String "0" x) = decimal_value x.
Proof.
  intros Hne. unfold decimal_value. destruct x as [| a x']; [contradiction |].
  change (NilZero.uint_of_string (String "0" (String a x')))
    with (option_map Decimal.D0 (NilZero.uint_of_string (String a x'))).
  destruct (NilZero.uint_of_string (String a x')); reflexivity.
Qed.

Lemma decimal_value_TrimLeft0 (x : string) :
  x <> "" ->
  decimal_value (if len (TrimLeft0 x) =? 0 then "0" else TrimLeft0 x) =
  decimal_value x.
Proof.
  induction x as [| a x IH]; [contradiction |]. intros _.
  simpl TrimLeft0. destruct (Ascii.eqb_spec a "0") as [-> | Hne].
  - destruct x as [| b x'].
    + reflexivity.
    + rewrite IH by discriminate. symmetry. apply decimal_value_zero_cons.
      discriminate.
  - rewrite len_cons. pose proof (len_nonneg x).
    destruct (Z.eqb_spec (1 + len x) 0); [lia | reflexivity].
Qed.

Lemma decimal_value_strip_zeroes (x : string) :
  decimal_value (strip_zeroes x) = decimal_value x.
Proof.
  unfold strip_zeroes. destruct (Z.gtb_spec (len x) 1) as [G | G];
    [| reflexivity].
  apply decimal_value_TrimLeft0. intros ->. unfold len in G. simpl in G. lia.
Qed.

Lemma decimal_value_canonical (x : string) :
  canonical x -> exists n, decimal_value x = Some n /\ 0 <= n.
Proof.
  intros Hc. unfold decimal_value.
  assert (D : forall y, all_in digits y = true ->
                exists d, NilEmpty.uint_of_string y = Some d).
  { induction y as [| a y IH]; simpl; [eauto |].
    intros H. apply andb_prop in H. destruct H as [Ha Hy].
    destruct (IH Hy) as (d & ->).
    destruct a as [[|] [|] [|] [|] [|] [|] [|] [|]]; vm_compute in Ha;
      try discriminate Ha; simpl; eauto. }
  assert (Hd : all_in digits x = true /\ x <> "").
  { destruct Hc as [-> | (a & x' & -> & Ha & Hx')]; [split; [reflexivity | discriminate] |].
    split; [| discriminate]. simpl. rewrite Hx', andb_true_r.
    destruct a as [[|] [|] [|] [|] [|] [|] [|] [|]]; vm_compute in Ha;
      try discriminate Ha; reflexivity. }
  destruct Hd as [Hd Hne]. destruct (D x Hd) as (d & E).
  destruct x as [| a x']; [contradiction |].
  change (NilZero.uint_of_string (String a x'))
    with (NilEmpty.uint_of_string (String a x')).
  rewrite E. eexists. split; [reflexivity | lia].
Qed.

(** ** Short forms in [ParseTolerant] *)

Lemma len_eqb_zero (x : string) :
  (len x =? 0) = match x with EmptyString => true | _ => false end.
Proof.
  destruct x as [| a x']; [reflexivity |].
  rewrite len_cons. pose proof (len_nonneg x').
  destruct (Z.eqb_spec (1 + len x') 0); [lia | reflexivity].
Qed.

Lemma len_gtb_zero (x : string) :
  (len x >? 0) = match x with EmptyString => false | _ => true end.
Proof.
  destruct x as [| a x']; [reflexivity |]. apply len_cons_pos.
Qed.

Lemma len_strip_zeroes (x : string) :
  (len (strip_zeroes x) =? 0) = (len x =? 0).
Proof.
  rewrite !len_eqb_zero. destruct (strip_zeroes x) eqn:E.
  - apply (proj1 (strip_zeroes_empty x)) in E. rewrite E. reflexivity.
  - destruct x; [discriminate E | reflexivity].
Qed.

Lemma normalized_canonical (x : string) :
  all_in digits x = true -> canonical (fill_zero (strip_zeroes x)).
Proof.
  intros Hx. unfold fill_zero. rewrite len_strip_zeroes, len_eqb_zero.
  destruct x as [| a x']; [left; reflexivity |].
  apply strip_zeroes_canonical; [exact Hx | discriminate].
Qed.

Lemma ParseUint_normalized (x : string) :
  all_in digits x = true ->
  ParseUint (fill_zero (strip_zeroes x)) =
  if numeric_field x <? two64 then Ok (numeric_field x)
  else Err (ErrRange (fill_zero (strip_zeroes x))).
Proof.
  intros Hx. unfold fill_zero. rewrite len_strip_zeroes, len_eqb_zero.
  destruct x as [| a x']; [reflexivity |].
  unfold ParseUint, numeric_field. rewrite decimal_value_strip_zeroes.
  assert (Hc : canonical (strip_zeroes (String a x')))
    by (apply strip_zeroes_canonical; [exact Hx | discriminate]).
  destruct (decimal_value_canonical _ Hc) as (n & E & _).
  rewrite decimal_value_strip_zeroes in E. rewrite E. reflexivity.
Qed.

Lemma ParseInt_canonical (r : string) :
  canonical r ->
  ParseInt r =
  if numeric_field r >=? two63 then Err (ErrRange r) else Ok (numeric_field r).
Proof.
  intros Hc. destruct (decimal_value_canonical r Hc) as (n & E & Hn).
  unfold numeric_field. rewrite E.
  assert (Hd : exists a s', r = String a s' /\ Ascii.eqb a "-" = false /\
                            Ascii.eqb a "+" = false).
  { destruct Hc as [-> | (a & s' & -> & Ha & _)].
    - exists "0"%char, "". auto.
    - exists a, s'. split; [reflexivity |]. split.
      + destruct (Ascii.eqb_spec a "-") as [-> | _]; [| reflexivity].
        vm_compute in Ha. discriminate Ha.
      + destruct (Ascii.eqb_spec a "+") as [-> | _]; [| reflexivity].
        vm_compute in Ha. discriminate Ha. }
  destruct Hd as (a & s' & -> & Hm & Hp).
  unfold ParseInt. rewrite Hm, Hp. simpl orb. cbv iota. rewrite E. simpl.
  destruct (n >=? two63); reflexivity.
Qed.

Lemma revision_normalized (x : string) :
  all_in digits x = true ->
  (strip_zeroes x = "" \/ canonical (strip_zeroes x)) /\
  (if len (strip_zeroes x) >? 0 then ParseInt (strip_zeroes x) else Ok (-1)) =
  if revision_field x >=? two63 then Err (ErrRange (strip_zeroes x))
  else Ok (revision_field x).
Proof.
  intros Hx. destruct x as [| a x'].
  - split; [left |]; reflexivity.
  - assert (Hc : canonical (strip_zeroes (String a x')))
      by (apply strip_zeroes_canonical; [exact Hx | discriminate]).
    split; [right; exact Hc |].
    destruct (canonical_nonempty _ Hc) as (b & y & E).
    rewrite len_gtb_zero, E, <- E. rewrite (ParseInt_canonical _ Hc).
    unfold revision_field, numeric_field.
    rewrite decimal_value_strip_zeroes. reflexivity.
Qed.

Lemma generate_version_short (a b c r : string) :
  generate_version a b c r "" "" = a ++ "." ++ b ++ "." ++ c ++ opt_part "." r.
Proof.
  unfold generate_version. rewrite len_gtb_zero.
  destruct r as [| x r']; simpl.
  - rewrite !append_nil_r. reflexivity.
  - rewrite !append_assoc. simpl. rewrite !append_assoc. reflexivity.
Qed.

(** [Parse] on a text [M.m.p] or [M.m.p.r] of numerals. *)
Lemma Parse_numerals (M m p r : string) :
  canonical M -> canonical m -> canonical p -> r = "" \/ canonical r ->
  Parse (M ++ "." ++ m ++ "." ++ p ++ opt_part "." r) =
  (major <- ParseUint M ;;
   minor <- ParseUint m ;;
   patch <- ParseUint p ;;
   revision <- (if len r >? 0 then ParseInt r else Ok (-1)) ;;
   Ok (mkVersion major minor patch revision [] [])).
Proof.
  intros HM Hm Hp Hr. unfold Parse.
  rewrite (strict_complete M m p r HM Hm Hp Hr).
  destruct (canonical_nonempty M HM) as (a & M' & ->).
  rewrite len_eqb_zero. cbn [append get_part part_major part_minor part_patch
    part_revision part_prerelease part_buildmetadata].
  destruct (ParseUint (String a M')); [| reflexivity].
  destruct (ParseUint m); [| reflexivity].
  destruct (ParseUint p); [| reflexivity].
  cbn [bind].
  destruct (if len r >? 0 then ParseInt r else Ok (-1)); reflexivity.
Qed.

(** What [ParseTolerant] does once the tolerant pattern has matched. *)
Lemma ParseTolerant_matched (s : string) (p : parts) :
  FindStringSubmatch KongTolerantVersionRegex s = Some p ->
  ParseTolerant s =
  if (len (part_patch p) =? 0) || (len (part_minor p) =? 0) ||
     (len (part_major p) =? 0)
  then
    if (len (part_prerelease p) >? 0) || (len (part_buildmetadata p) >? 0)
    then Err ErrShortVersion
    else Parse (generate_version
                  (fill_zero (strip_zeroes (part_major p)))
                  (fill_zero (strip_zeroes (part_minor p)))
                  (fill_zero (strip_zeroes (part_patch p)))
                  (strip_zeroes (part_revision p))
                  (part_prerelease p) (part_buildmetadata p))
  else Parse (generate_version
                (strip_zeroes (part_major p)) (strip_zeroes (part_minor p))
                (strip_zeroes (part_patch p)) (strip_zeroes (part_revision p))
                (part_prerelease p) (part_buildmetadata p)).
Proof.
  intros F. unfold ParseTolerant. rewrite F. cbv zeta. unfold get_part.
  rewrite !len_strip_zeroes. reflexivity.
Qed.

Lemma not_has_suffix (p : parts) :
  ~ has_suffix p -> part_prerelease p = "" /\ part_buildmetadata p = "".
Proof.
  unfold has_suffix. intros H.
  destruct (part_prerelease p); [| exfalso; apply H; left; discriminate].
  destruct (part_buildmetadata p); [| exfalso; apply H; right; discriminate].
  auto.
Qed.

(** [Parse] on the strict-form text built for a short form. *)
Lemma Parse_short_form_text (p : parts) :
  digit_parts p ->
  Parse (short_form_text p) =
  if (numeric_field (part_major p) <? two64) &&
     (numeric_field (part_minor p) <? two64) &&
     (numeric_field (part_patch p) <? two64)
  then
    if revision_field (part_revision p) >=? two63
    then Err (ErrRange (strip_zeroes (part_revision p)))
    else Ok (mkVersion (numeric_field (part_major p))
               (numeric_field (part_minor p)) (numeric_field (part_patch p))
               (revision_field (part_revision p)) [] [])
  else
    if numeric_field (part_major p) <? two64 then
      if numeric_field (part_minor p) <? two64
      then Err (ErrRange (fill_zero (strip_zeroes (part_patch p))))
      else Err (ErrRange (fill_zero (strip_zeroes (part_minor p))))
    else Err (ErrRange (fill_zero (strip_zeroes (part_major p)))).
Proof.
  intros (H1 & H2 & H3 & H4). unfold short_form_text.
  destruct (revision_normalized _ H4) as [Hr Er].
  rewrite (Parse_numerals _ _ _ _ (normalized_canonical _ H1)
             (normalized_canonical _ H2) (normalized_canonical _ H3) Hr).
  rewrite (ParseUint_normalized _ H1), (ParseUint_normalized _ H2),
    (ParseUint_normalized _ H3), Er.
  destruct (numeric_field (part_major p) <? two64); [| reflexivity].
  destruct (numeric_field (part_minor p) <? two64); [| reflexivity].
  destruct (numeric_field (part_patch p) <? two64); [| reflexivity].
  cbn [bind andb].
  destruct (revision_field (part_revision p) >=? two63); reflexivity.
Qed.

(** C8, as amended.  When the tolerant pattern matches with one of major,
    minor and patch absent: with a pre-release or build suffix
    [ParseTolerant] fails with the short-version error; without one it
    parses the strict-form text in which the absent fields are "0", and
    this succeeds, giving the numbers of the text with 0 for the absent
    fields, when major, minor and patch are below 2^64 and the revision is
    below 2^63, and fails with the range error of [strconv] otherwise.  "1.2" gives the version of "1.2.0" and
    "1.2-alpha" fails. *)
Theorem ParseTolerant_short_form (s : string) (p : parts) :
  (FindStringSubmatch KongTolerantVersionRegex s = Some p ->
   short_form p ->
   (has_suffix p -> ParseTolerant s = Err ErrShortVersion) /\
   (~ has_suffix p ->
    ParseTolerant s = Parse (short_form_text p) /\
    (fields_fit p ->
     ParseTolerant s =
     Ok (mkVersion (numeric_field (part_major p))
           (numeric_field (part_minor p)) (numeric_field (part_patch p))
           (revision_field (part_revision p)) [] [])) /\
    (~ fields_fit p -> exists t, ParseTolerant s = Err (ErrRange t)))) /\
  ParseTolerant "1.2" = Parse "1.2.0" /\
  Parse "1.2.0" = Ok (mkVersion 1 2 0 (-1) [] []) /\
  ParseTolerant "1.2-alpha" = Err ErrShortVersion.
Proof.
  split; [| repeat split; vm_compute; reflexivity].
  intros F Hshort. rewrite (ParseTolerant_matched s p F).
  assert (S : (len (part_patch p) =? 0) || (len (part_minor p) =? 0) ||
              (len (part_major p) =? 0) = true).
  { rewrite !len_eqb_zero. destruct Hshort as [-> | [-> | ->]];
      rewrite ?orb_true_r; reflexivity. }
  rewrite S. split.
  - intros [H | H]; rewrite !len_gtb_zero.
    + destruct (part_prerelease p); [contradiction | reflexivity].
    + destruct (part_buildmetadata p); [contradiction |].
      rewrite orb_true_r. reflexivity.
  - intros H. destruct (not_has_suffix p H) as [-> ->].
    simpl orb. cbv iota. rewrite generate_version_short.
    fold (short_form_text p).
    split; [reflexivity |].
    rewrite (Parse_short_form_text p (tolerant_shape s p F)).
    unfold fields_fit. split.
    + intros (F1 & F2 & F3 & F4).
      apply Z.ltb_lt in F1, F2, F3. rewrite F1, F2, F3. simpl.
      destruct (Z.geb_spec (revision_field (part_revision p)) two63);
        [lia | reflexivity].
    + intros N.
      destruct (Z.ltb_spec (numeric_field (part_major p)) two64);
        [| simpl; eauto].
      destruct (Z.ltb_spec (numeric_field (part_minor p)) two64);
        [| simpl; eauto].
      destruct (Z.ltb_spec (numeric_field (part_patch p)) two64);
        [| simpl; eauto].
      simpl.
      destruct (Z.geb_spec (revision_field (part_revision p)) two63);
        [eauto |].
      exfalso. apply N. repeat split; lia.
Qed.

Lemma ParseTolerant_short_form_witness :
  let p := mkParts "1" "02" "" "" "" "" in
  let q := mkParts "1" "2" "" "" "alpha" "" in
  ParseTolerant "1.02" = Ok (mkVersion 1 2 0 (-1) [] []) /\
  ParseTolerant "1.2-alpha" = Err ErrShortVersion.
Proof.
  intros p q. split.
  - apply (proj1 (proj2 (proj2 (proj1 (ParseTolerant_short_form "1.02" p)
             eq_refl (or_intror (or_intror eq_refl)))
             (fun H => match H with
                       | or_introl A => A eq_refl
                       | or_intror B => B eq_refl
                       end)))).
    unfold fields_fit, two64, two63. vm_compute. repeat split; reflexivity.
  - apply (proj1 (proj1 (ParseTolerant_short_form "1.2-alpha" q)
             eq_refl (or_intror (or_intror eq_refl)))).
    left. discriminate.
Defined.

(** C8 as stated fails: "99999999999999999999.1" has no patch and no suffix,
    and [ParseTolerant] fails on it because the major does not fit 64 bits. *)
Lemma ParseTolerant_short_form_overflow :
  ~ (forall s p,
       FindStringSubmatch KongTolerantVersionRegex s = Some p ->
       short_form p -> ~ has_suffix p ->
       exists v, ParseTolerant s = Ok v).
Proof.
  intros H.
  destruct (H "99999999999999999999.1"
              (mkParts "99999999999999999999" "1" "" "" "" "")) as (v & E).
  - vm_compute. reflexivity.
  - right. right. reflexivity.
  - intros [A | A]; apply A; reflexivity.
  - vm_compute in E. discriminate E.
Qed.

(** ** The tolerant pattern accepts what the strict pattern accepts *)

Lemma exec_Seq r1 r2 (k : cont) pos s caps :
  exec (Seq r1 r2) k pos s caps = exec r1 (exec r2 k) pos s caps.
Proof. reflexivity. Qed.

Lemma exec_Star r (k : cont) pos s caps :
  exec (Star r) k pos s caps = iter_star (exec r) k (String.length s) pos s caps.
Proof. reflexivity. Qed.

Lemma exec_Alt r1 r2 (k : cont) pos s caps :
  exec (Alt r1 r2) k pos s caps =
  match exec r1 k pos s caps with
  | Some res => Some res
  | None => exec r2 k pos s caps
  end.
Proof. reflexivity. Qed.

Lemma exec_Opt_take r (k : cont) pos s caps res :
  exec r k pos s caps = Some res -> exec (Opt r) k pos s caps = Some res.
Proof. intros H. unfold Opt. rewrite exec_Alt, H. reflexivity. Qed.

Lemma exec_Chr_skip c (k : cont) pos s caps :
  not_first_char c s -> exec (Chr c) k pos s caps = None.
Proof.
  intros H. destruct s as [| a s]; cbn [exec]; [reflexivity |].
  simpl in H. rewrite H. reflexivity.
Qed.

Lemma exec_Opt_Chr_skip c r (k : cont) pos s caps :
  not_first_char c s ->
  exec (Opt (Seq (Chr c) r)) k pos s caps = k pos s caps.
Proof.
  intros H. unfold Opt. rewrite exec_Alt, exec_Seq.
  rewrite exec_Chr_skip by exact H. reflexivity.
Qed.

Lemma exec_Group g r (k : cont) pos s caps :
  exec (Group g r) k pos s caps =
  exec r (fun pos' s' caps' =>
            k pos' s' (set_part g (String.substring 0 (pos' - pos) s) caps'))
    pos s caps.
Proof. reflexivity. Qed.

(** A group around a pattern that takes the text [d]. *)
Lemma exec_Group_complete g r (k : cont) (d rest : string) pos caps res :
  (forall k', k' (pos + String.length d)%nat rest caps = Some res ->
              exec r k' pos (d ++ rest) caps = Some res) ->
  k (pos + String.length d)%nat rest (set_part g d caps) = Some res ->
  exec (Group g r) k pos (d ++ rest) caps = Some res.
Proof.
  intros Hr Hk. rewrite exec_Group. apply Hr.
  replace (pos + String.length d - pos)%nat with (String.length d) by lia.
  rewrite substring_prefix. exact Hk.
Qed.

Lemma exec_Plus_class_greedy ranges (k : cont) (l rest : string) pos caps res :
  all_in ranges l = true -> l <> "" -> not_first ranges rest ->
  k (pos + String.length l)%nat rest caps = Some res ->
  exec (Plus (Class ranges)) k pos (l ++ rest) caps = Some res.
Proof.
  intros Hl Hne Hrest Hk. destruct l as [| a l]; [contradiction |].
  simpl in Hl. apply andb_prop in Hl. destruct Hl as [Ha Hl].
  unfold Plus. rewrite exec_Seq. cbn [append]. rewrite exec_Class_cons, Ha.
  apply exec_star_class_greedy; auto.
  simpl in Hk. rewrite Nat.add_succ_r in Hk. exact Hk.
Qed.

(** *** Facts on the classes *)

Lemma digits_alnums (a : ascii) :
  in_class digits a = true -> in_class alnums a = true.
Proof.
  unfold in_class, digits, alnums. simpl. intros H.
  rewrite orb_false_r in H. rewrite H. reflexivity.
Qed.

Lemma letters_facts (a : ascii) :
  in_class letters a = true ->
  in_class digits a = false /\ in_class alnums a = true.
Proof.
  destruct a as [[|] [|] [|] [|] [|] [|] [|] [|]]; vm_compute; intros H;
    first [discriminate H | split; reflexivity].
Qed.

Lemma alnums_facts (a : ascii) :
  in_class alnums a = true ->
  Ascii.eqb a "." = false /\ Ascii.eqb a "+" = false /\
  in_class spaces a = false.
Proof.
  destruct a as [[|] [|] [|] [|] [|] [|] [|] [|]]; vm_compute; intros H;
    first [discriminate H | repeat split; reflexivity].
Qed.

Lemma spaces_facts (a : ascii) :
  in_class spaces a = true ->
  in_class digits a = false /\ in_class alnums a = false /\
  Ascii.eqb a "." = false /\ Ascii.eqb a "+" = false /\
  Ascii.eqb a "-" = false /\ Ascii.eqb a "v" = false.
Proof.
  destruct a as [[|] [|] [|] [|] [|] [|] [|] [|]]; vm_compute; intros H;
    first [discriminate H | repeat split; reflexivity].
Qed.

Lemma all_in_digits_alnums (s : string) :
  all_in digits s = true -> all_in alnums s = true.
Proof.
  induction s as [| a s IH]; [reflexivity |]. cbn [all_in]. intros H.
  apply andb_prop in H. destruct H as [Ha Hs].
  rewrite (digits_alnums a Ha), (IH Hs). reflexivity.
Qed.

Lemma canonical_digits (x : string) :
  canonical x -> all_in digits x = true /\ x <> "".
Proof.
  intros [-> | (a & x' & -> & Ha & Hx')]; [split; [reflexivity | discriminate] |].
  split; [| discriminate]. cbn [all_in]. rewrite Hx', andb_true_r.
  destruct a as [[|] [|] [|] [|] [|] [|] [|] [|]]; vm_compute in Ha;
    try discriminate Ha; reflexivity.
Qed.

Lemma not_first_alnums_digits (s : string) :
  not_first alnums s -> not_first digits s.
Proof.
  destruct s as [| b s]; [auto |]. unfold not_first. intros H.
  destruct (in_class digits b) eqn:E; [| reflexivity].
  apply digits_alnums in E. congruence.
Qed.

(** *** Identifiers *)

(** A star over digits fails when its continuation rejects every text that
    starts with a letter, a digit or a hyphen, and such a byte follows the
    digits. *)
Lemma iter_star_digits_none (k : cont) (l tail : string) a :
  all_in digits l = true -> in_class letters a = true ->
  fails_on_first alnums k ->
  forall n pos caps,
    iter_star (exec (Class digits)) k n pos (l ++ String a tail) caps = None.
Proof.
  intros Hl Ha Hk. destruct (letters_facts a Ha) as [Had Haa].
  induction l as [| d l IH]; intros n pos caps; cbn [append].
  - destruct n as [| n]; cbn [iter_star]; [apply Hk; exact Haa |].
    rewrite exec_Class_cons, Had. apply Hk. exact Haa.
  - cbn [all_in] in Hl. apply andb_prop in Hl. destruct Hl as [Hd Hl].
    destruct n as [| n]; cbn [iter_star];
      [apply Hk; apply digits_alnums; exact Hd |].
    rewrite exec_Class_cons, Hd.
    replace (Nat.ltb pos (S pos)) with true
      by (symmetry; apply Nat.ltb_lt; lia).
    rewrite (IH Hl). apply Hk. apply digits_alnums. exact Hd.
Qed.

Lemma tolerant_identifier_complete (k : cont) (id rest : string) pos caps res :
  strict_identifier id -> not_first alnums rest ->
  fails_on_first alnums k ->
  k (pos + String.length id)%nat rest caps = Some res ->
  exec tolerant_identifier k pos (id ++ rest) caps = Some res.
Proof.
  intros Hid Hrest Hfail Hk.
  pose proof (not_first_alnums_digits rest Hrest) as Hrd.
  unfold tolerant_identifier. rewrite exec_Alt.
  destruct Hid as [Hc | (ds & l & t & -> & Hds & Hl & Ht)].
  - destruct (canonical_digits id Hc) as [Hd Hne].
    change digit with (Class digits).
    rewrite (exec_Plus_class_greedy digits k id rest pos caps res);
      auto.
  - destruct (letters_facts l Hl) as [Hld Hla].
    assert (E1 : exec (Plus digit) k pos ((ds ++ String l t) ++ rest) caps = None).
    { rewrite append_assoc. change digit with (Class digits). unfold Plus. rewrite exec_Seq.
      destruct ds as [| d ds]; cbn [append].
      - rewrite exec_Class_cons, Hld. reflexivity.
      - cbn [all_in] in Hds. apply andb_prop in Hds. destruct Hds as [Hd Hds].
        rewrite exec_Class_cons, Hd, exec_Star.
        apply (iter_star_digits_none k ds (t ++ rest) l); auto. }
    rewrite E1. rewrite exec_Seq, append_assoc.
    change digit with (Class digits).
    apply exec_star_class_greedy; [exact Hds | simpl; exact Hld |].
    rewrite exec_Seq. cbn [append]. change letter with (Class letters).
    rewrite exec_Class_cons, Hl. change alnum with (Class alnums).
    apply (exec_star_class_greedy alnums); [exact Ht | exact Hrest |].
    rewrite length_append in Hk. simpl in Hk.
    replace (S (pos + String.length ds) + String.length t)%nat
      with (pos + (String.length ds + S (String.length t)))%nat by lia.
    exact Hk.
Qed.

Lemma build_segment_complete (k : cont) (id rest : string) pos caps res :
  build_segment id -> not_first alnums rest ->
  fails_on_first alnums k ->
  k (pos + String.length id)%nat rest caps = Some res ->
  exec (Plus alnum) k pos (id ++ rest) caps = Some res.
Proof.
  intros [Hne Hid] Hrest _ Hk. change alnum with (Class alnums).
  apply (exec_Plus_class_greedy alnums); auto.
Qed.

(** *** Dot-separated lists *)

Lemma fails_iter_star_dot (k : cont) (elem : regex) (n : nat) :
  fails_on_first alnums k ->
  fails_on_first alnums (iter_star (exec (Seq (Chr ".") elem)) k n).
Proof.
  intros Hk pos a s caps Ha. destruct (alnums_facts a Ha) as (Hdot & _ & _).
  destruct n as [| n]; cbn [iter_star]; [apply Hk; exact Ha |].
  rewrite exec_Seq, exec_Chr_skip by exact Hdot. apply Hk. exact Ha.
Qed.

Lemma not_first_dotted (ids : list string) (rest : string) :
  ends_list rest -> not_first alnums (dotted ids ++ rest).
Proof.
  intros [H1 H2]. destruct ids as [| id ids]; [exact H1 |]. reflexivity.
Qed.

Lemma iter_star_dotted (P : string -> Prop) (elem : regex) :
  elem_complete P elem ->
  forall (k : cont) ids rest,
    Forall P ids -> ends_list rest -> fails_on_first alnums k ->
    forall n pos caps res,
      (String.length (dotted ids ++ rest) <= n)%nat ->
      k (pos + String.length (dotted ids))%nat rest caps = Some res ->
      iter_star (exec (Seq (Chr ".") elem)) k n pos (dotted ids ++ rest) caps
      = Some res.
Proof.
  intros He k ids rest Hids Hrest Hk.
  induction Hids as [| id ids Hid Hids IH]; intros n pos caps res Hn Hres.
  - simpl in Hres. rewrite Nat.add_0_r in Hres. cbn [dotted append].
    destruct n as [| n]; cbn [iter_star]; [exact Hres |].
    rewrite exec_Seq, exec_Chr_skip by (apply Hrest). exact Hres.
  - cbn [dotted append] in *. rewrite append_assoc in *.
    destruct n as [| n]; [simpl in Hn; lia |]. cbn [iter_star].
    rewrite exec_Seq. cbn [exec]. rewrite Ascii.eqb_refl.
    rewrite (He _ id (dotted ids ++ rest) (S pos) caps res Hid).
    + reflexivity.
    + apply not_first_dotted. exact Hrest.
    + intros pos' a s caps' Ha.
      destruct (Nat.ltb pos pos'); [| reflexivity].
      apply fails_iter_star_dot; assumption.
    + replace (Nat.ltb pos (S pos + String.length id)) with true
        by (symmetry; apply Nat.ltb_lt; lia).
      apply IH.
      * simpl in Hn. rewrite length_append in Hn. lia.
      * simpl in Hres. rewrite length_append in Hres.
        replace (S pos + String.length id + String.length (dotted ids))%nat
          with (pos + S (String.length id + String.length (dotted ids)))%nat
          by lia.
        exact Hres.
Qed.

Lemma dot_list_complete (P : string -> Prop) (elem : regex) :
  elem_complete P elem ->
  forall (k : cont) x rest pos caps res,
    dot_list P x -> ends_list rest -> fails_on_first alnums k ->
    k (pos + String.length x)%nat rest caps = Some res ->
    exec (Seq elem (Star (Seq (Chr ".") elem))) k pos (x ++ rest) caps
    = Some res.
Proof.
  intros He k x rest pos caps res (id & ids & Hid & Hids & ->) Hrest Hk Hres.
  rewrite exec_Seq, append_assoc.
  apply (He _ id (dotted ids ++ rest) pos caps res Hid).
  - apply not_first_dotted. exact Hrest.
  - intros pos' a s caps' Ha. rewrite exec_Star.
    apply fails_iter_star_dot; assumption.
  - rewrite exec_Star.
    apply (iter_star_dotted P elem He); auto.
    rewrite length_append, Nat.add_assoc in Hres. exact Hres.
Qed.

(** *** The end of the tolerant pattern *)

Lemma tolerant_format_eq :
  kongTolerantVersionRegexFormat =
  (Bot +> Opt (Chr "v" </> Star space) +> tolerant_fields)%regex.
Proof. reflexivity. Qed.

Lemma spaces_not_first (ws : string) :
  all_in spaces ws = true ->
  not_first digits ws /\ not_first alnums ws /\ not_first_char "." ws /\
  not_first_char "+" ws /\ not_first_char "-" ws /\ not_first_char "v" ws.
Proof.
  destruct ws as [| a ws]; [repeat split |]. cbn [all_in]. intros H.
  apply andb_prop in H. destruct H as [Ha _].
  destruct (spaces_facts a Ha) as (H1 & H2 & H3 & H4 & H5 & H6).
  unfold not_first, not_first_char. auto 10.
Qed.

Lemma end_complete (ws : string) pos caps :
  all_in spaces ws = true -> exec tolerant_end accept pos ws caps = Some caps.
Proof.
  intros H. unfold tolerant_end. rewrite exec_Seq.
  rewrite <- (append_nil_r ws). change space with (Class spaces).
  apply exec_star_class_greedy; [exact H | exact I | reflexivity].
Qed.

Lemma end_fails (f : parts -> parts) :
  fails_on_first alnums
    (fun pos s caps => exec tolerant_end accept pos s (f caps)).
Proof.
  intros pos a s caps Ha. destruct (alnums_facts a Ha) as (_ & _ & Hs).
  unfold tolerant_end. rewrite exec_Seq, exec_Star.
  change space with (Class spaces). cbn [String.length iter_star].
  rewrite exec_Class_cons, Hs. reflexivity.
Qed.

(** The continuation of a group, once the group has taken [d]. *)
Lemma group_continuation g (k : cont) (d rest : string) pos caps :
  (fun pos' s' caps' =>
     k pos' s' (set_part g (String.substring 0 (pos' - pos) (d ++ rest)) caps'))
    (pos + String.length d)%nat rest caps =
  k (pos + String.length d)%nat rest (set_part g d caps).
Proof.
  cbv beta.
  replace (pos + String.length d - pos)%nat with (String.length d) by lia.
  rewrite substring_prefix. reflexivity.
Qed.

Lemma build_tail_complete (y ws : string) pos caps :
  y = "" \/ dot_list build_segment y -> all_in spaces ws = true ->
  exec tolerant_build accept pos (opt_part "+" y ++ ws) caps =
  Some (set_opt buildmetadata y caps).
Proof.
  intros Hy Hws.
  destruct (spaces_not_first ws Hws) as (W1 & W2 & W3 & W4 & W5 & W6).
  unfold tolerant_build. rewrite exec_Seq.
  destruct Hy as [-> | Hy].
  - cbn [opt_part append set_opt]. rewrite exec_Opt_Chr_skip by exact W4.
    apply end_complete. exact Hws.
  - assert (Hne : exists a y', y = String a y').
    { destruct Hy as (id & ids & [Hid _] & _ & ->).
      destruct id; [contradiction | cbn [append]; eauto]. }
    destruct Hne as (a & y' & Ey).
    replace (opt_part "+" y) with (String "+" y) by (rewrite Ey; reflexivity).
    replace (set_opt buildmetadata y caps) with (set_part buildmetadata y caps)
      by (rewrite Ey; reflexivity).
    cbn [append]. apply exec_Opt_take. rewrite exec_seq_chr, exec_Group.
    unfold build_ids.
    apply (dot_list_complete build_segment (Plus alnum)).
    + exact build_segment_complete.
    + exact Hy.
    + split; assumption.
    + intros pos' b s caps' Hb. apply (end_fails _ pos' b s caps' Hb).
    + rewrite group_continuation. apply end_complete. exact Hws.
Qed.

Lemma build_tail_fails (f : parts -> parts) :
  fails_on_first alnums
    (fun pos s caps => exec tolerant_build accept pos s (f caps)).
Proof.
  intros pos a s caps Ha. destruct (alnums_facts a Ha) as (_ & Hp & _).
  unfold tolerant_build. rewrite exec_Seq.
  rewrite exec_Opt_Chr_skip by exact Hp.
  apply (end_fails f pos a s caps Ha).
Qed.

Lemma build_tail_not_first (y ws : string) :
  all_in spaces ws = true ->
  not_first digits (opt_part "+" y ++ ws) /\
  not_first alnums (opt_part "+" y ++ ws) /\
  not_first_char "." (opt_part "+" y ++ ws) /\
  not_first_char "-" (opt_part "+" y ++ ws).
Proof.
  intros Hws.
  destruct (spaces_not_first ws Hws) as (W1 & W2 & W3 & W4 & W5 & W6).
  destruct y; cbn [opt_part append]; repeat split; assumption.
Qed.

Lemma pre_tail_complete (x y ws : string) pos caps :
  x = "" \/ dot_list strict_identifier x ->
  y = "" \/ dot_list build_segment y -> all_in spaces ws = true ->
  exec tolerant_pre accept pos (opt_part "-" x ++ opt_part "+" y ++ ws) caps =
  Some (set_opt buildmetadata y (set_opt prerelease x caps)).
Proof.
  intros Hx Hy Hws.
  destruct (build_tail_not_first y ws Hws) as (B1 & B2 & B3 & B4).
  unfold tolerant_pre. rewrite exec_Seq.
  destruct Hx as [-> | Hx].
  - cbn [opt_part append set_opt]. rewrite exec_Opt_Chr_skip by exact B4.
    apply build_tail_complete; assumption.
  - assert (Hne : exists a x', x = String a x').
    { destruct Hx as (id & ids & Hid & _ & ->).
      assert (N : id <> "").
      { destruct Hid as [Hc | (ds & l & t & -> & _)].
        - destruct (canonical_nonempty id Hc) as (a & s' & ->). discriminate.
        - destruct ds; discriminate. }
      destruct id; [contradiction | cbn [append]; eauto]. }
    destruct Hne as (a & x' & Ex).
    replace (opt_part "-" x) with (String "-" x) by (rewrite Ex; reflexivity).
    replace (set_opt prerelease x caps) with (set_part prerelease x caps)
      by (rewrite Ex; reflexivity).
    cbn [append]. apply exec_Opt_take. rewrite exec_seq_chr, exec_Group.
    apply (dot_list_complete strict_identifier tolerant_identifier).
    + exact tolerant_identifier_complete.
    + exact Hx.
    + split; assumption.
    + intros pos' b s caps' Hb. apply (build_tail_fails _ pos' b s caps' Hb).
    + rewrite group_continuation. apply build_tail_complete; assumption.
Qed.

Lemma pre_tail_not_first (x y ws : string) :
  all_in spaces ws = true ->
  not_first digits (opt_part "-" x ++ opt_part "+" y ++ ws) /\
  not_first_char "." (opt_part "-" x ++ opt_part "+" y ++ ws).
Proof.
  intros Hws. destruct (build_tail_not_first y ws Hws) as (B1 & B2 & B3 & B4).
  destruct x; cbn [opt_part append]; repeat split; assumption.
Qed.

Lemma rev_tail_complete (r x y ws : string) pos caps :
  r = "" \/ canonical r ->
  x = "" \/ dot_list strict_identifier x ->
  y = "" \/ dot_list build_segment y -> all_in spaces ws = true ->
  exec tolerant_rev accept pos
    (opt_part "." r ++ opt_part "-" x ++ opt_part "+" y ++ ws) caps =
  Some (set_opt buildmetadata y (set_opt prerelease x (set_opt revision r caps))).
Proof.
  intros Hr Hx Hy Hws.
  destruct (pre_tail_not_first x y ws Hws) as (P1 & P2).
  unfold tolerant_rev. rewrite exec_Seq.
  destruct Hr as [-> | Hr].
  - cbn [opt_part append set_opt]. rewrite exec_Opt_Chr_skip by exact P2.
    apply pre_tail_complete; assumption.
  - destruct (canonical_nonempty r Hr) as (a & r' & Er).
    destruct (canonical_digits r Hr) as [Hd Hne].
    replace (opt_part "." r) with (String "." r) by (rewrite Er; reflexivity).
    replace (set_opt revision r caps) with (set_part revision r caps)
      by (rewrite Er; reflexivity).
    cbn [append]. apply exec_Opt_take. rewrite exec_seq_chr, exec_Group.
    change digit with (Class digits).
    apply exec_Plus_class_greedy; [exact Hd | exact Hne | exact P1 |].
    rewrite group_continuation. apply pre_tail_complete; assumption.
Qed.

Lemma rev_tail_not_first (r x y ws : string) :
  all_in spaces ws = true ->
  not_first digits (opt_part "." r ++ opt_part "-" x ++ opt_part "+" y ++ ws).
Proof.
  intros Hws. destruct (pre_tail_not_first x y ws Hws) as (P1 & P2).
  destruct r; cbn [opt_part append]; [assumption | reflexivity].
Qed.

(** *** The numeric fields and the prefix *)

Lemma exec_Opt_Chr_take c (k : cont) (rest : string) pos caps res :
  k (S pos) rest caps = Some res ->
  exec (Opt (Chr c)) k pos (String c rest) caps = Some res.
Proof.
  intros H. apply exec_Opt_take. cbn [exec]. rewrite Ascii.eqb_refl. exact H.
Qed.

Lemma fields_complete (p : parts) (ws : string) pos :
  strict_parts p -> all_in spaces ws = true ->
  exec tolerant_fields accept pos (strict_text p ++ ws) no_parts = Some p.
Proof.
  destruct p as [M m pa r x y]. unfold strict_parts, strict_text.
  cbn [part_major part_minor part_patch part_revision part_prerelease
       part_buildmetadata].
  intros (HM & Hm & Hp & Hr & Hx & Hy) Hws.
  destruct (canonical_digits M HM) as [DM NM].
  destruct (canonical_digits m Hm) as [Dm Nm].
  destruct (canonical_digits pa Hp) as [Dp Np].
  rewrite !append_assoc. cbn [append]. rewrite ?append_assoc.
  unfold tolerant_fields. change digit with (Class digits).
  rewrite exec_Seq. apply exec_Opt_take. rewrite exec_Group.
  apply exec_Plus_class_greedy; [exact DM | exact NM | reflexivity |].
  rewrite group_continuation.
  rewrite exec_Seq. apply exec_Opt_Chr_take.
  rewrite exec_Seq. apply exec_Opt_take. rewrite exec_Group.
  apply exec_Plus_class_greedy; [exact Dm | exact Nm | reflexivity |].
  rewrite group_continuation.
  rewrite exec_Seq. apply exec_Opt_Chr_take.
  rewrite exec_Seq. apply exec_Opt_take. rewrite exec_Group.
  apply exec_Plus_class_greedy;
    [exact Dp | exact Np | apply rev_tail_not_first; exact Hws |].
  rewrite group_continuation.
  rewrite rev_tail_complete by assumption.
  destruct r, x, y; reflexivity.
Qed.

Lemma tolerant_prefix_v (body : string) (res : parts) :
  exec tolerant_fields accept 1 body no_parts = Some res ->
  exec KongTolerantVersionRegex accept 0 (String "v" body) no_parts = Some res.
Proof.
  intros H. unfold KongTolerantVersionRegex. rewrite tolerant_format_eq.
  rewrite exec_Seq. cbn [exec Nat.eqb]. fold (Opt (Chr "v" </> Star space)).
  change (exec (Opt (Chr "v" </> Star space)) (exec tolerant_fields accept) 0
            (String "v" body) no_parts = Some res).
  apply exec_Opt_take. rewrite exec_Alt. cbn [exec]. rewrite Ascii.eqb_refl.
  rewrite H. reflexivity.
Qed.

Lemma tolerant_prefix_space (ws body : string) (res : parts) :
  all_in spaces ws = true -> not_first spaces body ->
  not_first_char "v" body ->
  exec tolerant_fields accept (String.length ws) body no_parts = Some res ->
  exec KongTolerantVersionRegex accept 0 (ws ++ body) no_parts = Some res.
Proof.
  intros Hws Hb Hv H. unfold KongTolerantVersionRegex.
  rewrite tolerant_format_eq.
  change (exec (Opt (Chr "v" </> Star space)) (exec tolerant_fields accept) 0
            (ws ++ body) no_parts = Some res).
  apply exec_Opt_take. rewrite exec_Alt.
  assert (V : not_first_char "v" (ws ++ body)).
  { destruct ws as [| a ws]; [exact Hv |].
    destruct (spaces_not_first _ Hws) as (_ & _ & _ & _ & _ & V). exact V. }
  rewrite exec_Chr_skip by exact V.
  change space with (Class spaces).
  apply exec_star_class_greedy; [exact Hws | exact Hb | exact H].
Qed.

Lemma strict_text_first (p : parts) :
  strict_parts p ->
  exists a t, strict_text p = String a t /\ in_class digits a = true.
Proof.
  intros (HM & _). unfold strict_text.
  destruct (canonical_digits _ HM) as [D N].
  destruct (part_major p) as [| a M']; [contradiction |].
  cbn [all_in] in D. apply andb_prop in D. destruct D as [Da _].
  cbn [append]. eauto.
Qed.

Lemma digit_not_space_v (a : ascii) :
  in_class digits a = true ->
  in_class spaces a = false /\ Ascii.eqb a "v" = false.
Proof.
  destruct a as [[|] [|] [|] [|] [|] [|] [|] [|]]; vm_compute; intros H;
    first [discriminate H | split; reflexivity].
Qed.

(** The tolerant pattern finds the groups of the strict text after a "v" or
    whitespace and before whitespace. *)
Lemma tolerant_complete (p : parts) (pfx ws : string) :
  strict_parts p -> pfx = "v" \/ all_in spaces pfx = true ->
  all_in spaces ws = true ->
  FindStringSubmatch KongTolerantVersionRegex (pfx ++ strict_text p ++ ws)
  = Some p.
Proof.
  intros Hp Hpfx Hws. unfold FindStringSubmatch. apply find_from_first.
  destruct Hpfx as [-> | Hpfx].
  - apply tolerant_prefix_v. apply fields_complete; assumption.
  - destruct (strict_text_first p Hp) as (a & t & E & Da).
    destruct (digit_not_space_v a Da) as [N1 N2].
    apply tolerant_prefix_space; [exact Hpfx | | |].
    + rewrite E. exact N1.
    + rewrite E. exact N2.
    + apply fields_complete; assumption.
Qed.

(** *** [ParseTolerant] on strict texts *)

Lemma strip_zeroes_canonical_id (x : string) :
  canonical x -> strip_zeroes x = x.
Proof.
  intros [-> | (a & x' & -> & Ha & _)]; [reflexivity |].
  unfold strip_zeroes. cbn [TrimLeft0]. rewrite (nonzero_not_zero a Ha).
  rewrite len_eqb_zero. destruct (len (String a x') >? 1); reflexivity.
Qed.

Lemma strip_zeroes_optional (x : string) :
  x = "" \/ canonical x -> strip_zeroes x = x.
Proof.
  intros [-> | H]; [reflexivity | apply strip_zeroes_canonical_id; exact H].
Qed.

Lemma generate_version_spec (a b c r x y : string) :
  generate_version a b c r x y =
  a ++ "." ++ b ++ "." ++ c ++ opt_part "." r ++ opt_part "-" x ++
  opt_part "+" y.
Proof.
  unfold generate_version. rewrite !len_gtb_zero.
  destruct r, x, y; cbn [opt_part];
    rewrite ?append_nil_r, ?append_assoc; cbn [append];
    rewrite ?append_assoc; reflexivity.
Qed.

Lemma ParseTolerant_of_strict (s : string) (v : Version) (pfx ws : string) :
  Parse s = Ok v -> pfx = "v" \/ all_in spaces pfx = true ->
  all_in spaces ws = true ->
  ParseTolerant (pfx ++ s ++ ws) = Ok v.
Proof.
  intros H Hpfx Hws. pose proof H as H0.
  apply Parse_inv in H0. destruct H0 as (p & _ & _ & _ & _ & F & _).
  destruct (strict_shape s p F) as (C1 & C2 & C3 & C4 & Es & C5 & C6).
  assert (SP : strict_parts p) by (unfold strict_parts; auto 10).
  fold (strict_text p) in Es.
  assert (T : FindStringSubmatch KongTolerantVersionRegex (pfx ++ s ++ ws)
              = Some p).
  { rewrite Es. apply tolerant_complete; assumption. }
  rewrite (ParseTolerant_matched _ p T), !len_eqb_zero.
  destruct (canonical_nonempty _ C1) as (a1 & t1 & E1).
  destruct (canonical_nonempty _ C2) as (a2 & t2 & E2).
  destruct (canonical_nonempty _ C3) as (a3 & t3 & E3).
  rewrite E1, E2, E3. cbn [orb]. rewrite <- E1, <- E2, <- E3.
  rewrite !strip_zeroes_canonical_id by assumption.
  rewrite (strip_zeroes_optional _ C4), generate_version_spec.
  fold (strict_text p). rewrite <- Es. exact H.
Qed.

(** C3, with the failing input.  For every text [s] that [Parse] accepts,
    [ParseTolerant] returns the same version for "v" followed by [s], also
    with whitespace after it, and for [s] between two runs of whitespace.
    It rejects whitespace followed by "v": on " v1.2.3" it fails although
    [Parse] accepts "1.2.3", because the pattern starts with an optional
    group that is an alternative between "v" and a run of whitespace, not a
    sequence of the two. *)
Theorem ParseTolerant_space_then_v (s : string) (v : Version)
  (ws1 ws2 : string) :
  (Parse s = Ok v ->
   all_in spaces ws1 = true -> all_in spaces ws2 = true ->
   ParseTolerant ("v" ++ s) = Ok v /\
   ParseTolerant ("v" ++ s ++ ws2) = Ok v /\
   ParseTolerant (ws1 ++ s ++ ws2) = Ok v) /\
  Parse "1.2.3" = Ok (mkVersion 1 2 3 (-1) [] []) /\
  ParseTolerant " v1.2.3" = Err (ErrInvalidTolerantVersion " v1.2.3") /\
  MatchString KongTolerantVersionRegex " v1.2.3" = false.
Proof.
  split; [| repeat split; vm_compute; reflexivity].
  intros H H1 H2. split; [| split].
  - rewrite <- (append_nil_r s) at 1.
    apply (ParseTolerant_of_strict s v "v" ""); auto.
  - apply (ParseTolerant_of_strict s v "v" ws2); auto.
  - apply (ParseTolerant_of_strict s v ws1 ws2); auto.
Qed.

Lemma ParseTolerant_space_then_v_witness :
  let v := mkVersion 1 2 3 4 [mkPRVersion "0a" 0 false; mkPRVersion "" 7 true]
             ["b"; "01"] in
  ParseTolerant "v1.2.3.4-0a.7+b.01" = Ok v /\
  ParseTolerant "v1.2.3.4-0a.7+b.01  " = Ok v /\
  ParseTolerant "  1.2.3.4-0a.7+b.01  " = Ok v.
Proof.
  intros v.
  apply (proj1 (ParseTolerant_space_then_v "1.2.3.4-0a.7+b.01" v "  " "  "));
    vm_compute; reflexivity.
Defined.

(** * Further properties *)

(** ** The comparison operators *)

(** X1.  Of [LT], [EQ] and [GT] exactly one holds for any two versions, and
    the other operators are determined by them: [GT] is [LT] with the
    arguments exchanged, [GTE] is the negation of [LT], [LTE] the negation of
    [GT], [NE] the negation of [EQ]; [EQ] is symmetric. *)
Theorem comparison_operators (v o : Version) :
  (Version_LT v o = true \/ Version_EQ v o = true \/ Version_GT v o = true) /\
  (Version_LT v o = true -> Version_EQ v o = false /\ Version_GT v o = false) /\
  (Version_EQ v o = true -> Version_GT v o = false) /\
  Version_GT v o = Version_LT o v /\
  Version_EQ v o = Version_EQ o v /\
  Version_GTE v o = negb (Version_LT v o) /\
  Version_LTE v o = negb (Version_GT v o) /\
  Version_LTE v o = Version_GTE o v /\
  Version_NE v o = negb (Version_EQ v o) /\
  Version_Equals v o = Version_EQ v o /\
  Version_GE v o = Version_GTE v o /\
  Version_LE v o = Version_LTE v o.
Proof.
  unfold Version_LT, Version_EQ, Version_GT, Version_GTE, Version_LTE,
    Version_NE, Version_Equals, Version_GE, Version_LE.
  rewrite (Version_Compare_antisym v o).
  destruct (Version_Compare_range v o) as [E | [E | E]]; rewrite E;
    repeat split; auto; discriminate.
Qed.

Lemma comparison_operators_witness :
  let v := mkVersion 1 2 3 (-1) [] [] in
  let o := mkVersion 1 10 0 (-1) [] [] in
  Version_EQ v o = false /\ Version_GT v o = false.
Proof.
  intros v o.
  apply (proj1 (proj2 (comparison_operators v o))). reflexivity.
Defined.

(** ** The mutators *)



Lemma wrap_int64_small (x : Z) : - two63 <= x < two63 -> wrap_int64 x = x.
Proof.
  intros H. unfold wrap_int64. rewrite Z.mod_small; [lia |].
  unfold two63, two64 in *. lia.
Qed.


Lemma lexc_zcmp_lt (x y c : Z) : x < y -> lexc (zcmp x y) c = -1.
Proof.
  intros H. unfold lexc, zcmp.
  destruct (Z.compare_spec x y); try lia. reflexivity.
Qed.

Lemma lexc_zcmp_eq (x c : Z) : lexc (zcmp x x) c = c.
Proof. unfold lexc, zcmp. rewrite Z.compare_refl. reflexivity. Qed.



(** X3.  An increment of a higher field absorbs an earlier increment of a
    lower one: [IncrementMajor] after [IncrementMinor] or [IncrementPatch],
    and [IncrementMinor] after [IncrementPatch], give what the later
    increment gives alone; so does [IncrementPatch] after
    [IncrementRevision] when the revision is below the largest [int64]. *)
Theorem Increment_absorbs (v : Version) :
  fst (Version_IncrementMajor (fst (Version_IncrementMinor v))) =
  fst (Version_IncrementMajor v) /\
  fst (Version_IncrementMajor (fst (Version_IncrementPatch v))) =
  fst (Version_IncrementMajor v) /\
  fst (Version_IncrementMinor (fst (Version_IncrementPatch v))) =
  fst (Version_IncrementMinor v) /\
  (Revision v < two63 - 1 ->
   fst (Version_IncrementPatch (fst (Version_IncrementRevision v))) =
   fst (Version_IncrementPatch v)).
Proof.
  assert (T3 : two63 = 9223372036854775808) by reflexivity.
  unfold Version_IncrementMajor, Version_IncrementMinor,
    Version_IncrementPatch, Version_IncrementRevision.
  cbn [fst Major Minor Patch Revision Pre Build].
  repeat split.
  - destruct (Z.geb_spec (Revision v) 0) as [G | G];
      cbn [Major Minor Patch Revision Pre Build]; [reflexivity |].
    destruct (Z.geb_spec (Revision v) 0); [lia | reflexivity].
  - destruct (Z.geb_spec (Revision v) 0) as [G | G];
      cbn [Major Minor Patch Revision Pre Build]; [reflexivity |].
    destruct (Z.geb_spec (Revision v) 0); [lia | reflexivity].
  - destruct (Z.geb_spec (Revision v) 0) as [G | G];
      cbn [Major Minor Patch Revision Pre Build]; [reflexivity |].
    destruct (Z.geb_spec (Revision v) 0); [lia | reflexivity].
  - intros H. destruct (Z.geb_spec (Revision v) 0) as [G | G];
      cbn [Major Minor Patch Revision Pre Build].
    + rewrite wrap_int64_small by lia.
      destruct (Z.geb_spec (Revision v + 1) 0); [reflexivity | lia].
    + destruct (Z.geb_spec (Revision v) 0); [lia | reflexivity].
Qed.

Lemma Increment_absorbs_witness :
  let v := mkVersion 1 2 3 4 [] [] in
  fst (Version_IncrementPatch (fst (Version_IncrementRevision v))) =
  mkVersion 1 2 4 0 [] [].
Proof.
  intros v.
  rewrite (proj2 (proj2 (proj2 (Increment_absorbs v)))); [reflexivity |].
  vm_compute. reflexivity.
Defined.

(** X4.  [IncrementPatch], [IncrementMinor] and [IncrementMajor] return no
    error, leave [Pre] and [Build] as they are, keep the result of
    [Validate], and keep the mode: the revision is present after them
    exactly when it was before, and an absent revision stays [-1].
    [IncrementRevision] returns no error and leaves [Pre] and [Build] as
    they are; below the largest [int64] it keeps the mode.  At the largest
    [int64] the revision wraps to the smallest one: [String] then prints the
    version without a revision and a further [IncrementRevision] changes
    nothing, but [Compare], which tests for [-1], still reads the wrapped
    value as a revision that is present, below every non-negative one. *)
Theorem Increment_frame (v : Version) :
  (forall f, In f [Version_IncrementPatch; Version_IncrementMinor;
                   Version_IncrementMajor] ->
     snd (f v) = None /\
     Pre (fst (f v)) = Pre v /\ Build (fst (f v)) = Build v /\
     Version_Validate (fst (f v)) = Version_Validate v /\
     (Revision (fst (f v)) >= 0 <-> Revision v >= 0) /\
     (Revision v = -1 -> Revision (fst (f v)) = -1)) /\
  snd (Version_IncrementRevision v) = None /\
  Pre (fst (Version_IncrementRevision v)) = Pre v /\
  Build (fst (Version_IncrementRevision v)) = Build v /\
  (Revision v < two63 - 1 ->
   (Revision (fst (Version_IncrementRevision v)) >= 0 <-> Revision v >= 0)) /\
  (Revision v = two63 - 1 ->
   Revision (fst (Version_IncrementRevision v)) = - two63 /\
   Version_String (fst (Version_IncrementRevision v)) =
   Version_String
     (mkVersion (Major v) (Minor v) (Patch v) (-1) (Pre v) (Build v)) /\
   fst (Version_IncrementRevision (fst (Version_IncrementRevision v))) =
   fst (Version_IncrementRevision v) /\
   forall o, Major o = Major v -> Minor o = Minor v -> Patch o = Patch v ->
             0 <= Revision o ->
             Version_Compare (fst (Version_IncrementRevision v)) o = -1).
Proof.
  assert (T3 : two63 = 9223372036854775808) by reflexivity.
  split.
  - intros f [<- | [<- | [<- | []]]];
      unfold Version_IncrementPatch, Version_IncrementMinor,
        Version_IncrementMajor, Version_Validate;
      cbn [fst snd Major Minor Patch Revision Pre Build];
      destruct (Z.geb_spec (Revision v) 0);
      cbn [fst snd Major Minor Patch Revision Pre Build];
      repeat split; intros; lia.
  - unfold Version_IncrementRevision. cbn [fst snd].
    destruct (Z.geb_spec (Revision v) 0);
      cbn [Major Minor Patch Revision Pre Build].
    + split; [reflexivity |]. split; [reflexivity |].
      split; [reflexivity |]. split.
      * intros Hlt. rewrite wrap_int64_small by lia. split; intros; lia.
      * intros Htop. rewrite Htop.
        change (wrap_int64 (two63 - 1 + 1)) with (- two63).
        split; [reflexivity |]. split; [reflexivity |].
        split; [reflexivity |].
        intros o E1 E2 E3 Ro. rewrite Version_Compare_spec.
        cbn [Major Minor Patch Revision Pre Build].
        rewrite <- E1, <- E2, <- E3, !lexc_zcmp_eq.
        unfold revision_order.
        destruct (Z.eqb_spec (Revision o) (-1)) as [N | _]; [lia |].
        change (- two63 =? -1) with false. cbn [orb].
        apply lexc_zcmp_lt. lia.
    + split; [reflexivity |]. split; [reflexivity |].
      split; [reflexivity |]. split; intros; lia.
Qed.

Lemma Increment_frame_witness :
  let v := mkVersion 1 2 3 (-1) [mkPRVersion "rc" 0 false] ["b"] in
  let top := mkVersion 1 2 3 (two63 - 1) [] [] in
  Revision (fst (Version_IncrementMajor v)) = -1 /\
  Revision (fst (Version_IncrementRevision top)) = - two63.
Proof.
  intros v top. split.
  - apply (proj1 (Increment_frame v) Version_IncrementMajor).
    + right. right. left. reflexivity.
    + reflexivity.
  - exact (proj1 (proj2 (proj2 (proj2 (proj2 (proj2 (Increment_frame top)))))
                    eq_refl)).
Defined.

(** ** [Validate] *)

Lemma validate_pre_none (l : list PRVersion) :
  validate_pre l = None <-> Forall valid_identifier l.
Proof.
  induction l as [| p l IH]; cbn [validate_pre].
  - split; [constructor | reflexivity].
  - rewrite Forall_cons_iff, <- IH. unfold valid_identifier, valid_segment.
    rewrite len_eqb_zero. destruct (IsNum p) eqn:N; cbn [negb].
    + split; [intros H; split; [left; reflexivity | exact H] |].
      intros [_ H]. exact H.
    + destruct (VersionStr p) as [| a s] eqn:E.
      * split; [discriminate |].
        intros [[A | [A _]] _]; [discriminate A | contradiction].
      * destruct (containsOnly (String a s) alphanum) eqn:C; cbn [negb].
        -- split; [| intros [_ H]; exact H]. intros H.
           split; [right; split; [discriminate | reflexivity] | exact H].
        -- split; [discriminate |].
           intros [[A | [_ A]] _]; discriminate A.
Qed.

Lemma validate_build_none (l : list string) :
  validate_build l = None <-> Forall valid_segment l.
Proof.
  induction l as [| b l IH]; cbn [validate_build].
  - split; [constructor | reflexivity].
  - rewrite Forall_cons_iff, <- IH. unfold valid_segment.
    rewrite len_eqb_zero. destruct b as [| a s].
    + split; [discriminate |]. intros [[A _] _]. contradiction.
    + destruct (containsOnly (String a s) alphanum) eqn:C; cbn [negb].
      * split; [| intros [_ H]; exact H]. intros H.
        split; [split; [discriminate | reflexivity] | exact H].
      * split; [discriminate |]. intros [[_ A] _]. discriminate A.
Qed.

(** X5.  [Validate] returns [nil] exactly when every pre-release identifier
    is numeric or has a non-empty text of bytes of [alphanum], and every
    build segment is non-empty and of bytes of [alphanum].  An offending
    pre-release identifier is reported whatever the build segments are. *)
Theorem Validate_characterisation (v : Version) :
  (Version_Validate v = None <->
   Forall valid_identifier (Pre v) /\ Forall valid_segment (Build v)) /\
  (forall e, validate_pre (Pre v) = Some e -> Version_Validate v = Some e).
Proof.
  unfold Version_Validate. split.
  - rewrite <- validate_pre_none, <- validate_build_none.
    destruct (validate_pre (Pre v)).
    + split; [discriminate | intros [H _]; discriminate H].
    + split; [auto | intros [_ H]; exact H].
  - intros e ->. reflexivity.
Qed.

Lemma Validate_characterisation_witness :
  let v := mkVersion 1 2 3 (-1) [mkPRVersion "rc!" 0 false] [""] in
  Version_Validate v = Some (ErrPrereleaseInvalidChars "rc!").
Proof.
  intros v. apply (proj2 (Validate_characterisation v)). reflexivity.
Defined.

(** ** Bytes, sets and classes *)

Lemma ContainsRune_numbers (c : ascii) :
  ContainsRune numbers c = in_class digits c.
Proof.
  destruct c as [[|] [|] [|] [|] [|] [|] [|] [|]]; vm_compute; reflexivity.
Qed.

Lemma ContainsRune_alphanum (c : ascii) :
  ContainsRune alphanum c = in_class alnums c.
Proof.
  destruct c as [[|] [|] [|] [|] [|] [|] [|] [|]]; vm_compute; reflexivity.
Qed.

Lemma containsOnly_numbers (s : string) :
  containsOnly s numbers = all_in digits s.
Proof.
  induction s as [| c s IH]; [reflexivity |]. cbn [containsOnly all_in].
  rewrite ContainsRune_numbers, IH. reflexivity.
Qed.

Lemma containsOnly_alphanum (s : string) :
  containsOnly s alphanum = all_in alnums s.
Proof.
  induction s as [| c s IH]; [reflexivity |]. cbn [containsOnly all_in].
  rewrite ContainsRune_alphanum, IH. reflexivity.
Qed.

(** ** What [NewPRVersion] builds *)

Lemma ParseUint_range (s : string) (n : Z) :
  ParseUint s = Ok n -> 0 <= n < two64.
Proof.
  unfold ParseUint, decimal_value. intros H.
  destruct (NilZero.uint_of_string s) as [d |]; [| discriminate H].
  destruct (Z.ltb_spec (Z.of_N (N.of_uint d)) two64); [| discriminate H].
  injection H as <-. lia.
Qed.

Lemma ParseUint_digits (s : string) :
  all_in digits s = true -> s <> "" ->
  ParseUint s = Err (ErrRange s) \/ exists n, ParseUint s = Ok n.
Proof.
  intros Hd Hne. unfold ParseUint.
  assert (E : exists n, decimal_value s = Some n).
  { rewrite <- decimal_value_strip_zeroes.
    destruct (decimal_value_canonical _ (strip_zeroes_canonical s Hd Hne))
      as (n & E & _). eauto. }
  destruct E as (n & ->). destruct (n <? two64); eauto.
Qed.

Lemma NewPRVersion_built (s : string) (p : PRVersion) :
  NewPRVersion s = Ok p -> built_identifier p.
Proof.
  unfold NewPRVersion, built_identifier, valid_segment. intros H.
  rewrite len_eqb_zero in H. destruct s as [| a s']; [discriminate H |].
  destruct (containsOnly (String a s') numbers) eqn:Hn.
  - destruct (hasLeadingZeroes (String a s')); [discriminate H |].
    destruct (ParseUint (String a s')) as [num | e] eqn:E; [| discriminate H].
    cbn [bind] in H. injection H as <-. left. cbn [IsNum VersionStr VersionNum].
    repeat split; try apply (ParseUint_range _ _ E).
  - destruct (containsOnly (String a s') alphanum) eqn:Ha; [| discriminate H].
    injection H as <-. right. cbn [IsNum VersionStr VersionNum].
    repeat split; auto. discriminate.
Qed.

Lemma NewPRVersion_of_String (s : string) (p : PRVersion) :
  NewPRVersion s = Ok p -> NewPRVersion (PRVersion_String p) = Ok p.
Proof.
  intros H. rewrite (NewPRVersion_String s p H). exact H.
Qed.

(** X6.  [NewPRVersion] on a text: a result prints as the text and is built
    again from its own print; it is numeric exactly when the text is made of
    digits, and has the shape of a built identifier.  The errors are: empty
    text; a text of digits with a leading zero; a text of digits without
    leading zero whose value does not fit a [uint64] (the branch that the
    source marks as one that might never be hit); a byte outside
    [alphanum].  A syntax error of [strconv] never comes out. *)
Theorem NewPRVersion_cases (s : string) :
  (forall p, NewPRVersion s = Ok p ->
     PRVersion_String p = s /\ NewPRVersion (PRVersion_String p) = Ok p /\
     IsNum p = containsOnly s numbers /\ built_identifier p) /\
  (forall e, NewPRVersion s = Err e ->
     (e = ErrPrereleaseEmpty /\ s = "") \/
     (e = ErrLeadingZeroes s /\ containsOnly s numbers = true /\
      hasLeadingZeroes s = true) \/
     (e = ErrRange s /\ containsOnly s numbers = true /\
      hasLeadingZeroes s = false) \/
     (e = ErrPrereleaseInvalidChars s /\ containsOnly s alphanum = false)).
Proof.
  split.
  - intros p H. split; [exact (NewPRVersion_String s p H) |].
    split; [exact (NewPRVersion_of_String s p H) |].
    split; [| exact (NewPRVersion_built s p H)].
    unfold NewPRVersion in H. destruct (len s =? 0); [discriminate H |].
    destruct (containsOnly s numbers).
    + destruct (hasLeadingZeroes s); [discriminate H |].
      destruct (ParseUint s); [| discriminate H].
      cbn [bind] in H. injection H as <-. reflexivity.
    + destruct (containsOnly s alphanum); [| discriminate H].
      injection H as <-. reflexivity.
  - intros e H. unfold NewPRVersion in H. rewrite len_eqb_zero in H.
    destruct s as [| a s']; [injection H as <-; auto |].
    destruct (containsOnly (String a s') numbers) eqn:Hn.
    + destruct (hasLeadingZeroes (String a s')) eqn:Hz.
      * injection H as <-. auto.
      * pose proof Hn as Hd. rewrite containsOnly_numbers in Hd.
        destruct (ParseUint_digits (String a s') Hd) as [E | (n & E)];
          [discriminate | |]; rewrite E in H; cbn [bind] in H.
        -- injection H as <-. auto 10.
        -- discriminate H.
    + destruct (containsOnly (String a s') alphanum) eqn:Ha; [discriminate H |].
      injection H as <-. auto 10.
Qed.

Lemma NewPRVersion_cases_witness :
  PRVersion_String (mkPRVersion "" 42 true) = "42" /\
  (ErrRange "99999999999999999999" = ErrRange "99999999999999999999" /\
   containsOnly "99999999999999999999" numbers = true /\
   hasLeadingZeroes "99999999999999999999" = false).
Proof.
  split.
  - apply (proj1 (NewPRVersion_cases "42") (mkPRVersion "" 42 true)).
    vm_compute. reflexivity.
  - destruct (proj2 (NewPRVersion_cases "99999999999999999999")
                (ErrRange "99999999999999999999"))
      as [[A _] | [[A _] | [B | [A _]]]];
      [vm_compute; reflexivity | discriminate A | discriminate A | exact B
      | discriminate A].
Defined.

(** ** What [Parse] returns *)

Lemma parse_prerelease_built (segs : list string) (acc prs : list PRVersion) :
  parse_prerelease segs acc = Ok prs ->
  Forall built_identifier acc -> Forall built_identifier prs.
Proof.
  revert acc. induction segs as [| s segs IH]; intros acc H Hacc;
    cbn [parse_prerelease] in H.
  - injection H as <-. exact Hacc.
  - destruct (NewPRVersion s) as [p | e] eqn:E; [| discriminate H].
    cbn [bind] in H. apply (IH _ H). apply Forall_app. split; [exact Hacc |].
    constructor; [exact (NewPRVersion_built s p E) | constructor].
Qed.

Lemma Parse_fields_in_range (s : string) (v : Version) :
  Parse s = Ok v -> fields_in_range v /\ Forall built_identifier (Pre v).
Proof.
  intros H.
  destruct (Parse_inv s v H)
    as (p & rev & pre & build & Hne & F & E1 & E2 & E3 & E4 & E5 & E6 & Ev).
  destruct (strict_shape s p F) as (_ & _ & _ & C4 & _).
  rewrite Ev. unfold fields_in_range. cbn [Major Minor Patch Revision Pre].
  split; [| exact (parse_prerelease_built _ _ _ E5 (Forall_nil _))].
  split; [exact (ParseUint_range _ _ E1) |].
  split; [exact (ParseUint_range _ _ E2) |].
  split; [exact (ParseUint_range _ _ E3) |].
  destruct C4 as [C4 | C4].
  - rewrite C4 in E4. cbn in E4. injection E4 as <-. left. reflexivity.
  - destruct (canonical_nonempty _ C4) as (a & r' & Er).
    rewrite Er, len_cons_pos, <- Er in E4. right.
    destruct (FormatInt_ParseInt _ _ E4 C4) as [_ G].
    rewrite (ParseInt_canonical _ C4) in E4.
    destruct (Z.geb_spec (numeric_field (part_revision p)) two63);
      [discriminate E4 |].
    injection E4 as <-. lia.
Qed.

(** X7.  The fields of a version that [Parse] returns are within the types
    of the struct: major, minor and patch are in [0, 2^64), the revision is
    [-1] or in [0, 2^63), and every pre-release identifier is either numeric
    with no text and a value in [0, 2^64), or alphanumeric with value 0 and
    a valid text that is not made of digits only. *)
Theorem Parse_result_invariant (s : string) (v : Version) :
  Parse s = Ok v ->
  fields_in_range v /\ Forall built_identifier (Pre v) /\
  Forall valid_segment (Build v).
Proof.
  intros H. destruct (Parse_fields_in_range s v H) as [H1 H2].
  split; [exact H1 |]. split; [exact H2 |].
  destruct (Parse_inv s v H)
    as (p & rev & pre & build & _ & _ & _ & _ & _ & _ & _ & E6 & Ev).
  rewrite Ev. cbn [Build]. rewrite (parse_build_spec _ _ _ E6).
  exact (parse_build_segments _ _ _ E6).
Qed.

Lemma Parse_result_invariant_witness :
  let v := mkVersion 1 2 3 4
             [mkPRVersion "rc" 0 false; mkPRVersion "" 7 true] ["b"] in
  fields_in_range v /\ Forall built_identifier (Pre v) /\
  Forall valid_segment (Build v).
Proof.
  intros v. apply (Parse_result_invariant "1.2.3.4-rc.7+b" v).
  vm_compute. reflexivity.
Defined.

(** ** The errors of [Parse] *)

Lemma Split_no_dot (id : string) :
  all_in alnums id = true -> Split id "." = [id].
Proof.
  induction id as [| c id IH]; [reflexivity |]. cbn [all_in Split].
  intros H. apply andb_prop in H. destruct H as [Hc Hid].
  destruct (alnums_facts c Hc) as (Hdot & _). rewrite Hdot, (IH Hid).
  reflexivity.
Qed.

Lemma Split_dot_app (id rest : string) :
  all_in alnums id = true ->
  Split (id ++ String "." rest) "." = id :: Split rest ".".
Proof.
  induction id as [| c id IH]; [reflexivity |]. cbn [all_in Split append].
  intros H. apply andb_prop in H. destruct H as [Hc Hid].
  destruct (alnums_facts c Hc) as (Hdot & _). rewrite Hdot, (IH Hid).
  reflexivity.
Qed.

Lemma Split_dot_list (ids : list string) (id : string) :
  Forall (fun x => all_in alnums x = true) (id :: ids) ->
  Split (id ++ dotted ids) "." = id :: ids.
Proof.
  revert id. induction ids as [| id2 ids IH]; intros id H;
    inversion H as [| ? ? Hid Hids]; subst; cbn [dotted].
  - rewrite append_nil_r. apply Split_no_dot. exact Hid.
  - cbn [append]. rewrite (Split_dot_app _ _ Hid), (IH id2 Hids). reflexivity.
Qed.

Lemma strict_identifier_alnums (x : string) :
  strict_identifier x -> all_in alnums x = true /\ x <> "".
Proof.
  intros [Hc | (ds & l & t & -> & Hds & Hl & Ht)].
  - destruct (canonical_digits x Hc) as [Hd Hne].
    split; [apply all_in_digits_alnums; exact Hd | exact Hne].
  - destruct (letters_facts l Hl) as [_ Hla]. split.
    + rewrite all_in_append, (all_in_digits_alnums ds Hds). cbn [all_in andb].
      rewrite Hla, Ht. reflexivity.
    + destruct ds; discriminate.
Qed.

Lemma NewPRVersion_strict (id : string) :
  strict_identifier id ->
  (exists p, NewPRVersion id = Ok p) \/ NewPRVersion id = Err (ErrRange id).
Proof.
  intros Hid. destruct (strict_identifier_alnums id Hid) as [Ha Hne].
  unfold NewPRVersion. rewrite len_eqb_zero.
  destruct id as [| a id']; [contradiction |].
  rewrite containsOnly_numbers, containsOnly_alphanum, Ha.
  destruct Hid as [Hc | (ds & l & t & E & Hds & Hl & Ht)].
  - destruct (canonical_digits _ Hc) as [Hd _].
    rewrite Hd, (canonical_no_leading_zeroes _ Hc).
    destruct (ParseUint_digits _ Hd Hne) as [E | (n & E)]; rewrite E;
      cbn [bind]; eauto.
  - rewrite E, all_in_append. cbn [all_in].
    destruct (letters_facts l Hl) as [Hld _]. rewrite Hld.
    rewrite andb_false_r. eauto.
Qed.

Lemma parse_prerelease_strict (ids : list string) (acc : list PRVersion) :
  Forall strict_identifier ids ->
  (exists prs, parse_prerelease ids acc = Ok prs) \/
  (exists t, parse_prerelease ids acc = Err (ErrRange t)).
Proof.
  intros H. revert acc. induction H as [| id ids Hid _ IH]; intros acc;
    cbn [parse_prerelease]; [eauto |].
  destruct (NewPRVersion_strict id Hid) as [(p & E) | E]; rewrite E;
    cbn [bind]; eauto.
Qed.

Lemma parse_build_segments_ok (ids acc : list string) :
  Forall build_segment ids -> parse_build ids acc = Ok (acc ++ ids)%list.
Proof.
  intros H. revert acc. induction H as [| id ids [Hne Hid] _ IH]; intros acc;
    cbn [parse_build].
  - rewrite List.app_nil_r. reflexivity.
  - rewrite len_eqb_zero, containsOnly_alphanum, Hid.
    destruct id; [contradiction |]. cbn [negb].
    rewrite IH, <- List.app_assoc. reflexivity.
Qed.

Lemma dot_list_Split (P : string -> Prop) (x : string) :
  (forall id, P id -> all_in alnums id = true /\ id <> "") ->
  dot_list P x ->
  (len x >? 0) = true /\ exists ids, Split x "." = ids /\ Forall P ids.
Proof.
  intros HP (id & ids & Hid & Hids & ->).
  destruct (HP id Hid) as [Ha Hne]. split.
  - destruct id; [contradiction |]. apply len_cons_pos.
  - exists (id :: ids). split; [| constructor; assumption].
    apply Split_dot_list. constructor; [exact Ha |].
    apply Forall_forall. intros y Hy.
    apply (HP y). exact (proj1 (Forall_forall P ids) Hids y Hy).
Qed.

Lemma ParseUint_canonical_cases (x : string) :
  canonical x -> ParseUint x = Err (ErrRange x) \/ exists n, ParseUint x = Ok n.
Proof.
  intros Hc. destruct (canonical_digits x Hc) as [Hd Hne].
  apply ParseUint_digits; assumption.
Qed.

(** Once the strict pattern has matched, [Parse] fails only on a number that
    is out of range. *)
Lemma Parse_matched_cases (s : string) (p : parts) :
  FindStringSubmatch KongVersionRegex s = Some p ->
  (exists v, Parse s = Ok v) \/ (exists t, Parse s = Err (ErrRange t)).
Proof.
  intros F.
  destruct (strict_shape s p F) as (C1 & C2 & C3 & C4 & Es & C5 & C6).
  unfold Parse. rewrite F, len_eqb_zero.
  assert (Hs : exists a s', s = String a s').
  { destruct (canonical_nonempty _ C1) as (a & M' & E). rewrite Es, E.
    cbn [append]. eauto. }
  destruct Hs as (a0 & s0 & Es0). rewrite Es0. unfold get_part.
  destruct (ParseUint_canonical_cases _ C1) as [E | (n1 & E)]; rewrite E;
    cbn [bind]; [eauto |].
  destruct (ParseUint_canonical_cases _ C2) as [E2 | (n2 & E2)]; rewrite E2;
    cbn [bind]; [eauto |].
  destruct (ParseUint_canonical_cases _ C3) as [E3 | (n3 & E3)]; rewrite E3;
    cbn [bind]; [eauto |].
  assert (R : (exists rev, (if len (part_revision p) >? 0
                            then ParseInt (part_revision p) else Ok (-1))
                           = Ok rev) \/
              (exists t, (if len (part_revision p) >? 0
                          then ParseInt (part_revision p) else Ok (-1))
                         = Err (ErrRange t))).
  { destruct C4 as [-> | C4]; [left; exists (-1); reflexivity |].
    destruct (canonical_nonempty _ C4) as (a & r' & Er).
    rewrite Er, len_cons_pos, <- Er, (ParseInt_canonical _ C4).
    destruct (numeric_field (part_revision p) >=? two63); eauto. }
  destruct R as [(rev & ->) | (t & ->)]; cbn [bind]; [| eauto].
  assert (B : exists build,
             parse_build (if len (part_buildmetadata p) >? 0
                          then Split (part_buildmetadata p) "." else []) []
             = Ok build).
  { destruct C6 as [-> | C6]; [exists []; reflexivity |].
    destruct (dot_list_Split build_segment _
                (fun id H => conj (proj2 H) (proj1 H)) C6)
      as (L & ids & -> & Hids).
    rewrite L, (parse_build_segments_ok ids [] Hids). eauto. }
  destruct B as (build & ->).
  assert (P : (exists pre,
                 parse_prerelease
                   (if len (part_prerelease p) >? 0
                    then Split (part_prerelease p) "." else []) [] = Ok pre) \/
              (exists t,
                 parse_prerelease
                   (if len (part_prerelease p) >? 0
                    then Split (part_prerelease p) "." else []) []
                 = Err (ErrRange t))).
  { destruct C5 as [-> | C5]; [left; exists []; reflexivity |].
    destruct (dot_list_Split strict_identifier _ strict_identifier_alnums C5)
      as (L & ids & -> & Hids).
    rewrite L. apply parse_prerelease_strict. exact Hids. }
  destruct P as [(pre & ->) | (t & ->)]; cbn [bind]; eauto.
Qed.

Lemma Parse_error_cases (s : string) (e : error) :
  Parse s = Err e ->
  (e = ErrVersionStringEmpty /\ s = "") \/
  (e = ErrInvalidVersion s /\ MatchString KongVersionRegex s = false) \/
  (exists t, e = ErrRange t).
Proof.
  intros H. destruct s as [| a s']; [injection H as <-; auto |].
  unfold MatchString.
  destruct (FindStringSubmatch KongVersionRegex (String a s')) as [p |] eqn:F.
  - right. right. destruct (Parse_matched_cases _ p F) as [(v & E) | (t & E)];
      rewrite E in H; [discriminate H | injection H as <-; eauto].
  - right. left. unfold Parse in H. rewrite F, len_eqb_zero in H.
    injection H as <-. auto.
Qed.

(** X8.  [Parse] fails in three ways only: with the error for an empty
    text, exactly on the empty text; with the error for an invalid version,
    which carries the text, exactly on a non-empty text that the strict
    pattern does not match; and on a number that does not fit its integer
    type.  The errors for an empty or malformed pre-release identifier, for
    a leading zero and for a malformed build segment never come out of
    [Parse]: the pattern has excluded those texts. *)
Theorem Parse_errors (s : string) :
  (forall e, Parse s = Err e ->
     (e = ErrVersionStringEmpty /\ s = "") \/
     (e = ErrInvalidVersion s /\ MatchString KongVersionRegex s = false) \/
     (exists t, e = ErrRange t)) /\
  (MatchString KongVersionRegex s = true ->
   (exists v, Parse s = Ok v) \/ (exists t, Parse s = Err (ErrRange t))) /\
  (Parse s = Err ErrVersionStringEmpty <-> s = "") /\
  (forall t, Parse s = Err (ErrInvalidVersion t) <->
             t = s /\ s <> "" /\ MatchString KongVersionRegex s = false).
Proof.
  split; [intros e; apply Parse_error_cases |].
  split.
  { unfold MatchString. intros H.
    destruct (FindStringSubmatch KongVersionRegex s) as [p |] eqn:F;
      [| discriminate H].
    exact (Parse_matched_cases s p F). }
  split.
  - split; [| intros ->; reflexivity]. intros H.
    destruct (Parse_error_cases s _ H) as [[_ E] | [[E _] | (t & E)]];
      [exact E | discriminate E | discriminate E].
  - intros t. split.
    + intros H.
      destruct (Parse_error_cases s _ H) as [[E _] | [[E M] | (t' & E)]];
        [discriminate E | | discriminate E].
      injection E as ->. split; [reflexivity |]. split; [| exact M].
      intros ->. discriminate H.
    + intros (-> & Hne & M). unfold Parse. rewrite len_eqb_zero.
      destruct s as [| a s']; [contradiction |]. unfold MatchString in M.
      destruct (FindStringSubmatch KongVersionRegex (String a s'));
        [discriminate M | reflexivity].
Qed.

Lemma Parse_errors_witness :
  ((exists v, Parse "1.2.3-rc.1+b.01" = Ok v) \/
   (exists t, Parse "1.2.3-rc.1+b.01" = Err (ErrRange t))) /\
  Parse "1.2.3-01" = Err (ErrInvalidVersion "1.2.3-01").
Proof.
  split.
  - apply (proj1 (proj2 (Parse_errors "1.2.3-rc.1+b.01"))).
    vm_compute. reflexivity.
  - apply (proj2 (proj2 (proj2 (proj2 (Parse_errors "1.2.3-01")))
                    "1.2.3-01")).
    split; [reflexivity |]. split; [discriminate | vm_compute; reflexivity].
Defined.

(** ** When two parsed versions compare as equal *)

Lemma lexc_zero (c1 c2 : Z) : lexc c1 c2 = 0 <-> c1 = 0 /\ c2 = 0.
Proof.
  unfold lexc. destruct (Z.eqb_spec c1 0) as [-> | N]; split; intros H;
    tauto.
Qed.

Lemma zcmp_zero (x y : Z) : zcmp x y = 0 <-> x = y.
Proof.
  unfold zcmp. destruct (Z.compare_spec x y); simpl; split; intros; lia.
Qed.

Lemma revision_order_zero (x y : Z) :
  revision_order x y = 0 <-> x = y \/ x = -1 \/ y = -1.
Proof.
  unfold revision_order.
  destruct (Z.eqb_spec x (-1)); [split; auto |].
  destruct (Z.eqb_spec y (-1)); [split; auto |].
  cbn [orb]. rewrite zcmp_zero. split; [auto | intros [H | [H | H]]; lia].
Qed.

Lemma identifier_order_built (x y : PRVersion) :
  built_identifier x -> built_identifier y ->
  identifier_order x y = Eq -> x = y.
Proof.
  unfold built_identifier, identifier_order.
  destruct x as [xs xn xb], y as [ys yn yb].
  cbn [IsNum VersionStr VersionNum].
  intros [(-> & -> & _) | (-> & -> & _)] [(-> & -> & _) | (-> & -> & _)] H;
    try discriminate H.
  - apply Z.compare_eq in H. subst. reflexivity.
  - apply String.compare_eq_iff in H. subst. reflexivity.
Qed.

Lemma lex_compare_zero (xs ys : list PRVersion) :
  Forall built_identifier xs -> Forall built_identifier ys ->
  lex_compare xs ys = 0 -> xs = ys.
Proof.
  intros Hx. revert ys. induction Hx as [| x xs Hx _ IH]; intros ys Hy H;
    destruct Hy as [| y ys Hy Hys]; cbn [lex_compare] in H;
    try discriminate H; [reflexivity |].
  destruct (identifier_order x y) eqn:E; try discriminate H.
  rewrite (identifier_order_built x y Hx Hy E), (IH ys Hys H). reflexivity.
Qed.

Lemma pre_order_zero (xs ys : list PRVersion) :
  Forall built_identifier xs -> Forall built_identifier ys ->
  (pre_order xs ys = 0 <-> xs = ys).
Proof.
  intros Hx Hy. split.
  - destruct xs as [| x xs], ys as [| y ys]; cbn [pre_order]; intros H;
      try discriminate H; [reflexivity |].
    apply lex_compare_zero; assumption.
  - intros ->. apply (cmp_refl _ _ pre_order_preorder).
Qed.

Lemma Version_Compare_zero (a b : Version) :
  Forall built_identifier (Pre a) -> Forall built_identifier (Pre b) ->
  (Version_Compare a b = 0 <-> compare_equal a b).
Proof.
  intros Ha Hb. unfold compare_equal.
  rewrite Version_Compare_spec, !lexc_zero, !zcmp_zero, revision_order_zero.
  rewrite (pre_order_zero _ _ Ha Hb). tauto.
Qed.

(** X9.  Two versions that [Parse] returned compare as equal exactly when
    they have the same major, minor and patch, the same list of pre-release
    identifiers, and the same revision or one of them has no revision.  So
    on parsed versions [Equals] tells apart everything but the build
    segments and the presence of a revision. *)
Theorem Compare_zero_parsed (s1 s2 : string) (a b : Version) :
  Parse s1 = Ok a -> Parse s2 = Ok b ->
  (Version_Compare a b = 0 <-> compare_equal a b) /\
  (Version_Equals a b = true <-> compare_equal a b).
Proof.
  intros H1 H2.
  destruct (Parse_fields_in_range s1 a H1) as [_ Ba].
  destruct (Parse_fields_in_range s2 b H2) as [_ Bb].
  pose proof (Version_Compare_zero a b Ba Bb) as Z.
  split; [exact Z |]. unfold Version_Equals. rewrite Z.eqb_eq. exact Z.
Qed.

Lemma Compare_zero_parsed_witness :
  let a := mkVersion 1 2 3 (-1) [mkPRVersion "rc" 0 false] ["x"] in
  let b := mkVersion 1 2 3 0 [mkPRVersion "rc" 0 false] [] in
  Version_Compare a b = 0 <-> compare_equal a b.
Proof.
  intros a b.
  apply (proj1 (Compare_zero_parsed "1.2.3-rc+x" "1.2.3.0-rc" a b
                  eq_refl eq_refl)).
Defined.

(** ** [FinalizeVersion] *)

Lemma Version_String_release (v : Version) :
  Version_String (release_of v) = Version_FinalizeVersion v.
Proof. reflexivity. Qed.

Lemma FinalizeVersion_Parse (s : string) (v : Version) :
  Parse s = Ok v ->
  exists p,
    FindStringSubmatch KongVersionRegex s = Some p /\
    Version_FinalizeVersion v =
    part_major p ++ "." ++ part_minor p ++ "." ++ part_patch p ++
    opt_part "." (part_revision p) /\
    s = Version_FinalizeVersion v ++ opt_part "-" (part_prerelease p) ++
        opt_part "+" (part_buildmetadata p) /\
    Parse (Version_FinalizeVersion v) = Ok (release_of v).
Proof.
  intros H.
  destruct (Parse_inv s v H)
    as (p & rev & pre & build & Hne & F & E1 & E2 & E3 & E4 & E5 & E6 & Ev).
  destruct (strict_shape s p F) as (C1 & C2 & C3 & C4 & Es & _).
  exists p. split; [exact F |].
  assert (T : Version_FinalizeVersion v =
              part_major p ++ "." ++ part_minor p ++ "." ++ part_patch p ++
              opt_part "." (part_revision p)).
  { rewrite Ev. unfold Version_FinalizeVersion.
    cbn [Major Minor Patch Revision].
    rewrite (FormatUint_ParseUint _ _ E1 (canonical_no_leading_zeroes _ C1)).
    rewrite (FormatUint_ParseUint _ _ E2 (canonical_no_leading_zeroes _ C2)).
    rewrite (FormatUint_ParseUint _ _ E3 (canonical_no_leading_zeroes _ C3)).
    rewrite (String_revision _ _ _ E4 C4), !append_assoc. reflexivity. }
  split; [exact T |]. split.
  - rewrite T, Es at 1. rewrite !append_assoc. reflexivity.
  - rewrite T, (Parse_numerals _ _ _ _ C1 C2 C3 C4), E1, E2, E3. cbn [bind].
    rewrite E4. cbn [bind]. rewrite Ev. reflexivity.
Qed.

(** X10.  [FinalizeVersion(s)] fails exactly when [Parse(s)] fails, with the
    same error.  When it succeeds its result is what the method
    [FinalizeVersion] gives for the parsed version, it is the beginning of
    [s] up to the pre-release or build suffix, [Parse] accepts it and returns
    the parsed version without pre-release and build, and finalizing it
    again changes nothing. *)
Theorem FinalizeVersion_spec (s : string) :
  (forall e, FinalizeVersion s = Err e <-> Parse s = Err e) /\
  (forall t, FinalizeVersion s = Ok t ->
     exists v suffix,
       Parse s = Ok v /\ t = Version_FinalizeVersion v /\
       s = t ++ suffix /\
       (Pre v = [] -> Build v = [] -> suffix = "") /\
       Parse t = Ok (release_of v) /\
       FinalizeVersion t = Ok t).
Proof.
  unfold FinalizeVersion. split.
  - intros e. destruct (Parse s) as [v | e']; cbn [bind]; cbv zeta;
      split; intros H; first [discriminate H | injection H as ->; reflexivity].
  - intros t H. destruct (Parse s) as [v |] eqn:P; [| discriminate H].
    cbn [bind] in H. cbv zeta in H.
    cbn [Major Minor Patch Revision Pre Build] in H.
    injection H as <-. fold (release_of v). rewrite Version_String_release.
    destruct (FinalizeVersion_Parse s v P) as (p & F & T & Es & PT).
    exists v, (opt_part "-" (part_prerelease p) ++
               opt_part "+" (part_buildmetadata p)).
    split; [reflexivity |]. split; [reflexivity |]. split; [exact Es |].
    split; [| split; [exact PT |]].
    + intros Hpre Hbuild.
      destruct (Parse_inv s v P)
        as (p' & rev & pre & build & _ & F' & _ & _ & _ & _ & E5 & E6 & Ev).
      rewrite F in F'. injection F' as <-.
      rewrite Ev in Hpre, Hbuild. cbn [Pre Build] in Hpre, Hbuild. subst.
      destruct (part_prerelease p) as [| a x] eqn:Ex.
      * destruct (part_buildmetadata p) as [| c y] eqn:Ey; [reflexivity |].
        rewrite len_cons_pos in E6.
        destruct (Split_dotted (String c y)) as (h & tl & E & _).
        rewrite E in E6. apply parse_build_spec in E6. discriminate E6.
      * rewrite len_cons_pos in E5.
        destruct (Split_dotted (String a x)) as (h & tl & E & _).
        rewrite E in E5. apply parse_prerelease_strings in E5.
        discriminate E5.
    + rewrite PT. cbn [bind]. reflexivity.
Qed.

Lemma FinalizeVersion_spec_witness :
  exists v suffix,
    Parse "1.2.3.4-rc.1+b" = Ok v /\ "1.2.3.4" = Version_FinalizeVersion v /\
    "1.2.3.4-rc.1+b" = "1.2.3.4" ++ suffix /\
    (Pre v = [] -> Build v = [] -> suffix = "") /\
    Parse "1.2.3.4" = Ok (release_of v) /\
    FinalizeVersion "1.2.3.4" = Ok "1.2.3.4".
Proof.
  apply (proj2 (FinalizeVersion_spec "1.2.3.4-rc.1+b") "1.2.3.4").
  vm_compute. reflexivity.
Defined.

(** ** What [ParseTolerant] returns *)

Lemma Parse_valid (s : string) (v : Version) :
  Parse s = Ok v -> Version_Validate v = None.
Proof.
  intros H.
  destruct (Parse_inv s v H)
    as (p & rev & pre & build & _ & _ & _ & _ & _ & _ & E5 & E6 & Ev).
  rewrite Ev. unfold Version_Validate. cbn [Pre Build].
  rewrite (parse_prerelease_valid _ _ _ E5 eq_refl).
  exact (parse_build_valid _ _ _ E6 eq_refl).
Qed.

Lemma ParseTolerant_is_Parse (s : string) (v : Version) :
  ParseTolerant s = Ok v -> exists t, Parse t = Ok v.
Proof.
  intros H. unfold ParseTolerant in H.
  destruct (FindStringSubmatch KongTolerantVersionRegex s) as [p |];
    [| discriminate H].
  cbv zeta in H.
  destruct ((len (strip_zeroes (get_part patch p)) =? 0)
            || (len (strip_zeroes (get_part minor p)) =? 0)
            || (len (strip_zeroes (get_part major p)) =? 0)); [| eauto].
  destruct ((len (get_part prerelease p) >? 0)
            || (len (get_part buildmetadata p) >? 0));
    [discriminate H | eauto].
Qed.

(** X11.  [ParseTolerant] never builds a version of its own: a version it
    returns is one that [Parse] returns for some text.  So it passes
    [Validate], its fields are within the types of the struct, [Parse]
    accepts its string form and returns it, and [ParseTolerant] on its string
    form returns it again. *)
Theorem ParseTolerant_result (s : string) (v : Version) :
  ParseTolerant s = Ok v ->
  parsed v /\ Version_Validate v = None /\ fields_in_range v /\
  Parse (Version_String v) = Ok v /\
  ParseTolerant (Version_String v) = Ok v.
Proof.
  intros H. destruct (ParseTolerant_is_Parse s v H) as (t & P).
  split; [exists t; exact P |].
  split; [exact (Parse_valid t v P) |].
  split; [exact (proj1 (Parse_fields_in_range t v P)) |].
  rewrite (Version_String_Parse t v P). split; [exact P |].
  pose proof (ParseTolerant_of_strict t v "" "" P (or_intror eq_refl) eq_refl)
    as T.
  cbn [append] in T. rewrite append_nil_r in T. exact T.
Qed.

Lemma ParseTolerant_result_witness :
  let v := mkVersion 1 2 0 (-1) [] [] in
  parsed v /\ Version_Validate v = None /\ fields_in_range v /\
  Parse (Version_String v) = Ok v /\
  ParseTolerant (Version_String v) = Ok v.
Proof.
  intros v. apply (ParseTolerant_result " 01.2" v). vm_compute. reflexivity.
Defined.

(** ** The errors of [ParseTolerant] *)

Lemma generate_version_nonempty (a b c r x y : string) :
  generate_version a b c r x y <> "".
Proof.
  rewrite generate_version_spec. destruct a; discriminate.
Qed.

(** X12.  [ParseTolerant] fails in four ways only: the tolerant pattern does
    not match; a short form carries a suffix; the strict pattern does not
    match the normalised text (a numeric pre-release identifier with a
    leading zero, which only the tolerant pattern lets through); a number
    does not fit its integer type.  The error for an empty text never comes
    out of it. *)
Theorem ParseTolerant_errors (s : string) (e : error) :
  ParseTolerant s = Err e ->
  (e = ErrInvalidTolerantVersion s /\
   MatchString KongTolerantVersionRegex s = false) \/
  e = ErrShortVersion \/
  (exists t, e = ErrInvalidVersion t /\
             MatchString KongVersionRegex t = false) \/
  (exists t, e = ErrRange t).
Proof.
  intros H. unfold ParseTolerant in H. unfold MatchString at 1.
  destruct (FindStringSubmatch KongTolerantVersionRegex s) as [p |];
    [| injection H as <-; auto].
  cbv zeta in H. right.
  assert (G : forall a b c r x y,
             Parse (generate_version a b c r x y) = Err e ->
             (exists t, e = ErrInvalidVersion t /\
                        MatchString KongVersionRegex t = false) \/
             (exists t, e = ErrRange t)).
  { intros a b c r x y P.
    destruct (Parse_error_cases _ _ P) as [[_ N] | [[-> M] | R]].
    - exfalso. exact (generate_version_nonempty _ _ _ _ _ _ N).
    - left. eauto.
    - right. exact R. }
  destruct ((len (strip_zeroes (get_part patch p)) =? 0)
            || (len (strip_zeroes (get_part minor p)) =? 0)
            || (len (strip_zeroes (get_part major p)) =? 0));
    [| right; exact (G _ _ _ _ _ _ H)].
  destruct ((len (get_part prerelease p) >? 0)
            || (len (get_part buildmetadata p) >? 0)).
  - injection H as <-. auto.
  - right. exact (G _ _ _ _ _ _ H).
Qed.

Lemma ParseTolerant_errors_witness :
  exists t, ErrInvalidVersion "1.2.3-01" = ErrInvalidVersion t /\
            MatchString KongVersionRegex t = false.
Proof.
  destruct (ParseTolerant_errors "1.2.3-01" (ErrInvalidVersion "1.2.3-01"))
    as [[A _] | [A | [B | [t A]]]];
    [vm_compute; reflexivity | discriminate A | discriminate A | exact B
    | discriminate A].
Defined.

(** ** Leading zeroes in [ParseTolerant] *)

Lemma rev_tail_complete_digits (r x y ws : string) pos caps :
  r = "" \/ digit_field r ->
  x = "" \/ dot_list strict_identifier x ->
  y = "" \/ dot_list build_segment y -> all_in spaces ws = true ->
  exec tolerant_rev accept pos
    (opt_part "." r ++ opt_part "-" x ++ opt_part "+" y ++ ws) caps =
  Some (set_opt buildmetadata y (set_opt prerelease x (set_opt revision r caps))).
Proof.
  intros Hr Hx Hy Hws.
  destruct (pre_tail_not_first x y ws Hws) as (P1 & P2).
  unfold tolerant_rev. rewrite exec_Seq.
  destruct Hr as [-> | [Hd Hne]].
  - cbn [opt_part append set_opt]. rewrite exec_Opt_Chr_skip by exact P2.
    apply pre_tail_complete; assumption.
  - destruct (nonempty_cons r Hne) as (a & r' & Er).
    replace (opt_part "." r) with (String "." r) by (rewrite Er; reflexivity).
    replace (set_opt revision r caps) with (set_part revision r caps)
      by (rewrite Er; reflexivity).
    cbn [append]. apply exec_Opt_take. rewrite exec_seq_chr, exec_Group.
    change digit with (Class digits).
    apply exec_Plus_class_greedy; [exact Hd | exact Hne | exact P1 |].
    rewrite group_continuation. apply pre_tail_complete; assumption.
Qed.

Lemma fields_complete_digits (p : parts) (ws : string) pos :
  padded_parts p -> all_in spaces ws = true ->
  exec tolerant_fields accept pos (strict_text p ++ ws) no_parts = Some p.
Proof.
  destruct p as [M m pa r x y]. unfold padded_parts, strict_text.
  cbn [part_major part_minor part_patch part_revision part_prerelease
       part_buildmetadata].
  intros ([DM NM] & [Dm Nm] & [Dp Np] & Hr & Hx & Hy) Hws.
  rewrite !append_assoc. cbn [append]. rewrite ?append_assoc.
  unfold tolerant_fields. change digit with (Class digits).
  rewrite exec_Seq. apply exec_Opt_take. rewrite exec_Group.
  apply exec_Plus_class_greedy; [exact DM | exact NM | reflexivity |].
  rewrite group_continuation.
  rewrite exec_Seq. apply exec_Opt_Chr_take.
  rewrite exec_Seq. apply exec_Opt_take. rewrite exec_Group.
  apply exec_Plus_class_greedy; [exact Dm | exact Nm | reflexivity |].
  rewrite group_continuation.
  rewrite exec_Seq. apply exec_Opt_Chr_take.
  rewrite exec_Seq. apply exec_Opt_take. rewrite exec_Group.
  apply exec_Plus_class_greedy;
    [exact Dp | exact Np | apply rev_tail_not_first; exact Hws |].
  rewrite group_continuation.
  rewrite rev_tail_complete_digits by assumption.
  destruct r, x, y; reflexivity.
Qed.

Lemma tolerant_complete_digits (p : parts) (pfx ws : string) :
  padded_parts p -> pfx = "v" \/ all_in spaces pfx = true ->
  all_in spaces ws = true ->
  FindStringSubmatch KongTolerantVersionRegex (pfx ++ strict_text p ++ ws)
  = Some p.
Proof.
  intros Hp Hpfx Hws. unfold FindStringSubmatch. apply find_from_first.
  destruct Hpfx as [-> | Hpfx].
  - apply tolerant_prefix_v. apply fields_complete_digits; assumption.
  - assert (F : exists a t, strict_text p = String a t /\
                            in_class digits a = true).
    { destruct Hp as ([D N] & _). unfold strict_text.
      destruct (part_major p) as [| a M']; [contradiction |].
      cbn [all_in] in D. apply andb_prop in D. destruct D as [Da _].
      cbn [append]. eauto. }
    destruct F as (a & t & E & Da).
    destruct (digit_not_space_v a Da) as [N1 N2].
    apply tolerant_prefix_space; [exact Hpfx | | |].
    + rewrite E. exact N1.
    + rewrite E. exact N2.
    + apply fields_complete_digits; assumption.
Qed.

Lemma padded_parts_strip (p : parts) :
  padded_parts p -> padded_parts (strip_parts p).
Proof.
  unfold padded_parts, strip_parts, digit_field.
  cbn [part_major part_minor part_patch part_revision part_prerelease
       part_buildmetadata].
  intros ([D1 N1] & [D2 N2] & [D3 N3] & Hr & Hx & Hy).
  split; [apply canonical_digits, strip_zeroes_canonical; assumption |].
  split; [apply canonical_digits, strip_zeroes_canonical; assumption |].
  split; [apply canonical_digits, strip_zeroes_canonical; assumption |].
  split; [| auto].
  destruct Hr as [-> | [D4 N4]]; [left; reflexivity | right].
  apply canonical_digits, strip_zeroes_canonical; assumption.
Qed.

Lemma strip_parts_idempotent (p : parts) :
  padded_parts p -> strip_parts (strip_parts p) = strip_parts p.
Proof.
  unfold padded_parts, strip_parts, digit_field.
  cbn [part_major part_minor part_patch part_revision part_prerelease
       part_buildmetadata].
  intros ([D1 N1] & [D2 N2] & [D3 N3] & Hr & _).
  rewrite !(strip_zeroes_canonical_id (strip_zeroes (part_major p)))
    by (apply strip_zeroes_canonical; assumption).
  rewrite !(strip_zeroes_canonical_id (strip_zeroes (part_minor p)))
    by (apply strip_zeroes_canonical; assumption).
  rewrite !(strip_zeroes_canonical_id (strip_zeroes (part_patch p)))
    by (apply strip_zeroes_canonical; assumption).
  destruct Hr as [-> | [D4 N4]]; [reflexivity |].
  rewrite !(strip_zeroes_canonical_id (strip_zeroes (part_revision p)))
    by (apply strip_zeroes_canonical; assumption).
  reflexivity.
Qed.

Lemma ParseTolerant_padded (p : parts) (pfx ws : string) :
  padded_parts p -> pfx = "v" \/ all_in spaces pfx = true ->
  all_in spaces ws = true ->
  ParseTolerant (pfx ++ strict_text p ++ ws) =
  Parse (strict_text (strip_parts p)).
Proof.
  intros Hp Hpfx Hws.
  rewrite (ParseTolerant_matched _ p
             (tolerant_complete_digits p pfx ws Hp Hpfx Hws)).
  destruct Hp as ([D1 N1] & [D2 N2] & [D3 N3] & _).
  destruct p as [M m pa r x y].
  unfold strip_parts, strict_text, get_part.
  cbn [part_major part_minor part_patch part_revision part_prerelease
       part_buildmetadata] in *.
  rewrite !len_eqb_zero.
  destruct M; [contradiction |]. destruct m; [contradiction |].
  destruct pa; [contradiction |].
  cbn [orb]. rewrite generate_version_spec. reflexivity.
Qed.

(** X13.  Leading zeroes of the numeric fields do not matter to
    [ParseTolerant].  For a text with major, minor and patch, an optional
    revision and suffixes as the strict grammar writes them, after a "v" or
    whitespace and before whitespace, [ParseTolerant] gives what [Parse]
    gives for the text with the leading zeroes stripped, which is also what
    [ParseTolerant] gives for that stripped text. *)
Theorem ParseTolerant_leading_zeroes (p : parts) (pfx ws : string) :
  padded_parts p -> pfx = "v" \/ all_in spaces pfx = true ->
  all_in spaces ws = true ->
  ParseTolerant (pfx ++ strict_text p ++ ws) =
  Parse (strict_text (strip_parts p)) /\
  ParseTolerant (pfx ++ strict_text p ++ ws) =
  ParseTolerant (strict_text (strip_parts p)).
Proof.
  intros Hp Hpfx Hws.
  pose proof (ParseTolerant_padded p pfx ws Hp Hpfx Hws) as E.
  split; [exact E |]. rewrite E.
  pose proof (ParseTolerant_padded (strip_parts p) "" ""
                (padded_parts_strip p Hp) (or_intror eq_refl) eq_refl) as E2.
  cbn [append] in E2. rewrite append_nil_r in E2.
  rewrite E2, (strip_parts_idempotent p Hp). reflexivity.
Qed.

Lemma ParseTolerant_leading_zeroes_witness :
  ParseTolerant "v01.002.0003.04-rc.1+b.01 " = Parse "1.2.3.4-rc.1+b.01" /\
  ParseTolerant "v01.002.0003.04-rc.1+b.01 " =
  ParseTolerant "1.2.3.4-rc.1+b.01".
Proof.
  apply (ParseTolerant_leading_zeroes
           (mkParts "01" "002" "0003" "04" "rc.1" "b.01") "v" " ").
  - unfold padded_parts, digit_field.
    cbn [part_major part_minor part_patch part_revision part_prerelease
         part_buildmetadata].
    split; [split; [reflexivity | discriminate] |].
    split; [split; [reflexivity | discriminate] |].
    split; [split; [reflexivity | discriminate] |].
    split; [right; split; [reflexivity | discriminate] |].
    split; right.
    + exists "rc", ["1"]. split; [| split; [| reflexivity]].
      * right. exists "", "r"%char, "c". repeat split; reflexivity.
      * constructor; [left; right | constructor].
        exists "1"%char, "". repeat split; reflexivity.
    + exists "b", ["01"]. split; [| split; [| reflexivity]].
      * split; [discriminate | reflexivity].
      * constructor; [split; [discriminate | reflexivity] | constructor].
  - left. reflexivity.
  - reflexivity.
Defined.

(** ** From [String] back to [Parse] *)

(** *** The numerals that [FormatUint] writes *)

Lemma nzhead_not_zero (u u' : Decimal.uint) :
  Decimal.nzhead u <> Decimal.D0 u'.
Proof.
  induction u; cbn [Decimal.nzhead]; try discriminate. exact IHu.
Qed.

Lemma string_of_uint_digits (u : Decimal.uint) :
  all_in digits (NilEmpty.string_of_uint u) = true.
Proof.
  induction u; cbn [NilEmpty.string_of_uint all_in]; try reflexivity;
    rewrite IHu; reflexivity.
Qed.

Lemma unorm_fixed_canonical (d : Decimal.uint) :
  Decimal.unorm d = d -> canonical (NilZero.string_of_uint d).
Proof.
  intros H.
  assert (T : forall a u, in_class [("1", "9")]%char a = true ->
                canonical (String a (NilEmpty.string_of_uint u))).
  { intros a u Ha. right. exists a, (NilEmpty.string_of_uint u).
    split; [reflexivity |]. split; [exact Ha | apply string_of_uint_digits]. }
  destruct d as [| u | u | u | u | u | u | u | u | u | u];
    try (apply T; reflexivity).
  - discriminate H.
  - left. rewrite unorm_D0 in H.
    destruct (Decimal.nzhead u) eqn:E;
      try (rewrite (unorm_nzhead u) in H
             by (rewrite E; discriminate);
           exfalso; exact (nzhead_not_zero u u H)).
    apply (proj2 (unorm_0 u)) in E. rewrite E in H.
    injection H as <-. reflexivity.
Qed.

Lemma to_uint_normal (n : N) : Decimal.unorm (N.to_uint n) = N.to_uint n.
Proof.
  rewrite <- DecimalN.Unsigned.to_of, DecimalN.Unsigned.of_to. reflexivity.
Qed.

Lemma FormatUint_canonical (n : Z) : canonical (FormatUint n).
Proof. apply unorm_fixed_canonical, to_uint_normal. Qed.

Lemma decimal_value_FormatUint (n : Z) :
  0 <= n -> decimal_value (FormatUint n) = Some n.
Proof.
  intros H. unfold decimal_value, FormatUint.
  rewrite NilZero.usu
    by (rewrite <- to_uint_normal; apply unorm_nonnil).
  rewrite DecimalN.Unsigned.of_to, Z2N.id by exact H. reflexivity.
Qed.

Lemma ParseUint_FormatUint (n : Z) :
  0 <= n < two64 -> ParseUint (FormatUint n) = Ok n.
Proof.
  intros [H1 H2]. unfold ParseUint.
  rewrite (decimal_value_FormatUint n H1).
  destruct (Z.ltb_spec n two64); [reflexivity | lia].
Qed.

Lemma ParseInt_FormatInt (n : Z) :
  0 <= n < two63 -> ParseInt (FormatInt n) = Ok n.
Proof.
  intros [H1 H2]. unfold FormatInt.
  destruct (Z.ltb_spec n 0); [lia |].
  rewrite (ParseInt_canonical _ (FormatUint_canonical n)).
  unfold numeric_field. rewrite (decimal_value_FormatUint n H1).
  destruct (Z.geb_spec n two63); [lia | reflexivity].
Qed.

(** *** The identifiers of the strict pattern *)

Lemma letter_not_zero (l : ascii) :
  in_class letters l = true ->
  Ascii.eqb l "0" = false /\ in_class [("1", "9")]%char l = false.
Proof.
  destruct l as [[|] [|] [|] [|] [|] [|] [|] [|]]; vm_compute; intros H;
    first [discriminate H | split; reflexivity].
Qed.

Lemma nonzero_digit (a : ascii) :
  in_class [("1", "9")]%char a = true -> in_class digits a = true.
Proof.
  destruct a as [[|] [|] [|] [|] [|] [|] [|] [|]]; vm_compute; intros H;
    first [discriminate H | reflexivity].
Qed.

(** What follows a proper prefix of the digits of an identifier starts with
    a letter, a digit or a hyphen. *)
Lemma identifier_tail_first (ds tail : string) (l : ascii) :
  all_in digits ds = true -> in_class letters l = true ->
  exists a s, ds ++ String l tail = String a s /\ in_class alnums a = true.
Proof.
  intros Hds Hl. destruct ds as [| d ds]; cbn [append].
  - exists l, tail. split; [reflexivity |]. apply (letters_facts l Hl).
  - cbn [all_in] in Hds. apply andb_prop in Hds. destruct Hds as [Hd _].
    exists d, (ds ++ String l tail). split; [reflexivity |].
    apply digits_alnums. exact Hd.
Qed.

Lemma strict_identifier_complete (k : cont) (id rest : string) pos caps res :
  strict_identifier id -> not_first alnums rest ->
  fails_on_first alnums k ->
  k (pos + String.length id)%nat rest caps = Some res ->
  exec identifier k pos (id ++ rest) caps = Some res.
Proof.
  intros Hid Hrest Hfail Hk.
  pose proof (not_first_alnums_digits rest Hrest) as Hrd.
  unfold identifier. rewrite exec_Alt.
  destruct Hid as [Hc | (ds & l & t & -> & Hds & Hl & Ht)].
  - pose proof (exec_numeric_complete k id rest pos caps res Hc Hrd Hk) as N.
    unfold numeric in N. rewrite exec_Alt in N.
    destruct (exec (Chr "0") k pos (id ++ rest) caps); [exact N |].
    rewrite exec_Alt, N. reflexivity.
  - destruct (letters_facts l Hl) as [Hld Hla].
    destruct (letter_not_zero l Hl) as [Hl0 Hl1].
    rewrite append_assoc. cbn [append].
    assert (E0 : exec (Chr "0") k pos (ds ++ String l (t ++ rest)) caps = None).
    { destruct ds as [| d ds]; cbn [append exec].
      - rewrite Hl0. reflexivity.
      - cbn [all_in] in Hds. apply andb_prop in Hds. destruct Hds as [_ Hds].
        destruct (Ascii.eqb d "0"); [| reflexivity].
        destruct (identifier_tail_first ds (t ++ rest) l Hds Hl)
          as (a & s & -> & Ha).
        apply Hfail. exact Ha. }
    rewrite E0, exec_Alt.
    assert (E1 : exec (nonzero +> Star digit) k pos
                   (ds ++ String l (t ++ rest)) caps = None).
    { rewrite exec_Seq. unfold nonzero. change digit with (Class digits).
      destruct ds as [| d ds]; cbn [append]; rewrite exec_Class_cons.
      - rewrite Hl1. reflexivity.
      - cbn [all_in] in Hds. apply andb_prop in Hds. destruct Hds as [_ Hds].
        destruct (in_class [("1", "9")]%char d); [| reflexivity].
        rewrite exec_Star.
        apply (iter_star_digits_none k ds (t ++ rest) l); auto. }
    rewrite E1, exec_Seq.
    change digit with (Class digits).
    apply exec_star_class_greedy; [exact Hds | simpl; exact Hld |].
    rewrite exec_Seq. change letter with (Class letters).
    rewrite exec_Class_cons, Hl. change alnum with (Class alnums).
    apply (exec_star_class_greedy alnums); [exact Ht | exact Hrest |].
    rewrite length_append in Hk. simpl in Hk.
    replace (S (pos + String.length ds) + String.length t)%nat
      with (pos + (String.length ds + S (String.length t)))%nat by lia.
    exact Hk.
Qed.

(** *** The strict pattern on a full text *)

Lemma strict_end_fails (f : parts -> parts) :
  fails_on_first alnums (fun pos s caps => exec Eot accept pos s (f caps)).
Proof. intros pos a s caps Ha. reflexivity. Qed.

Lemma strict_build_complete (y : string) pos caps :
  y = "" \/ dot_list build_segment y ->
  exec strict_build accept pos (opt_part "+" y ++ "") caps =
  Some (set_opt buildmetadata y caps).
Proof.
  intros Hy. unfold strict_build. rewrite exec_Seq.
  destruct Hy as [-> | Hy].
  - cbn [opt_part append set_opt]. rewrite exec_Opt_Chr_skip by exact I.
    reflexivity.
  - assert (Hne : exists a y', y = String a y').
    { destruct Hy as (id & ids & [Hid _] & _ & ->).
      destruct id; [contradiction | cbn [append]; eauto]. }
    destruct Hne as (a & y' & Ey).
    replace (opt_part "+" y) with (String "+" y) by (rewrite Ey; reflexivity).
    replace (set_opt buildmetadata y caps) with (set_part buildmetadata y caps)
      by (rewrite Ey; reflexivity).
    cbn [append]. apply exec_Opt_take. rewrite exec_seq_chr, exec_Group.
    unfold build_ids.
    apply (dot_list_complete build_segment (Plus alnum)).
    + exact build_segment_complete.
    + exact Hy.
    + split; exact I.
    + intros pos' b s caps' Hb. reflexivity.
    + rewrite group_continuation. reflexivity.
Qed.

Lemma strict_build_fails (f : parts -> parts) :
  fails_on_first alnums
    (fun pos s caps => exec strict_build accept pos s (f caps)).
Proof.
  intros pos a s caps Ha. destruct (alnums_facts a Ha) as (_ & Hp & _).
  unfold strict_build. rewrite exec_Seq.
  rewrite exec_Opt_Chr_skip by exact Hp. reflexivity.
Qed.

Lemma strict_pre_complete (x y : string) pos caps :
  x = "" \/ dot_list strict_identifier x ->
  y = "" \/ dot_list build_segment y ->
  exec strict_pre accept pos (opt_part "-" x ++ opt_part "+" y ++ "") caps =
  Some (set_opt buildmetadata y (set_opt prerelease x caps)).
Proof.
  intros Hx Hy.
  destruct (build_tail_not_first y "" eq_refl) as (B1 & B2 & B3 & B4).
  unfold strict_pre. rewrite exec_Seq.
  destruct Hx as [-> | Hx].
  - cbn [opt_part append set_opt]. rewrite exec_Opt_Chr_skip by exact B4.
    apply strict_build_complete; assumption.
  - assert (Hne : exists a x', x = String a x').
    { destruct Hx as (id & ids & Hid & _ & ->).
      destruct (strict_identifier_alnums id Hid) as [_ N].
      destruct id; [contradiction | cbn [append]; eauto]. }
    destruct Hne as (a & x' & Ex).
    replace (opt_part "-" x) with (String "-" x) by (rewrite Ex; reflexivity).
    replace (set_opt prerelease x caps) with (set_part prerelease x caps)
      by (rewrite Ex; reflexivity).
    cbn [append]. apply exec_Opt_take. rewrite exec_seq_chr, exec_Group.
    apply (dot_list_complete strict_identifier identifier).
    + exact strict_identifier_complete.
    + exact Hx.
    + split; assumption.
    + intros pos' b s caps' Hb. apply (strict_build_fails _ pos' b s caps' Hb).
    + rewrite group_continuation. apply strict_build_complete; assumption.
Qed.

Lemma strict_rev_complete (r x y : string) pos caps :
  r = "" \/ canonical r ->
  x = "" \/ dot_list strict_identifier x ->
  y = "" \/ dot_list build_segment y ->
  exec strict_rev accept pos
    (opt_part "." r ++ opt_part "-" x ++ opt_part "+" y ++ "") caps =
  Some (set_opt buildmetadata y (set_opt prerelease x (set_opt revision r caps))).
Proof.
  intros Hr Hx Hy.
  destruct (pre_tail_not_first x y "" eq_refl) as (P1 & P2).
  unfold strict_rev. rewrite exec_Seq.
  destruct Hr as [-> | Hr].
  - cbn [opt_part append set_opt]. rewrite exec_Opt_Chr_skip by exact P2.
    apply strict_pre_complete; assumption.
  - destruct (canonical_nonempty r Hr) as (a & r' & Er).
    replace (opt_part "." r) with (String "." r) by (rewrite Er; reflexivity).
    replace (set_opt revision r caps) with (set_part revision r caps)
      by (rewrite Er; reflexivity).
    cbn [append]. apply exec_Opt_take. rewrite exec_seq_chr.
    apply exec_numeric_group_complete; [exact Hr | exact P1 |].
    apply strict_pre_complete; assumption.
Qed.

Lemma strict_format_eq :
  kongVersionRegexFormat =
  (Bot +> Group major numeric +> Chr "." +> Group minor numeric +> Chr "." +>
   Group patch numeric +> strict_rev)%regex.
Proof. reflexivity. Qed.

(** The strict pattern finds the parts of every text of the strict
    grammar. *)
Lemma strict_complete_full (p : parts) :
  strict_parts p ->
  FindStringSubmatch KongVersionRegex (strict_text p) = Some p.
Proof.
  destruct p as [M m pa r x y]. unfold strict_parts, strict_text.
  cbn [part_major part_minor part_patch part_revision part_prerelease
       part_buildmetadata].
  intros (HM & Hm & Hp & Hr & Hx & Hy).
  unfold FindStringSubmatch. apply find_from_first.
  unfold KongVersionRegex. rewrite strict_format_eq, exec_Seq.
  cbn [exec Nat.eqb]. cbn [append].
  change (exec (Group major numeric +> Chr "." +> Group minor numeric +>
                Chr "." +> Group patch numeric +> strict_rev) accept 0
            (M ++ String "." (m ++ String "." (pa ++ opt_part "." r ++
               opt_part "-" x ++ opt_part "+" y)))
            no_parts = Some (mkParts M m pa r x y)).
  apply exec_seq_numeric_group; [exact HM | reflexivity |].
  rewrite exec_seq_chr.
  apply exec_seq_numeric_group; [exact Hm | reflexivity |].
  rewrite exec_seq_chr.
  rewrite <- (append_nil_r (opt_part "+" y)).
  apply exec_numeric_group_complete;
    [exact Hp | apply (rev_tail_not_first r x y "" eq_refl) |].
  rewrite strict_rev_complete by assumption.
  destruct r, x, y; reflexivity.
Qed.

(** *** [Parse] on a text of the strict grammar *)

Lemma Parse_strict_text (p : parts) :
  strict_parts p ->
  Parse (strict_text p) =
  (major <- ParseUint (part_major p) ;;
   minor <- ParseUint (part_minor p) ;;
   patch <- ParseUint (part_patch p) ;;
   revision <- (if len (part_revision p) >? 0 then ParseInt (part_revision p)
                else Ok (-1)) ;;
   pre <- parse_prerelease
            (if len (part_prerelease p) >? 0
             then Split (part_prerelease p) "." else []) [] ;;
   build <- parse_build
              (if len (part_buildmetadata p) >? 0
               then Split (part_buildmetadata p) "." else []) [] ;;
   Ok (mkVersion major minor patch revision pre build)).
Proof.
  intros Hp. unfold Parse. rewrite (strict_complete_full p Hp).
  destruct (strict_text_first p Hp) as (a & t & -> & _).
  rewrite len_eqb_zero. reflexivity.
Qed.

(** *** The string form of a well-formed version *)

Lemma alnum_letter_or_digit (a : ascii) :
  in_class alnums a = true -> in_class digits a = false ->
  in_class letters a = true.
Proof.
  destruct a as [[|] [|] [|] [|] [|] [|] [|] [|]]; vm_compute; intros H1 H2;
    first [discriminate H1 | discriminate H2 | reflexivity].
Qed.

Lemma alnums_not_digits (s : string) :
  all_in alnums s = true -> all_in digits s = false ->
  exists ds l t, s = ds ++ String l t /\ all_in digits ds = true /\
                 in_class letters l = true /\ all_in alnums t = true.
Proof.
  induction s as [| a s IH]; cbn [all_in]; [discriminate |].
  intros Ha Hd. apply andb_prop in Ha. destruct Ha as [Ha Hs].
  destruct (in_class digits a) eqn:Da.
  - cbn [andb] in Hd. destruct (IH Hs Hd) as (ds & l & t & -> & H1 & H2 & H3).
    exists (String a ds), l, t. cbn [append all_in]. rewrite Da, H1. auto.
  - exists "", a, s. cbn [append all_in].
    split; [reflexivity |]. split; [reflexivity |].
    split; [apply alnum_letter_or_digit; assumption | exact Hs].
Qed.

Lemma built_identifier_strict (p : PRVersion) :
  built_identifier p -> strict_identifier (PRVersion_String p).
Proof.
  unfold PRVersion_String.
  intros [(E & _ & _) | (E & _ & [_ Ha] & Hn)]; rewrite E.
  - left. apply FormatUint_canonical.
  - right. rewrite containsOnly_alphanum in Ha.
    rewrite containsOnly_numbers in Hn. apply alnums_not_digits; assumption.
Qed.

Lemma built_identifier_NewPRVersion (p : PRVersion) :
  built_identifier p -> NewPRVersion (PRVersion_String p) = Ok p.
Proof.
  destruct p as [t n b]. unfold built_identifier, PRVersion_String.
  cbn [IsNum VersionStr VersionNum].
  intros [(-> & -> & R) | (-> & -> & [Hne Ha] & Hn)]; unfold NewPRVersion.
  - pose proof (FormatUint_canonical n) as Hc.
    destruct (canonical_digits _ Hc) as [Hd Hne'].
    rewrite len_eqb_zero, containsOnly_numbers, Hd.
    rewrite (canonical_no_leading_zeroes _ Hc), (ParseUint_FormatUint n R).
    destruct (FormatUint n); [contradiction | reflexivity].
  - rewrite len_eqb_zero, Hn, Ha. destruct t; [contradiction | reflexivity].
Qed.

Lemma parse_prerelease_built_identifiers (l acc : list PRVersion) :
  Forall built_identifier l ->
  parse_prerelease (map PRVersion_String l) acc = Ok (acc ++ l)%list.
Proof.
  intros H. revert acc. induction H as [| p l Hp _ IH]; intros acc;
    cbn [map parse_prerelease].
  - rewrite List.app_nil_r. reflexivity.
  - rewrite (built_identifier_NewPRVersion p Hp). cbn [bind].
    rewrite IH, <- List.app_assoc. reflexivity.
Qed.

Lemma valid_segment_build (s : string) : valid_segment s -> build_segment s.
Proof.
  intros [Hne Ha]. rewrite containsOnly_alphanum in Ha. split; assumption.
Qed.

Lemma opt_part_nonempty (sep x : string) :
  x <> "" -> opt_part sep x = sep ++ x.
Proof. destruct x; [contradiction | reflexivity]. Qed.

Lemma joined_dot_list (P : string -> Prop) (l : list string) :
  Forall P l -> joined l = "" /\ l = [] \/ dot_list P (joined l) /\ l <> [].
Proof.
  intros H. destruct H as [| x l Hx Hl]; [left; auto | right].
  split; [exists x, l; auto | discriminate].
Qed.

Lemma Forall_map_String (l : list PRVersion) :
  Forall built_identifier l ->
  Forall strict_identifier (map PRVersion_String l).
Proof.
  intros H. induction H as [| p l Hp _ IH]; cbn [map]; constructor;
    [apply built_identifier_strict; exact Hp | exact IH].
Qed.

Lemma Forall_build_segment (l : list string) :
  Forall valid_segment l -> Forall build_segment l.
Proof.
  intros H. induction H as [| s l Hs _ IH]; constructor;
    [apply valid_segment_build; exact Hs | exact IH].
Qed.

Lemma revision_text (r : Z) :
  r = -1 \/ 0 <= r < two63 ->
  let t := if r >=? 0 then FormatInt r else "" in
  (t = "" \/ canonical t) /\
  (if len t >? 0 then ParseInt t else Ok (-1)) = Ok r /\
  forall b, (if r >=? 0 then (b ++ ".") ++ FormatInt r else b) =
            b ++ opt_part "." t.
Proof.
  intros [-> | R]; cbv zeta.
  - cbn. split; [auto |]. split; [reflexivity |].
    intros b. symmetry. apply append_nil_r.
  - destruct (Z.geb_spec r 0); [| lia].
    assert (Hc : canonical (FormatInt r)).
    { unfold FormatInt. destruct (Z.ltb_spec r 0); [lia |].
      apply FormatUint_canonical. }
    destruct (canonical_nonempty _ Hc) as (a & t' & E).
    split; [auto |]. split.
    + rewrite len_gtb_zero, E, <- E. apply ParseInt_FormatInt. exact R.
    + intros b. rewrite E. cbn [opt_part]. rewrite append_assoc. reflexivity.
Qed.

Lemma version_parts_strict (v : Version) :
  well_formed v -> strict_parts (version_parts v).
Proof.
  intros ((_ & _ & _ & R) & HP & HB). unfold strict_parts, version_parts.
  cbn [part_major part_minor part_patch part_revision part_prerelease
       part_buildmetadata].
  split; [apply FormatUint_canonical |].
  split; [apply FormatUint_canonical |].
  split; [apply FormatUint_canonical |].
  split; [exact (proj1 (revision_text _ R)) |].
  split.
  - destruct (joined_dot_list _ _ (Forall_map_String _ HP)) as [[E _] | [D _]];
      auto.
  - destruct (joined_dot_list _ _ (Forall_build_segment _ HB)) as [[E _] | [D _]];
      auto.
Qed.

Lemma dot_list_nonempty (P : string -> Prop) (x : string) :
  (forall id, P id -> id <> "") -> dot_list P x -> x <> "".
Proof.
  intros HP (id & ids & Hid & _ & ->). specialize (HP id Hid).
  destruct id; [contradiction | discriminate].
Qed.

Lemma Version_String_parts (v : Version) :
  well_formed v -> Version_String v = strict_text (version_parts v).
Proof.
  intros ((_ & _ & _ & R) & HP & HB). unfold Version_String, strict_text.
  unfold version_parts.
  cbn [part_major part_minor part_patch part_revision part_prerelease
       part_buildmetadata].
  cbv zeta. rewrite (proj2 (proj2 (revision_text _ R))).
  assert (E1 : forall b,
             match Pre v with
             | [] => b
             | pre0 :: rest =>
                 append_dotted ((b ++ "-") ++ PRVersion_String pre0)
                   (map PRVersion_String rest)
             end = b ++ opt_part "-" (joined (map PRVersion_String (Pre v)))).
  { intros b.
    destruct (joined_dot_list _ _ (Forall_map_String _ HP)) as [[E N] | [D N]].
    - destruct (Pre v); [| discriminate N]. symmetry. apply append_nil_r.
    - destruct (Pre v) as [| p0 rest]; [contradiction |].
      rewrite opt_part_nonempty
        by (apply (dot_list_nonempty strict_identifier); [| exact D];
            intros id Hid; apply (strict_identifier_alnums id Hid)).
      cbn [map joined]. rewrite append_dotted_spec, !append_assoc.
      reflexivity. }
  assert (E2 : forall b,
             match Build v with
             | [] => b
             | build0 :: rest => append_dotted ((b ++ "+") ++ build0) rest
             end = b ++ opt_part "+" (joined (Build v))).
  { intros b.
    destruct (joined_dot_list _ _ (Forall_build_segment _ HB)) as [[E N] | [D N]].
    - destruct (Build v); [| discriminate N]. symmetry. apply append_nil_r.
    - destruct (Build v) as [| b0 rest]; [contradiction |].
      rewrite opt_part_nonempty
        by (apply (dot_list_nonempty build_segment); [| exact D];
            intros id Hid; apply Hid).
      cbn [joined]. rewrite append_dotted_spec, !append_assoc.
      reflexivity. }
  rewrite E1, E2, !append_assoc. reflexivity.
Qed.

Lemma Split_joined (l : list string) :
  Forall (fun x => all_in alnums x = true /\ x <> "") l ->
  (if len (joined l) >? 0 then Split (joined l) "." else []) = l.
Proof.
  intros H. destruct H as [| x l [Hx Hne] Hl]; [reflexivity |].
  cbn [joined]. rewrite len_gtb_zero.
  destruct x as [| a x]; [contradiction |]. cbn [append].
  change (String a (x ++ dotted l)) with (String a x ++ dotted l).
  apply Split_dot_list. constructor; [exact Hx |].
  apply (Forall_impl _ (fun y H => proj1 H) Hl).
Qed.

Lemma Parse_Version_String (v : Version) :
  well_formed v -> Parse (Version_String v) = Ok v.
Proof.
  intros W. rewrite (Version_String_parts v W).
  rewrite (Parse_strict_text _ (version_parts_strict v W)).
  destruct W as ((R1 & R2 & R3 & R) & HP & HB). unfold version_parts.
  cbn [part_major part_minor part_patch part_revision part_prerelease
       part_buildmetadata].
  rewrite (ParseUint_FormatUint _ R1), (ParseUint_FormatUint _ R2),
    (ParseUint_FormatUint _ R3). cbn [bind].
  rewrite (proj1 (proj2 (revision_text _ R))). cbn [bind].
  rewrite Split_joined.
  2:{ apply (Forall_impl _ strict_identifier_alnums).
      apply Forall_map_String. exact HP. }
  rewrite (parse_prerelease_built_identifiers _ [] HP). cbn [bind app].
  rewrite Split_joined.
  2:{ apply (Forall_impl _ (fun s H => valid_segment_build s H)) in HB.
      apply (Forall_impl _ (fun s (H : build_segment s) =>
                              conj (proj2 H) (proj1 H)) HB). }
  rewrite (parse_build_segments_ok _ [] (Forall_build_segment _ HB)).
  cbn [bind app]. destruct v; reflexivity.
Qed.

(** X14.  The string form of a well-formed version parses back to the
    version: when major, minor and patch fit a [uint64], the revision is
    [-1] or fits a non-negative [int64], every pre-release identifier has
    the shape that [NewPRVersion] builds and every build segment is
    non-empty and of bytes of [alphanum], [Parse] and [ParseTolerant] of
    [v.String()] return [v].  So two well-formed versions with the same
    string form are the same version. *)
Theorem Parse_of_Version_String (v : Version) :
  well_formed v ->
  Parse (Version_String v) = Ok v /\
  ParseTolerant (Version_String v) = Ok v /\
  forall w, well_formed w -> Version_String w = Version_String v -> w = v.
Proof.
  intros W. pose proof (Parse_Version_String v W) as P.
  split; [exact P |]. split.
  - pose proof (ParseTolerant_of_strict _ v "" "" P (or_intror eq_refl)
                  eq_refl) as T.
    cbn [append] in T. rewrite append_nil_r in T. exact T.
  - intros w Ww E. pose proof (Parse_Version_String w Ww) as Pw.
    rewrite E, P in Pw. injection Pw as ->. reflexivity.
Qed.

Lemma Parse_of_Version_String_witness :
  let v := mkVersion 1 0 18446744073709551615 7
             [mkPRVersion "0a-" 0 false; mkPRVersion "" 10 true] ["007"; "-"] in
  Parse (Version_String v) = Ok v /\
  ParseTolerant (Version_String v) = Ok v /\
  forall w, well_formed w -> Version_String w = Version_String v -> w = v.
Proof.
  intros v. apply (Parse_of_Version_String v).
  unfold well_formed, fields_in_range, v.
  cbn [Major Minor Patch Revision Pre Build].
  split; [unfold two64, two63; lia |].
  split.
  - constructor; [right | constructor; [left | constructor]].
    + cbn [IsNum VersionNum VersionStr].
      split; [reflexivity |]. split; [reflexivity |].
      split; [split; [discriminate | reflexivity] | reflexivity].
    + cbn [IsNum VersionNum VersionStr]. unfold two64.
      split; [reflexivity |]. split; [reflexivity | lia].
  - constructor; [split; [discriminate | reflexivity] |].
    constructor; [split; [discriminate | reflexivity] | constructor].
Defined.

(** ** The three checks of a build segment *)

(** X15.  [NewBuildVersion], [Validate] and [Parse] accept the same build
    segments: [NewBuildVersion] returns its argument, and it does so exactly
    when a version with that one build segment passes [Validate], and
    exactly when [Parse] reads the segment after ["0.0.0+"] as the one
    build segment of the version. *)
Theorem NewBuildVersion_agrees (s : string) :
  (forall b, NewBuildVersion s = Ok b -> b = s) /\
  (NewBuildVersion s = Ok s <->
   Version_Validate (mkVersion 0 0 0 (-1) [] [s]) = None) /\
  (NewBuildVersion s = Ok s <->
   Parse ("0.0.0+" ++ s) = Ok (mkVersion 0 0 0 (-1) [] [s])).
Proof.
  assert (V : NewBuildVersion s = Ok s <-> valid_segment s).
  { unfold NewBuildVersion, valid_segment. rewrite len_eqb_zero.
    destruct s as [| a s'].
    - split; [discriminate | intros [N _]; contradiction].
    - destruct (containsOnly (String a s') alphanum); cbn [negb].
      + split; [split; [discriminate | reflexivity] | reflexivity].
      + split; [discriminate | intros [_ N]; discriminate N]. }
  assert (W : Version_Validate (mkVersion 0 0 0 (-1) [] [s]) = None <->
              valid_segment s).
  { unfold Version_Validate. cbn [Pre Build validate_pre].
    rewrite validate_build_none. split.
    - intros H. inversion H; assumption.
    - intros H. constructor; [exact H | constructor]. }
  split; [| split].
  - unfold NewBuildVersion. intros b H.
    destruct (len s =? 0); [discriminate H |].
    destruct (negb (containsOnly s alphanum)); [discriminate H |].
    injection H as <-. reflexivity.
  - rewrite V, W. reflexivity.
  - rewrite V. split.
    + intros H.
      assert (F : well_formed (mkVersion 0 0 0 (-1) [] [s])).
      { unfold well_formed, fields_in_range, two64.
        cbn [Major Minor Patch Revision Pre Build].
        split; [split; [lia |]; split; [lia |]; split; [lia | auto] |].
        split; [constructor | constructor; [exact H | constructor]]. }
      pose proof (Parse_Version_String _ F) as P.
      destruct H as [Hne _]. destruct s as [| a s']; [contradiction |].
      exact P.
    + intros H. apply W. exact (Parse_valid _ _ H).
Qed.
